(** * Cykel: vault codec and cycle prediction engine

    A shallow embedding of the two algorithmic modules of the Cykel PWA:

    - the crypto module (PBKDF2 + AES-256-GCM envelope with the [CYKEL_V1]
      marker), functions [encrypt] and [decrypt];
    - the prediction engine ([rebuildCycles], [predict], [fertilityWindow],
      [cycleStats]);

    and of what the application does with them:

    - the encrypted storage ([save], [load], [wipe], [dataExists]) over the
      object store as a map from keys to blobs;
    - the session and the handlers of the application (setup, unlock,
      lock, wipe, the day screen, month navigation, the auto-lock stepper)
      as functions on the session and the store.

    The Web Crypto primitives are parameters of the embedding; JavaScript
    numbers are IEEE binary64 floats ([PrimFloat]); calendar dates are the
    decoded fields of well-formed [YYYY-MM-DD] strings. *)

From Stdlib Require Import String Ascii Strings.Byte.
From Stdlib Require Import ZArith Lia Bool List Sorted Permutation.
From Stdlib Require Import Floats.PrimFloat Floats.SpecFloat Floats.FloatOps.
From Stdlib Require Import Floats.FloatAxioms.
From Stdlib Require Uint63.
Import ListNotations.

Set Implicit Arguments.
Set Warnings "-inexact-float,-abstract-large-number".

(* ================================================================== *)
(** * Crypto module *)
(* ================================================================== *)

Module Crypto.

Definition bytes := list byte.

Definition SALT_LEN : nat := 32.
Definition IV_LEN : nat := 12.
Definition PBKDF2_ITERATIONS : N := 600000%N.

(** [new TextEncoder().encode('CYKEL_V1')] *)
Definition MAGIC : bytes := list_byte_of_string "CYKEL_V1".

(** The errors that can travel through the module.  The source throws
    [Error('Invalid data format')] and [Error('Wrong passphrase')]; the
    rejection of [crypto.subtle.decrypt] on a tag mismatch is a DOM
    [OperationError]. *)
Inductive error : Type :=
| CorruptData       (* Error('Invalid data format') *)
| WrongPassphrase   (* Error('Wrong passphrase') *)
| OperationError.   (* rejection raised by crypto.subtle.decrypt *)

(** Calls into the Web Crypto API, in the order they are issued. *)
Inductive call : Type :=
| CallDeriveKey
| CallEncrypt
| CallDecrypt.

(** How an awaited computation settles. *)
Inductive outcome (A : Type) : Type :=
| Resolved (a : A)
| Rejected (e : error).
Arguments Rejected {A} e.

(** An async computation: the Web Crypto calls it issued, and how it
    settled. *)
Definition Async (A : Type) : Type := (list call * outcome A)%type.

Definition ret {A} (a : A) : Async A := ([], Resolved a).
Definition throw {A} (e : error) : Async A := ([], Rejected e).
Definition issue (c : call) : Async unit := ([c], Resolved tt).

Definition bind {A B} (m : Async A) (k : A -> Async B) : Async B :=
  match m with
  | (l, Resolved a) => let '(l', r) := k a in (l ++ l', r)
  | (l, Rejected e) => (l, Rejected e)
  end.

(** [try { m } catch { throw e }] *)
Definition catch_throw {A} (m : Async A) (e : error) : Async A :=
  match m with
  | (l, Resolved a) => (l, Resolved a)
  | (l, Rejected _) => (l, Rejected e)
  end.

Definition calls {A} (m : Async A) : list call := fst m.
Definition settled {A} (m : Async A) : outcome A := snd m.

Declare Scope async_scope.
Delimit Scope async_scope with async.
Notation "x <- m ;; k" := (bind m (fun x => k))
  (at level 61, m at next level, right associativity) : async_scope.
Notation "m ;;; k" := (bind m (fun _ => k))
  (at level 61, right associativity) : async_scope.
Local Open Scope async_scope.

(** [arr.slice(a, b)] and [arr.slice(a)] on a typed array, for
    non-negative indices. *)
Definition slice {A} (a b : nat) (l : list A) : list A :=
  firstn (b - a) (skipn a l).
Definition slice_from {A} (a : nat) (l : list A) : list A := skipn a l.

(** The loop that verifies the magic bytes: [decrypted[i] !== MAGIC[i]] for
    some [i < MAGIC.length] throws; an index past the end of [decrypted]
    reads [undefined], which differs from every byte. *)
Definition magic_matches (decrypted : bytes) : bool :=
  forallb
    (fun i =>
       match nth_error decrypted i, nth_error MAGIC i with
       | Some a, Some b => Byte.eqb a b
       | _, _ => false
       end)
    (seq 0 (length MAGIC)).

Section WebCrypto.

(** The platform primitives: PBKDF2 (SHA-256, [PBKDF2_ITERATIONS] rounds)
    from a passphrase and a salt to an AES-256 key, and AES-GCM. *)
Variable key : Type.
Variable pbkdf2 : string -> bytes -> key.
Variable aes_gcm_encrypt : key -> bytes -> bytes -> bytes.
Variable aes_gcm_decrypt : key -> bytes -> bytes -> option bytes.

Definition deriveKey (passphrase : string) (salt : bytes) : Async key :=
  issue CallDeriveKey ;;; ret (pbkdf2 passphrase salt).

Definition subtle_encrypt (k : key) (iv payload : bytes) : Async bytes :=
  issue CallEncrypt ;;; ret (aes_gcm_encrypt k iv payload).

Definition subtle_decrypt (k : key) (iv ciphertext : bytes) : Async bytes :=
  issue CallDecrypt ;;;
  match aes_gcm_decrypt k iv ciphertext with
  | Some p => ret p
  | None => throw OperationError
  end.

(** [encrypt(passphrase, plaintext)].  [salt] and [iv] are the values
    produced by the two [crypto.getRandomValues] calls, of [SALT_LEN] and
    [IV_LEN] bytes; the three [result.set] calls then lay the parts out
    one after the other. *)
Definition encrypt (salt iv : bytes) (passphrase : string)
           (plaintext : bytes) : Async bytes :=
  k <- deriveKey passphrase salt ;;
  let payload := MAGIC ++ plaintext in
  ciphertext <- subtle_encrypt k iv payload ;;
  ret (salt ++ iv ++ ciphertext).

(** [decrypt(passphrase, encrypted)] *)
Definition decrypt (passphrase : string) (encrypted : bytes) : Async bytes :=
  if length encrypted <? SALT_LEN + IV_LEN + length MAGIC then
    throw CorruptData
  else
    let salt := slice 0 SALT_LEN encrypted in
    let iv := slice SALT_LEN (SALT_LEN + IV_LEN) encrypted in
    let ciphertext := slice_from (SALT_LEN + IV_LEN) encrypted in
    k <- deriveKey passphrase salt ;;
    decrypted <- catch_throw (subtle_decrypt k iv ciphertext) WrongPassphrase ;;
    if magic_matches decrypted then
      ret (slice_from (length MAGIC) decrypted)
    else
      throw WrongPassphrase.

End WebCrypto.

End Crypto.

(* ================================================================== *)
(** * Prediction engine *)
(* ================================================================== *)

Module Prediction.

Local Open Scope Z_scope.

(** ** Calendar dates

    A date string [YYYY-MM-DD] is kept as its three decoded fields.  The
    strings are well formed (four-digit year, zero-padded month and day),
    so that the order on strings used by [sort] and [localeCompare] is the
    lexicographic order on the fields, and string equality is equality of
    the fields.  Outside four-digit years the fields are not the text: the
    order of the strings is then not the order of the fields, and
    [new Date(y, m - 1, d)] reads a year from 0 to 99 as a year of the
    1900s.  The theorems that rest on the order of dates or on day
    arithmetic therefore assume dates with a four-digit year
    ([Spec.four_digit_year], [Spec.well_formed]). *)

Record date : Type := mkDate { year : Z; month : Z; day : Z }.

Definition date_compare (a b : date) : comparison :=
  match year a ?= year b with
  | Eq => match month a ?= month b with
          | Eq => day a ?= day b
          | c => c
          end
  | c => c
  end.

Definition date_eqb (a b : date) : bool :=
  match date_compare a b with Eq => true | _ => false end.

(** The proleptic Gregorian calendar of the platform's [Date], counted in
    days from 1970-01-01 (a local midnight, in days). *)
Definition leap_year (y : Z) : bool :=
  (y mod 4 =? 0) && (negb (y mod 100 =? 0) || (y mod 400 =? 0)).

(** Leap years among the years [1 .. y - 1]. *)
Definition leaps_before (y : Z) : Z :=
  (y - 1) / 4 - (y - 1) / 100 + (y - 1) / 400.

Definition days_before_year (y : Z) : Z :=
  365 * (y - 1970) + (leaps_before y - 477).

(** Days of year [y] before its month [m] (1 to 12). *)
Definition days_before_month (y m : Z) : Z :=
  nth (Z.to_nat (m - 1)) [0; 31; 59; 90; 120; 151; 181; 212; 243; 273; 304; 334] 0
  + (if leap_year y && (2 <? m) then 1 else 0).

Definition days_from_civil (y m d : Z) : Z :=
  days_before_year y + days_before_month y m + (d - 1).

(** The calendar date of a day number ([getFullYear], [getMonth() + 1],
    [getDate]). *)
Definition civil_from_days (n : Z) : date :=
  let z := n + 719468 in
  let era := z / 146097 in
  let doe := z - era * 146097 in
  let yoe := (doe - doe / 1460 + doe / 36524 - doe / 146096) / 365 in
  let doy := doe - (365 * yoe + yoe / 4 - yoe / 100) in
  let mp := (5 * doy + 2) / 153 in
  let d := doy - (153 * mp + 2) / 5 + 1 in
  let m := if mp <? 10 then mp + 3 else mp - 9 in
  let y := yoe + era * 400 + (if m <=? 2 then 1 else 0) in
  mkDate y m d.

(** [parseDate(s)]: [new Date(y, m - 1, d)], as a day number, for a
    year from 100 on (the constructor moves a year from 0 to 99 into the
    1900s).  The month index overflows into the year and the day into the
    month, as the [Date] constructor does. *)
Definition parseDate (s : date) : Z :=
  let m0 := month s - 1 in
  days_from_civil (year s + m0 / 12) (m0 mod 12 + 1) 1 + (day s - 1).

(** [fmtDate(d)] *)
Definition fmtDate (n : Z) : date := civil_from_days n.

(** [daysBetween(a, b)]: the two local midnights differ by a whole number
    of days up to a daylight-saving hour, which [Math.round] removes. *)
Definition daysBetween (a b : date) : Z := parseDate b - parseDate a.

(** [addDays(dateStr, n)] *)
Definition addDays (dateStr : date) (n : Z) : date :=
  fmtDate (parseDate dateStr + n).

(** ** JavaScript numbers *)

(** An integer as a number (exact below [2^53]). *)
Definition num (z : Z) : float :=
  if z <? 0 then PrimFloat.opp (PrimFloat.of_uint63 (Uint63.of_Z (- z)))
  else PrimFloat.of_uint63 (Uint63.of_Z z).

(** [Math.round(x)]: the integer nearest to [x], ties towards plus
    infinity, i.e. [floor(x + 1/2)] computed exactly from the binary
    expansion of [x].  [NaN] and the infinities, which [Math.round] returns
    unchanged and which the mean of a list of day counts never is, are
    sent to 0. *)
Definition Math_round (x : float) : Z :=
  match Prim2SF x with
  | S754_finite s m e =>
      let v := if s then Z.neg m else Z.pos m in
      if 0 <=? e then v * 2 ^ e
      else (2 * v + 2 ^ (- e)) / 2 ^ (- e + 1)
  | _ => 0
  end.

(** [Math.max(a, b)] and [Math.min(a, b)]: [NaN] if either argument is.
    (Between [+0] and [-0], which compare equal, the first argument is
    returned; no caller passes two zeros.) *)
Definition Math_max (a b : float) : float :=
  if PrimFloat.is_nan a || PrimFloat.is_nan b then PrimFloat.nan
  else if PrimFloat.ltb a b then b else a.

Definition Math_min (a b : float) : float :=
  if PrimFloat.is_nan a || PrimFloat.is_nan b then PrimFloat.nan
  else if PrimFloat.ltb b a then b else a.

(** [mean(arr)] *)
Definition mean (arr : list Z) : float :=
  if (length arr =? 0)%nat then 0%float
  else (fold_left (fun a b => a + num b) arr 0 / num (Z.of_nat (length arr)))%float.

(** [stdDev(arr)]; the square [x ** 2] is the product [x * x]. *)
Definition stdDev (arr : list Z) : float :=
  if (length arr <? 2)%nat then 0%float
  else
    let avg := mean arr in
    let variance :=
      (fold_left (fun sum v => sum + (num v - avg) * (num v - avg)) arr 0
       / num (Z.of_nat (length arr) - 1))%float in
    PrimFloat.sqrt variance.

(** ** Data model *)

Inductive FlowLevel : Type := FlowNone | Light | Medium | Heavy.

Definition is_flow (f : FlowLevel) : bool :=
  match f with FlowNone => false | _ => true end.

Record DayLog : Type := mkDayLog {
  log_date : date;
  flow_level : FlowLevel;
  notes : string
}.

(** [end_date = None] is JavaScript's [null]: an open cycle. *)
Record Cycle : Type := mkCycle {
  start_date : date;
  end_date : option date
}.

Record PredictionResult : Type := mkPrediction {
  predicted_start : date;
  predicted_end : date;
  confidence : float
}.

Record FertilityWindow : Type := mkWindow {
  fertile_start : date;
  fertile_end : date;
  ovulation_day : date;
  peak_start : date;
  peak_end : date
}.

(** ** Array helpers *)

(** [Array.prototype.sort] with a comparator: a stable sort. *)
Section Sort.
Variable A : Type.
Variable cmp : A -> A -> comparison.

Fixpoint insert (x : A) (l : list A) : list A :=
  match l with
  | [] => [x]
  | y :: l' =>
      match cmp x y with
      | Gt => y :: insert x l'
      | _ => x :: y :: l'
      end
  end.

Definition sort (l : list A) : list A := fold_right insert [] l.
End Sort.

(** [[...new Set(arr)]]: the distinct elements in order of first
    occurrence. *)
Fixpoint dedupe (l : list date) : list date :=
  match l with
  | [] => []
  | x :: r => x :: filter (fun y => negb (date_eqb x y)) (dedupe r)
  end.

(** [arr.slice(-k)] *)
Definition slice_last {A} (k : nat) (l : list A) : list A :=
  skipn (length l - k)%nat l.

(** ** [rebuildCycles] *)

(** The state of the grouping loop: the cycles pushed so far and the
    [start] and [end] of the current run. *)
Definition loop_state : Type := (list Cycle * date * date)%type.

(** One iteration of the [for] loop, on [unique[i]]. *)
Definition rebuild_step (st : loop_state) (u : date) : loop_state :=
  let '(cycles, start, end_) := st in
  let gap := daysBetween end_ u in
  if gap <=? 2 then (cycles, start, u)
  else (cycles ++ [mkCycle start (Some end_)], u, u).

(** [rebuildCycles(dayLogs)]; [today] is [fmtDate(new Date())]. *)
Definition rebuildCycles (today : date) (dayLogs : list DayLog) : list Cycle :=
  let flowDays :=
    sort date_compare
         (map log_date (filter (fun l => is_flow (flow_level l)) dayLogs)) in
  let unique := dedupe flowDays in
  match unique with
  | [] => []
  | u0 :: rest =>
      let '(cycles, start, end_) := fold_left rebuild_step rest ([], u0, u0) in
      let daysAgo := daysBetween end_ today in
      cycles ++ [mkCycle start (if daysAgo <=? 2 then None else Some end_)]
  end.

(** ** [predict] *)

Definition is_closed (c : Cycle) : bool :=
  match end_date c with Some _ => true | None => false end.

Definition by_start (a b : Cycle) : comparison :=
  date_compare (start_date a) (start_date b).

(** Read at an index that the loops keep within bounds. *)
Definition no_cycle : Cycle := mkCycle (mkDate 1970 1 1) None.
Definition at_index (l : list Cycle) (i : nat) : Cycle := nth i l no_cycle.

(** [daysBetween(c.start_date, c.end_date) + 1]; a [null] end, which the
    filter on closed cycles excludes, would coerce to the epoch. *)
Definition period_length (c : Cycle) : Z :=
  match end_date c with
  | Some e => daysBetween (start_date c) e + 1
  | None => 0 - parseDate (start_date c) + 1
  end.

Definition predict (cycles : list Cycle) : option PredictionResult :=
  let completed := sort by_start (filter is_closed cycles) in
  if (length completed <? 2)%nat then None
  else
    let recent := slice_last 6 completed in
    let cycleLengths :=
      map (fun i => daysBetween (start_date (at_index recent (i - 1)))
                                (start_date (at_index recent i)))
          (seq 1 (length recent - 1)) in
    if (length cycleLengths =? 0)%nat then None
    else
      let periodLengths := map period_length recent in
      let avgCycle := mean cycleLengths in
      let avgPeriod :=
        if (length periodLengths =? 0)%nat then 5%float else mean periodLengths in
      let lastStart := start_date (at_index completed (length completed - 1)) in
      let predictedStart := addDays lastStart (Math_round avgCycle) in
      let predictedEnd :=
        addDays predictedStart (Z.max 0 (Math_round avgPeriod - 1)) in
      let sd := stdDev cycleLengths in
      let confidence :=
        Math_max 0.1 (Math_min 0.95 (1 - sd / avgCycle))%float in
      Some (mkPrediction predictedStart predictedEnd confidence).

(** ** [fertilityWindow] *)

Definition fertilityWindow (cycles : list Cycle) : option FertilityWindow :=
  match predict cycles with
  | None => None
  | Some pred =>
      let ovulationDay := addDays (predicted_start pred) (-14) in
      let fertileStart := addDays ovulationDay (-5) in
      let peakStart := addDays ovulationDay (-2) in
      Some (mkWindow fertileStart ovulationDay ovulationDay peakStart ovulationDay)
  end.

End Prediction.

(* ================================================================== *)
(** * A reference cipher

    A small, executable instance of the Web Crypto primitives, used to run
    the codec on concrete inputs.  The key is the passphrase itself and a
    ciphertext is the payload behind a self-delimiting copy of the key. *)
(* ================================================================== *)

Module RefCipher.

Import Crypto.

Definition key : Type := string.

Definition pbkdf2 (passphrase : string) (salt : bytes) : key := passphrase.

(** Every key byte is announced by [x01]; [x00] closes the header. *)
Fixpoint frame (k : bytes) : bytes :=
  match k with
  | [] => [x00]
  | b :: k' => x01 :: b :: frame k'
  end.

Fixpoint strip (k c : bytes) : option bytes :=
  match k, c with
  | [], c0 :: rest => if Byte.eqb c0 x00 then Some rest else None
  | b :: k', c0 :: b' :: rest =>
      if Byte.eqb c0 x01 && Byte.eqb b b' then strip k' rest else None
  | _, _ => None
  end.

Definition aes_gcm_encrypt (k : key) (iv payload : bytes) : bytes :=
  frame (list_byte_of_string k) ++ payload.

Definition aes_gcm_decrypt (k : key) (iv ciphertext : bytes) : option bytes :=
  strip (list_byte_of_string k) ciphertext.

Definition encrypt := Crypto.encrypt pbkdf2 aes_gcm_encrypt.
Definition decrypt := Crypto.decrypt pbkdf2 aes_gcm_decrypt.

End RefCipher.

(* ================================================================== *)
(** * The specification's vocabulary

    Definitions that follow the words of the design document rather than
    the code; the theorems below relate them to the embedding. *)
(* ================================================================== *)

Module Spec.

Import Prediction.
Local Open Scope Z_scope.

Definition epoch : date := mkDate 1970 1 1.

(** Ascending order under a comparator, and on date strings. *)
Definition cmp_le {A} (cmp : A -> A -> comparison) (x y : A) : Prop :=
  cmp x y <> Gt.

Definition date_lt (a b : date) : Prop := date_compare a b = Lt.

(** The extra day of a leap year. *)
Definition leap_day (y : Z) : Z := if leap_year y then 1 else 0.

(** A run of flow dates: a non-empty list of dates, oldest first. *)
Definition run : Type := list date.
Definition run_start (r : run) : date := hd epoch r.
Definition run_end (r : run) : date := last r epoch.

(** "Within [n] days (inclusive) of": at most [n] days apart, either way. *)
Definition within_days (n : Z) (a b : date) : Prop :=
  Z.abs (daysBetween a b) <= n.

Definition within_daysb (n : Z) (a b : date) : bool :=
  Z.abs (daysBetween a b) <=? n.

(** Greedy merge: the next flow date extends the current run when it is
    within 2 days (inclusive) of the run's current end [e], otherwise it
    starts a new run. *)
Fixpoint runs_from (r : run) (e : date) (ds : list date) : list run :=
  match ds with
  | [] => [r]
  | d :: ds' =>
      if within_daysb 2 e d then runs_from (r ++ [d]) d ds'
      else r :: runs_from [d] d ds'
  end.

Definition group_runs (ds : list date) : list run :=
  match ds with
  | [] => []
  | d :: ds' => runs_from [d] d ds'
  end.

(** The distinct flow dates of the day logs, ascending. *)
Definition flow_dates (dayLogs : list DayLog) : list date :=
  dedupe (sort date_compare
               (map log_date (filter (fun l => is_flow (flow_level l)) dayLogs))).

(** A run as a closed cycle, and the final run as a cycle that is left
    open when its end is no more than 2 days before [today]. *)
Definition closed_cycle (r : run) : Cycle :=
  mkCycle (run_start r) (Some (run_end r)).

Definition final_cycle (today : date) (r : run) : Cycle :=
  mkCycle (run_start r)
          (if daysBetween (run_end r) today <=? 2 then None
           else Some (run_end r)).

Definition cycles_of_runs (today : date) (rs : list run) : list Cycle :=
  match rs with
  | [] => []
  | _ => map closed_cycle (removelast rs) ++ [final_cycle today (last rs [])]
  end.

(** The closed cycles, oldest start first, and the sample window: the
    (up to) [k] most recent of them. *)
Definition closed_cycles (cycles : list Cycle) : list Cycle :=
  sort by_start (filter is_closed cycles).

Definition most_recent {A} (k : nat) (l : list A) : list A :=
  rev (firstn k (rev l)).

(** Day differences between consecutive dates of a list. *)
Fixpoint consecutive_diffs (ds : list date) : list Z :=
  match ds with
  | a :: (b :: _) as tl => daysBetween a b :: consecutive_diffs tl
  | _ => []
  end.

(** Consecutive dates of a run are within 2 days of each other, and
    consecutive runs are further apart. *)
Definition run_connected (r : run) : Prop :=
  Forall (fun gap => Z.abs gap <= 2) (consecutive_diffs r).

Fixpoint runs_separated (rs : list run) : Prop :=
  match rs with
  | r1 :: (r2 :: _) as tl =>
      ~ within_days 2 (run_end r1) (run_start r2) /\ runs_separated tl
  | _ => True
  end.

(** A calendar date that exists. *)
Definition days_in_month (y m : Z) : Z :=
  if m =? 2 then (if leap_year y then 29 else 28)
  else if (m =? 4) || (m =? 6) || (m =? 9) || (m =? 11) then 30
  else 31.

Definition valid_date (d : date) : Prop :=
  1 <= month d <= 12 /\ 1 <= day d <= days_in_month (year d) (month d).

(** [parseDate (fmtDate z) = z] for the [n] day numbers from [z] on. *)
Fixpoint roundtrips (n : nat) (z : Z) : bool :=
  match n with
  | O => true
  | S n' => (parseDate (fmtDate z) =? z) && roundtrips n' (z + 1)
  end.

(** Consecutive cycles lie more than 2 days apart: each but the last is
    closed, and the next starts more than 2 days after its end. *)
Fixpoint cycles_apart (cs : list Cycle) : Prop :=
  match cs with
  | c1 :: (c2 :: _) as tl =>
      (exists e, end_date c1 = Some e /\ 2 < daysBetween e (start_date c2))
      /\ cycles_apart tl
  | _ => True
  end.

(** Validity as a test, a calendar date moved by whole years, and the
    check of one 400-year era of day numbers: formatting gives a date
    that exists and parses back to the day number. *)
Definition valid_dateb (d : date) : bool :=
  (1 <=? month d) && (month d <=? 12) && (1 <=? day d)
  && (day d <=? days_in_month (year d) (month d)).

Definition shift_years (k : Z) (d : date) : date :=
  mkDate (year d + k) (month d) (day d).

Fixpoint era_ok (n : nat) (z : Z) : bool :=
  match n with
  | O => true
  | S n' =>
      (parseDate (fmtDate z) =? z) && valid_dateb (fmtDate z)
      && era_ok n' (z + 1)
  end.

(** The dates the application writes.  The year has four digits: then
    the fields are the text, the order of the strings is the order of the
    fields, and [new Date(y, m - 1, d)] takes the year as it is (it reads
    a year below 100 as a year of the 1900s). *)
Definition four_digit_year (d : date) : Prop := 1000 <= year d <= 9999.

Definition well_formed (d : date) : Prop :=
  valid_date d /\ four_digit_year d.

Definition four_digit_cycle (c : Cycle) : Prop :=
  four_digit_year (start_date c)
  /\ forall e, end_date c = Some e -> four_digit_year e.

(** The day numbers of 1000-01-01 and of 9999-12-31. *)
Definition first_day : Z := parseDate (mkDate 1000 1 1).
Definition last_day : Z := parseDate (mkDate 9999 12 31).

End Spec.

(* ================================================================== *)
(** * Concrete inputs *)
(* ================================================================== *)

Module Examples.

Import Prediction.
Local Open Scope Z_scope.

Definition salt0 : Crypto.bytes := repeat x2a 32.
Definition iv0 : Crypto.bytes := repeat x07 12.
Definition hello : Crypto.bytes := list_byte_of_string "{}".

Definition flow (y m d : Z) : DayLog := mkDayLog (mkDate y m d) Light "".

(** Flow on 2024-01-01, 2024-01-02 and 2024-01-03. *)
Definition three_days : list DayLog :=
  [flow 2024 1 1; flow 2024 1 2; flow 2024 1 3].

Definition closed (y m d : Z) (y' m' d' : Z) : Cycle :=
  mkCycle (mkDate y m d) (Some (mkDate y' m' d')).

(** Two closed cycles that start on the same day. *)
Definition same_start : list Cycle :=
  [closed 2024 1 1 2024 1 5; closed 2024 1 1 2024 1 5].

(** Closed cycles 28 days apart, five days each. *)
Definition regular : list Cycle :=
  [closed 2024 1 1 2024 1 5; closed 2024 1 29 2024 2 2;
   closed 2024 2 26 2024 3 1].

(** Two closed cycles whose prediction starts on 2024-03-01. *)
Definition march_first : list Cycle :=
  [closed 2024 1 5 2024 1 9; closed 2024 2 2 2024 2 6].

(** An open cycle, and the regular history with it. *)
Definition open_cycle : Cycle := mkCycle (mkDate 2024 3 24) None.
Definition regular_open : list Cycle := open_cycle :: regular.

(** One closed cycle only. *)
Definition single : list Cycle := [closed 2024 1 1 2024 1 5; open_cycle].

(** Day logs without any flow. *)
Definition no_flow : list DayLog := [mkDayLog (mkDate 2024 1 1) FlowNone "rest"].

(** A single flow day, nine days after "today" 2024-01-01. *)
Definition future_flow : list DayLog := [flow 2024 1 10].

End Examples.

Unset Implicit Arguments.

(* ================================================================== *)
(** * Further inputs and invariants *)
(* ================================================================== *)

Module MoreExamples.

Import Prediction.
Local Open Scope Z_scope.

(** The three flow days of [Examples.three_days], logged out of order,
    one of them twice and with other notes, among days without flow. *)
Definition three_days_shuffled : list DayLog :=
  [mkDayLog (mkDate 2024 1 3) Heavy "cramps";
   mkDayLog (mkDate 2023 12 30) FlowNone "";
   mkDayLog (mkDate 2024 1 1) Medium "";
   mkDayLog (mkDate 2024 1 3) Light "again";
   mkDayLog (mkDate 2024 1 2) Light ""].

(** Flow on five days in three runs. *)
Definition five_days : list DayLog :=
  [Examples.flow 2024 1 1; Examples.flow 2024 1 3; Examples.flow 2024 1 6;
   Examples.flow 2024 2 1; Examples.flow 2024 2 29].

End MoreExamples.

Module Invariants.

Import Prediction Spec.
Local Open Scope Z_scope.

(** What the runs of a strictly ascending list of existing dates look
    like. *)
Record good_runs (rs : list run) : Prop := {
  runs_not_nil : Forall (fun r => r <> []) rs;
  runs_sorted : StronglySorted date_lt (concat rs);
  runs_valid : Forall valid_date (concat rs);
  runs_apart : runs_separated rs
}.

(** Two cycles in ascending order of start, at least 3 days apart. *)
Definition well_apart (c1 c2 : Cycle) : Prop :=
  by_start c1 c2 = Lt /\ 3 <= daysBetween (start_date c1) (start_date c2).

End Invariants.


(** ** [cycleStats] *)

Module Stats.

Import Prediction.
Local Open Scope Z_scope.

(** The statistics object; [None] is JavaScript's [null]. *)
Record CycleStats : Type := mkStats {
  total_cycles : nat;
  avg_cycle_length : option float;
  avg_period_length : option float;
  shortest_cycle : option Z;
  longest_cycle : option Z;
  last_period_start : option date;
  last_period_end : option date
}.

(** [Math.min(...arr)] and [Math.max(...arr)] on a non-empty array of
    integers (on the empty array, which the caller excludes, they are the
    infinities). *)
Definition Math_min_all (arr : list Z) : Z :=
  match arr with
  | [] => 0
  | x :: rest => fold_left Z.min rest x
  end.

Definition Math_max_all (arr : list Z) : Z :=
  match arr with
  | [] => 0
  | x :: rest => fold_left Z.max rest x
  end.

(** [cycleStats(cycles)] *)
Definition cycleStats (cycles : list Cycle) : CycleStats :=
  let completed := sort by_start (filter is_closed cycles) in
  if (length completed =? 0)%nat then
    mkStats 0 None None None None None None
  else
    let periodLengths := map period_length completed in
    let cycleLengths :=
      map (fun i => daysBetween (start_date (at_index completed (i - 1)))
                                (start_date (at_index completed i)))
          (seq 1 (length completed - 1)) in
    let last := at_index completed (length completed - 1) in
    mkStats
      (length completed)
      (if (length cycleLengths =? 0)%nat then None else Some (mean cycleLengths))
      (if (length periodLengths =? 0)%nat then None else Some (mean periodLengths))
      (if (length cycleLengths =? 0)%nat then None
       else Some (Math_min_all cycleLengths))
      (if (length cycleLengths =? 0)%nat then None
       else Some (Math_max_all cycleLengths))
      (Some (start_date last))
      (end_date last).

(** The test of the statistics screen:
    [stats.total_cycles >= 2 && stats.avg_cycle_length != null]. *)
Definition hasStats (stats : CycleStats) : bool :=
  (2 <=? total_cycles stats)%nat
  && match avg_cycle_length stats with Some _ => true | None => false end.

End Stats.


(* ================================================================== *)
(** * Encrypted storage *)
(* ================================================================== *)

Module Storage.

Import Crypto.

Definition DB_NAME : string := "cykel".
Definition STORE_NAME : string := "vault".
Definition DATA_KEY : string := "app_data".

(** The object store [vault] of the opened database: what each key
    holds.  Requests that fail ([req.onerror]) are not modelled. *)
Definition db : Type := string -> option bytes.

Definition empty_db : db := fun _ => None.

(** [dbGet(db, key)]: [undefined] ([None]) for a key that holds nothing. *)
Definition dbGet (d : db) (key : string) : option bytes := d key.

(** [dbPut(db, key, value)] *)
Definition dbPut (d : db) (key : string) (value : bytes) : db :=
  fun k => if String.eqb k key then Some value else d k.

(** [dbDelete(db, key)] *)
Definition dbDelete (d : db) (key : string) : db :=
  fun k => if String.eqb k key then None else d k.

(** What [load] can throw: [Error('No data found')], the error of
    [decrypt], or the [SyntaxError] of [JSON.parse]. *)
Inductive failure : Type :=
| NoDataFound
| DecryptFailed (e : error)
| JsonSyntaxError.

Inductive result (A : Type) : Type :=
| Ok (a : A)
| Thrown (e : failure).
Arguments Ok {A} a.
Arguments Thrown {A} e.

Section Vault.

Variable key : Type.
Variable pbkdf2 : string -> bytes -> key.
Variable aes_gcm_encrypt : key -> bytes -> bytes -> bytes.
Variable aes_gcm_decrypt : key -> bytes -> bytes -> option bytes.

(** The application data and its JSON form:
    [new TextEncoder().encode(JSON.stringify(appData))] and
    [JSON.parse(new TextDecoder().decode(bytes))], which throws ([None])
    on text that is not JSON.  Text that is JSON of another shape than
    the application data is outside the model: [save] never writes any. *)
Variable AppData : Type.
Variable stringify : AppData -> bytes.
Variable parse : bytes -> option AppData.

(** [dataExists()] *)
Definition dataExists (d : db) : bool :=
  match dbGet d DATA_KEY with
  | Some _ => true
  | None => false
  end.

(** [save(passphrase, appData)]; [salt] and [iv] are the random values
    drawn by [encrypt]. *)
Definition save (salt iv : bytes) (passphrase : string) (appData : AppData)
           (d : db) : db * result unit :=
  let json := stringify appData in
  match settled (Crypto.encrypt pbkdf2 aes_gcm_encrypt salt iv passphrase json) with
  | Resolved encrypted => (dbPut d DATA_KEY encrypted, Ok tt)
  | Rejected e => (d, Thrown (DecryptFailed e))
  end.

(** [load(passphrase)] *)
Definition load (passphrase : string) (d : db) : result AppData :=
  match dbGet d DATA_KEY with
  | None => Thrown NoDataFound
  | Some encrypted =>
      match settled (Crypto.decrypt pbkdf2 aes_gcm_decrypt passphrase encrypted) with
      | Rejected e => Thrown (DecryptFailed e)
      | Resolved decrypted =>
          match parse decrypted with
          | Some appData => Ok appData
          | None => Thrown JsonSyntaxError
          end
      end
  end.

(** [wipe()] *)
Definition wipe (d : db) : db := dbDelete d DATA_KEY.

End Vault.

Arguments save {key} pbkdf2 aes_gcm_encrypt {AppData} stringify
  salt iv passphrase appData d.
Arguments load {key} pbkdf2 aes_gcm_decrypt {AppData} parse passphrase d.

End Storage.


(* ================================================================== *)
(** * The application: session, unlock and day log handlers *)
(* ================================================================== *)

(** The handlers call [storage.save(passphrase, appData)] and take the
    value of [storage.load(pass)] as the application data: they are
    linked here with the storage module of that interface, embedded
    above. *)

Module App.

Import Prediction.
Local Open Scope Z_scope.

Record Symptom : Type := mkSymptom {
  symptom_date : date;
  symptom_type : string;
  severity : Z
}.

Record Settings : Type := mkSettings {
  auto_lock_minutes : Z;
  show_fertility : bool
}.

(** The application data; [settings = None] is data written before the
    settings existed. *)
Record AppData : Type := mkAppData {
  cycles : list Cycle;
  day_logs : list DayLog;
  symptoms : list Symptom;
  settings : option Settings
}.

(** [defaultAppData()] *)
Definition defaultAppData : AppData :=
  mkAppData [] [] [] (Some (mkSettings 5 false)).

(** ** The day log handler ([btn-save-day]) *)

(** Upsert: [day_logs.find(l => l.date === selectedDate)] and the update
    of the entry found, or the [push] of a new entry. *)
Fixpoint upsertDayLog (logs : list DayLog) (selectedDate : date)
         (selectedFlow : FlowLevel) (notes : string) : list DayLog :=
  match logs with
  | [] => [mkDayLog selectedDate selectedFlow notes]
  | l :: rest =>
      if date_eqb (log_date l) selectedDate
      then mkDayLog (log_date l) selectedFlow notes :: rest
      else l :: upsertDayLog rest selectedDate selectedFlow notes
  end.

(** [find]: the first entry of the date. *)
Definition findDayLog (logs : list DayLog) (d : date) : option DayLog :=
  find (fun l => date_eqb (log_date l) d) logs.

(** Replace the symptoms of the date by the selected ones, severity 2;
    [selectedSymptoms] is the [Set] in insertion order. *)
Definition replaceSymptoms (syms : list Symptom) (selectedDate : date)
           (selectedSymptoms : list string) : list Symptom :=
  filter (fun s => negb (date_eqb (symptom_date s) selectedDate)) syms
  ++ map (fun sym => mkSymptom selectedDate sym 2) selectedSymptoms.

(** The changes the handler makes to [appData]; [today] is the date read
    by [rebuildCycles]. *)
Definition saveDay (today : date) (selectedDate : date)
           (selectedFlow : FlowLevel) (notes : string)
           (selectedSymptoms : list string) (a : AppData) : AppData :=
  let logs := upsertDayLog (day_logs a) selectedDate selectedFlow notes in
  mkAppData (rebuildCycles today logs) logs
            (replaceSymptoms (symptoms a) selectedDate selectedSymptoms)
            (settings a).

(** ** Opening a day ([renderCalendar] and [openDayLog]) *)

(** [logMap]: the object filled by [day_logs.forEach(l => { logMap[l.date] = l; })];
    a later entry of a date overwrites an earlier one. *)
Definition logMap (logs : list DayLog) : date -> option DayLog :=
  fold_left (fun m l => fun k => if date_eqb k (log_date l) then Some l else m k)
            logs (fun _ => None).

(** [symptomMap[dateStr]]: the symptoms of the date in their order, or
    [undefined] ([None]) when there is none. *)
Definition symptomMap (syms : list Symptom) (d : date) : option (list Symptom) :=
  match filter (fun s => date_eqb (symptom_date s) d) syms with
  | [] => None
  | l => Some l
  end.

(** [Set.add] on a [Set] kept in insertion order. *)
Definition set_add (x : string) (s : list string) : list string :=
  if existsb (String.eqb x) s then s else s ++ [x].

(** The module variables that the day screen edits. *)
Record dayForm : Type := mkDayForm {
  selectedDate : option date;
  selectedFlow : FlowLevel;
  selectedSymptoms : list string;
  notesValue : string
}.

(** [openDayLog(dateStr, existingLog, existingSymptoms)] *)
Definition openDayLog (dateStr : date) (existingLog : option DayLog)
           (existingSymptoms : option (list Symptom)) : dayForm :=
  mkDayForm
    (Some dateStr)
    (match existingLog with Some l => flow_level l | None => FlowNone end)
    (match existingSymptoms with
     | Some ss => fold_left (fun s x => set_add (symptom_type x) s) ss []
     | None => []
     end)
    (match existingLog with Some l => notes l | None => ""%string end).

(** The click on the calendar cell of [dateStr]:
    [openDayLog(dateStr, log, symptomMap[dateStr])]. *)
Definition cellClick (a : AppData) (dateStr : date) : dayForm :=
  openDayLog dateStr (logMap (day_logs a) dateStr)
             (symptomMap (symptoms a) dateStr).

(** ** Calendar navigation and the auto-lock stepper *)

(** [btn-prev-month] and [btn-next-month] on [(currentYear, currentMonth)]. *)
Definition prevMonth (ym : Z * Z) : Z * Z :=
  let '(y, m) := ym in
  let m' := m - 1 in
  if m' <? 1 then (y - 1, 12) else (y, m').

Definition nextMonth (ym : Z * Z) : Z * Z :=
  let '(y, m) := ym in
  let m' := m + 1 in
  if 12 <? m' then (y + 1, 1) else (y, m').

(** [autolock-down] and [autolock-up] on [autoLockMinutes]. *)
Definition autolockDown (minutes : Z) : Z :=
  if 1 <? minutes then minutes - 1 else minutes.

Definition autolockUp (minutes : Z) : Z :=
  if minutes <? 60 then minutes + 1 else minutes.

(** ** The session *)

(** The two module variables [passphrase] and [appData]; [None] is
    [null]. *)
Record session : Type := mkSession {
  passphrase : option string;
  appData : option AppData
}.

(** [doLock()], as far as the session goes. *)
Definition doLock (s : session) : session := mkSession None None.

Section Handlers.

Import Storage.

Variable key : Type.
Variable pbkdf2 : string -> Crypto.bytes -> key.
Variable aes_gcm_encrypt : key -> Crypto.bytes -> Crypto.bytes -> Crypto.bytes.
Variable aes_gcm_decrypt : key -> Crypto.bytes -> Crypto.bytes -> option Crypto.bytes.
Variable stringify : AppData -> Crypto.bytes.
Variable parse : Crypto.bytes -> option AppData.

(** [saveData()]: nothing is written unless both [passphrase] and
    [appData] are set ([!passphrase] also holds for the empty string). *)
Definition saveData (salt iv : Crypto.bytes) (s : session) (d : db)
  : db * result unit :=
  match passphrase s, appData s with
  | Some p, Some a =>
      if String.eqb p "" then (d, Ok tt)
      else save pbkdf2 aes_gcm_encrypt stringify salt iv p a d
  | _, _ => (d, Ok tt)
  end.

(** The click handler of [btn-setup]; the result is the session, the
    store and the text of [setup-error]. *)
Definition setupClick (salt iv : Crypto.bytes) (pass : string)
           (s : session) (d : db) : session * db * string :=
  let s' := mkSession (Some pass) (Some defaultAppData) in
  match saveData salt iv s' d with
  | (d', Ok _) => (s', d', ""%string)
  | (d', Thrown _) =>
      (mkSession None None, d', "Something went wrong. Try again."%string)
  end.

(** The click handler of [btn-unlock]; the result is the session, the
    store and the text of [unlock-error]. *)
Definition unlock (today : date) (salt iv : Crypto.bytes) (pass : string)
           (s : session) (d : db) : session * db * string :=
  if String.eqb pass "" then (s, d, ""%string)
  else
    match load pbkdf2 aes_gcm_decrypt parse pass d with
    | Thrown _ => (s, d, "Wrong passphrase"%string)
    | Ok loaded =>
        let withSettings :=
          match settings loaded with
          | Some _ => loaded
          | None => mkAppData (cycles loaded) (day_logs loaded)
                              (symptoms loaded) (settings defaultAppData)
          end in
        let rebuilt :=
          mkAppData (rebuildCycles today (day_logs withSettings))
                    (day_logs withSettings) (symptoms withSettings)
                    (settings withSettings) in
        let s' := mkSession (Some pass) (Some rebuilt) in
        match saveData salt iv s' d with
        | (d', Ok _) => (s', d', ""%string)
        | (d', Thrown _) => (s', d', "Wrong passphrase"%string)
        end
    end.

(** The click handler of [btn-save-day]; [selectedDate = None] is
    [null]. *)
Definition saveDayClick (today : date) (salt iv : Crypto.bytes)
           (selectedDate : option date) (selectedFlow : FlowLevel)
           (notes : string) (selectedSymptoms : list string)
           (s : session) (d : db) : session * db :=
  match selectedDate, appData s with
  | Some date, Some a =>
      let s' :=
        mkSession (passphrase s)
                  (Some (saveDay today date selectedFlow notes selectedSymptoms a)) in
      (s', fst (saveData salt iv s' d))
  | _, _ => (s, d)
  end.

(** The click handler of [btn-wipe], once both questions are confirmed. *)
Definition wipeClick (s : session) (d : db) : session * db :=
  (mkSession None None, wipe d).

End Handlers.

Arguments saveData {key} pbkdf2 aes_gcm_encrypt stringify salt iv s d.
Arguments setupClick {key} pbkdf2 aes_gcm_encrypt stringify salt iv pass s d.
Arguments unlock {key} pbkdf2 aes_gcm_encrypt aes_gcm_decrypt stringify parse
  today salt iv pass s d.
Arguments saveDayClick {key} pbkdf2 aes_gcm_encrypt stringify
  today salt iv selectedDate selectedFlow notes selectedSymptoms s d.

End App.

(* ================================================================== *)
(** * A reference serialiser

    A concrete, invertible encoding of the application data, in the
    place of [JSON.stringify] and [JSON.parse]: numbers in unary, lists
    and strings with their length in front.  It only shows that the
    assumption on the two functions can be met. *)
(* ================================================================== *)

Module RefJson.

Import Crypto Prediction App.

Definition parser (A : Type) : Type := bytes -> option (A * bytes).

Definition enc_nat (n : nat) : bytes := repeat x01 n ++ [x00].

Fixpoint dec_nat (b : bytes) : option (nat * bytes) :=
  match b with
  | [] => None
  | c :: rest =>
      if Byte.eqb c x00 then Some (O, rest)
      else match dec_nat rest with
           | Some (n, rest') => Some (S n, rest')
           | None => None
           end
  end.

Definition enc_Z (z : Z) : bytes :=
  (if (z <? 0)%Z then x01 else x00) :: enc_nat (Z.abs_nat z).

Definition dec_Z : parser Z := fun b =>
  match b with
  | [] => None
  | s :: rest =>
      match dec_nat rest with
      | Some (n, rest') =>
          Some (if Byte.eqb s x00 then Z.of_nat n else (- Z.of_nat n)%Z, rest')
      | None => None
      end
  end.

Definition enc_bool (b : bool) : bytes := [if b then x01 else x00].

Definition dec_bool : parser bool := fun b =>
  match b with
  | [] => None
  | c :: rest => Some (negb (Byte.eqb c x00), rest)
  end.

Section Combinators.

Variables A B : Type.

Definition enc_pair (ea : A -> bytes) (eb : B -> bytes) (p : A * B) : bytes :=
  ea (fst p) ++ eb (snd p).

Definition dec_pair (da : parser A) (db : parser B) : parser (A * B) := fun b =>
  match da b with
  | Some (x, rest) =>
      match db rest with
      | Some (y, rest') => Some ((x, y), rest')
      | None => None
      end
  | None => None
  end.

Definition enc_option (ea : A -> bytes) (o : option A) : bytes :=
  match o with
  | Some x => x01 :: ea x
  | None => [x00]
  end.

Definition dec_option (da : parser A) : parser (option A) := fun b =>
  match b with
  | [] => None
  | c :: rest =>
      if Byte.eqb c x00 then Some (None, rest)
      else match da rest with
           | Some (x, rest') => Some (Some x, rest')
           | None => None
           end
  end.

Definition enc_list (ea : A -> bytes) (l : list A) : bytes :=
  enc_nat (length l) ++ concat (map ea l).

Fixpoint dec_items (da : parser A) (n : nat) (b : bytes)
  : option (list A * bytes) :=
  match n with
  | O => Some ([], b)
  | S n' =>
      match da b with
      | Some (x, rest) =>
          match dec_items da n' rest with
          | Some (l, rest') => Some (x :: l, rest')
          | None => None
          end
      | None => None
      end
  end.

Definition dec_list (da : parser A) : parser (list A) := fun b =>
  match dec_nat b with
  | Some (n, rest) => dec_items da n rest
  | None => None
  end.

Definition dec_map (f : A -> B) (da : parser A) : parser B := fun b =>
  match da b with
  | Some (x, rest) => Some (f x, rest)
  | None => None
  end.

End Combinators.

Arguments enc_pair {A B} ea eb p.
Arguments dec_pair {A B} da db b.
Arguments enc_option {A} ea o.
Arguments dec_option {A} da b.
Arguments enc_list {A} ea l.
Arguments dec_items {A} da n b.
Arguments dec_list {A} da b.
Arguments dec_map {A B} f da b.

Definition enc_string (s : string) : bytes :=
  enc_list (fun c => [c]) (list_byte_of_string s).

Definition dec_byte : parser byte := fun b =>
  match b with
  | [] => None
  | c :: rest => Some (c, rest)
  end.

Definition dec_string : parser string :=
  dec_map string_of_list_byte (dec_list dec_byte).

Definition enc_date (d : date) : bytes :=
  enc_pair enc_Z (enc_pair enc_Z enc_Z) (year d, (month d, day d)).

Definition dec_date : parser date :=
  dec_map (fun t => mkDate (fst t) (fst (snd t)) (snd (snd t)))
          (dec_pair dec_Z (dec_pair dec_Z dec_Z)).

Definition enc_flow (f : FlowLevel) : bytes :=
  [match f with
   | FlowNone => x00 | Light => x01 | Medium => x02 | Heavy => x03
   end].

Definition dec_flow : parser FlowLevel := fun b =>
  match b with
  | [] => None
  | c :: rest =>
      Some (if Byte.eqb c x00 then FlowNone
            else if Byte.eqb c x01 then Light
            else if Byte.eqb c x02 then Medium
            else Heavy, rest)
  end.

Definition enc_daylog (l : DayLog) : bytes :=
  enc_pair enc_date (enc_pair enc_flow enc_string)
           (log_date l, (flow_level l, notes l)).

Definition dec_daylog : parser DayLog :=
  dec_map (fun t => mkDayLog (fst t) (fst (snd t)) (snd (snd t)))
          (dec_pair dec_date (dec_pair dec_flow dec_string)).

Definition enc_cycle (c : Cycle) : bytes :=
  enc_pair enc_date (enc_option enc_date) (start_date c, end_date c).

Definition dec_cycle : parser Cycle :=
  dec_map (fun t => mkCycle (fst t) (snd t))
          (dec_pair dec_date (dec_option dec_date)).

Definition enc_symptom (s : Symptom) : bytes :=
  enc_pair enc_date (enc_pair enc_string enc_Z)
           (symptom_date s, (symptom_type s, severity s)).

Definition dec_symptom : parser Symptom :=
  dec_map (fun t => mkSymptom (fst t) (fst (snd t)) (snd (snd t)))
          (dec_pair dec_date (dec_pair dec_string dec_Z)).

Definition enc_settings (s : Settings) : bytes :=
  enc_pair enc_Z enc_bool (auto_lock_minutes s, show_fertility s).

Definition dec_settings : parser Settings :=
  dec_map (fun t => mkSettings (fst t) (snd t)) (dec_pair dec_Z dec_bool).

Definition enc_appdata (a : AppData) : bytes :=
  enc_pair (enc_list enc_cycle)
    (enc_pair (enc_list enc_daylog)
       (enc_pair (enc_list enc_symptom) (enc_option enc_settings)))
    (cycles a, (day_logs a, (symptoms a, settings a))).

Definition dec_appdata : parser AppData :=
  dec_map (fun t => mkAppData (fst t) (fst (snd t)) (fst (snd (snd t)))
                              (snd (snd (snd t))))
    (dec_pair (dec_list dec_cycle)
       (dec_pair (dec_list dec_daylog)
          (dec_pair (dec_list dec_symptom) (dec_option dec_settings)))).

Definition stringify (a : AppData) : bytes := enc_appdata a.

(** Text with bytes left over is not accepted. *)
Definition parse (b : bytes) : option AppData :=
  match dec_appdata b with
  | Some (a, []) => Some a
  | _ => None
  end.

(** An encoder and a parser that undo each other, whatever follows. *)
Definition inverse {A : Type} (enc : A -> bytes) (dec : parser A) : Prop :=
  forall a rest, dec (enc a ++ rest) = Some (a, rest).

End RefJson.

Module SessionExamples.

Import Prediction App.
Local Open Scope Z_scope.

Definition today : date := mkDate 2024 3 1.

(** Data written by an older version: no settings, cycles not rebuilt. *)
Definition old_data : AppData := mkAppData [] Examples.three_days [] None.

(** The store after [save("correct horse", old_data)]. *)
Definition stored : Storage.db :=
  fst (Storage.save RefCipher.pbkdf2 RefCipher.aes_gcm_encrypt
         RefJson.stringify Examples.salt0 Examples.iv0
         "correct horse" old_data Storage.empty_db).

Definition locked : session := mkSession None None.

End SessionExamples.

(* ================================================================== *)
(** * How PBKDF2 reads the passphrase

    [deriveKey] imports the UTF-8 bytes of the passphrase as the key
    material of PBKDF2 with SHA-256, which runs HMAC-SHA-256 keyed by
    those bytes.  HMAC (RFC 2104) first brings its key to the block size
    of 64 bytes: a longer key is replaced by its hash, and the key is
    filled up with zero bytes.  The derived key is a function of this
    block and of the salt (the iteration count and the key length are
    fixed). *)
(* ================================================================== *)

Module Pbkdf2.

Import Crypto.

Definition HMAC_BLOCK : nat := 64.

Section KeyBlock.

Variable sha256 : bytes -> bytes.

Definition hmac_key_block (k : bytes) : bytes :=
  let k0 := if HMAC_BLOCK <? length k then sha256 k else k in
  k0 ++ repeat x00 (HMAC_BLOCK - length k0).

Variable key : Type.

(** The iterated HMAC of PBKDF2, from the key block and the salt. *)
Variable prf : bytes -> bytes -> key.

Definition pbkdf2 (passphrase : string) (salt : bytes) : key :=
  prf (hmac_key_block (list_byte_of_string passphrase)) salt.

End KeyBlock.

Arguments pbkdf2 sha256 {key} prf passphrase salt.

(** A passphrase followed by the character U+0000, which [TextEncoder]
    encodes as one zero byte. *)
Definition with_nul (passphrase : string) : string :=
  (passphrase ++ String Ascii.zero EmptyString)%string.

End Pbkdf2.

(** The reference cipher behind a key derivation of that shape: the key is
    the key block itself, and a stand-in takes the place of SHA-256. *)
Module RefPbkdf2.

Import Crypto.

Definition hash32 (k : bytes) : bytes := firstn 32 (k ++ repeat x00 32).

Definition prf (block salt : bytes) : RefCipher.key := string_of_list_byte block.

Definition pbkdf2 : string -> bytes -> RefCipher.key :=
  Pbkdf2.pbkdf2 hash32 prf.

Definition encrypt := Crypto.encrypt pbkdf2 RefCipher.aes_gcm_encrypt.
Definition decrypt := Crypto.decrypt pbkdf2 RefCipher.aes_gcm_decrypt.

End RefPbkdf2.

(* ================================================================== *)
(** * Properties of the vault codec *)
(* ================================================================== *)

Unset Implicit Arguments.

Section CodecProperties.

Import Crypto.
Local Open Scope async_scope.

Variable key : Type.
Variable pbkdf2 : string -> bytes -> key.
Variable aes_gcm_encrypt : key -> bytes -> bytes -> bytes.
Variable aes_gcm_decrypt : key -> bytes -> bytes -> option bytes.

(** AES-GCM decrypts what it encrypted under the same key and nonce. *)
Hypothesis aes_gcm_correct :
  forall k iv p, aes_gcm_decrypt k iv (aes_gcm_encrypt k iv p) = Some p.

(** The ciphertext is the payload plus the authentication tag: it is
    never shorter than the payload. *)
Hypothesis aes_gcm_length :
  forall k iv p, length p <= length (aes_gcm_encrypt k iv p).

Local Abbreviation encrypt := (Crypto.encrypt pbkdf2 aes_gcm_encrypt).
Local Abbreviation decrypt := (Crypto.decrypt pbkdf2 aes_gcm_decrypt).

Lemma MAGIC_length : length MAGIC = 8.
Proof. reflexivity. Qed.

Lemma header_length : SALT_LEN + IV_LEN + length MAGIC = 52.
Proof. reflexivity. Qed.

Lemma magic_matches_prefix (b : bytes) : magic_matches (MAGIC ++ b) = true.
Proof. reflexivity. Qed.

Lemma strip_magic (b : bytes) : slice_from (length MAGIC) (MAGIC ++ b) = b.
Proof. reflexivity. Qed.

Lemma slice_salt (salt rest : bytes) :
  length salt = SALT_LEN -> slice 0 SALT_LEN (salt ++ rest) = salt.
Proof.
  intros H. unfold slice. rewrite Nat.sub_0_r. cbn [skipn].
  rewrite <- H, firstn_app, Nat.sub_diag, firstn_all. cbn [firstn].
  apply app_nil_r.
Qed.

Lemma slice_iv (salt iv rest : bytes) :
  length salt = SALT_LEN -> length iv = IV_LEN ->
  slice SALT_LEN (SALT_LEN + IV_LEN) (salt ++ iv ++ rest) = iv.
Proof.
  intros Hs Hi. unfold slice.
  replace (SALT_LEN + IV_LEN - SALT_LEN) with (length iv) by lia.
  rewrite <- Hs, skipn_app, Nat.sub_diag, skipn_all. cbn [skipn app].
  rewrite firstn_app, Nat.sub_diag, firstn_all. cbn [firstn].
  apply app_nil_r.
Qed.

Lemma slice_ciphertext (salt iv rest : bytes) :
  length salt = SALT_LEN -> length iv = IV_LEN ->
  slice_from (SALT_LEN + IV_LEN) (salt ++ iv ++ rest) = rest.
Proof.
  intros Hs Hi. unfold slice_from.
  rewrite app_assoc.
  replace (SALT_LEN + IV_LEN) with (length (salt ++ iv))
    by (rewrite length_app; lia).
  rewrite skipn_app, Nat.sub_diag, skipn_all. reflexivity.
Qed.

(** What [decrypt] does on a well-formed envelope: one key derivation,
    one AES-GCM decryption, and a result that only depends on what
    AES-GCM returned. *)
Lemma decrypt_envelope (passphrase : string) (salt iv ct : bytes) :
  length salt = SALT_LEN -> length iv = IV_LEN -> length MAGIC <= length ct ->
  decrypt passphrase (salt ++ iv ++ ct) =
  ([CallDeriveKey; CallDecrypt],
   match aes_gcm_decrypt (pbkdf2 passphrase salt) iv ct with
   | None => Rejected WrongPassphrase
   | Some d =>
       if magic_matches d then Resolved (slice_from (length MAGIC) d)
       else Rejected WrongPassphrase
   end).
Proof.
  intros Hs Hi Hc. unfold Crypto.decrypt.
  assert (Hlen : (length (salt ++ iv ++ ct) <? SALT_LEN + IV_LEN + length MAGIC)
                 = false).
  { apply Nat.ltb_ge. rewrite !length_app. lia. }
  rewrite Hlen, slice_salt, slice_iv, slice_ciphertext by assumption.
  unfold deriveKey, subtle_decrypt, catch_throw, bind, issue, ret, throw.
  destruct (aes_gcm_decrypt (pbkdf2 passphrase salt) iv ct) as [d|];
    [destruct (magic_matches d)|]; reflexivity.
Qed.

Lemma encrypt_envelope (salt iv : bytes) (passphrase : string) (b : bytes) :
  encrypt salt iv passphrase b =
  ([CallDeriveKey; CallEncrypt],
   Resolved (salt ++ iv ++
             aes_gcm_encrypt (pbkdf2 passphrase salt) iv (MAGIC ++ b))).
Proof. reflexivity. Qed.

Lemma ciphertext_length (k : key) (iv b : bytes) :
  length MAGIC <= length (aes_gcm_encrypt k iv (MAGIC ++ b)).
Proof.
  pose proof (aes_gcm_length k iv (MAGIC ++ b)) as H.
  rewrite length_app in H. lia.
Qed.

(** C1 (round trip).  For every passphrase and every plaintext, and
    whatever salt (32 bytes) and nonce (12 bytes) the random generator
    produced, decrypting the envelope made by [encrypt] with the same
    passphrase resolves to exactly the plaintext: [encrypt] prepends the
    8-byte marker, [decrypt] verifies and strips it. *)
Theorem decrypt_encrypt_roundtrip :
  forall (salt iv : bytes) (passphrase : string) (plaintext : bytes),
    length salt = SALT_LEN -> length iv = IV_LEN ->
    settled (envelope <- encrypt salt iv passphrase plaintext ;;
             decrypt passphrase envelope)
    = Resolved plaintext.
Proof.
  intros salt iv passphrase plaintext Hs Hi.
  rewrite encrypt_envelope. unfold bind.
  rewrite decrypt_envelope by (assumption || apply ciphertext_length).
  cbn [settled snd].
  rewrite aes_gcm_correct, magic_matches_prefix, strip_magic.
  reflexivity.
Qed.

(** C3 (truncated envelope).  An envelope shorter than
    [SALT_LEN + IV_LEN + MAGIC.length = 32 + 12 + 8 = 52] bytes is rejected
    with [CorruptData] without a single call into the Web Crypto API (no
    key derivation, no decryption); in particular an envelope shorter than
    44 bytes is, whatever the passphrase. *)
Theorem decrypt_truncated :
  forall (passphrase : string) (envelope : bytes),
    length envelope < SALT_LEN + IV_LEN + length MAGIC ->
    SALT_LEN + IV_LEN + length MAGIC = 32 + 12 + 8
    /\ settled (decrypt passphrase envelope) = Rejected CorruptData
    /\ calls (decrypt passphrase envelope) = []
    /\ (length envelope < 44 ->
        forall p, decrypt p envelope = ([], Rejected CorruptData)).
Proof.
  intros passphrase envelope Hlen.
  assert (Hcut : forall p, decrypt p envelope = ([], Rejected CorruptData)).
  { intros p. unfold Crypto.decrypt.
    apply Nat.ltb_lt in Hlen. rewrite Hlen. reflexivity. }
  repeat split.
  - rewrite Hcut. reflexivity.
  - rewrite Hcut. reflexivity.
  - intros _ p. apply Hcut.
Qed.

End CodecProperties.

(** ** The reference cipher meets the assumptions on the primitives *)

Section RefCipherProperties.

Import Crypto.

Lemma strip_frame (k p : bytes) : RefCipher.strip k (RefCipher.frame k ++ p) = Some p.
Proof.
  induction k as [|b k IH]; cbn.
  - reflexivity.
  - rewrite (Byte.byte_dec_lb (eq_refl b)). exact IH.
Qed.

Lemma strip_frame_other (k k' p : bytes) :
  k <> k' -> RefCipher.strip k' (RefCipher.frame k ++ p) = None.
Proof.
  revert k'. induction k as [|b k IH]; intros [|b' k'] Hne; cbn.
  - congruence.
  - destruct p; reflexivity.
  - reflexivity.
  - destruct (Byte.eqb b' b) eqn:E; [|reflexivity].
    apply Byte.byte_dec_bl in E. subst b'.
    apply IH. congruence.
Qed.

Lemma ref_correct (k : RefCipher.key) (iv p : bytes) :
  RefCipher.aes_gcm_decrypt k iv (RefCipher.aes_gcm_encrypt k iv p) = Some p.
Proof. apply strip_frame. Qed.

Lemma ref_length (k : RefCipher.key) (iv p : bytes) :
  length p <= length (RefCipher.aes_gcm_encrypt k iv p).
Proof. unfold RefCipher.aes_gcm_encrypt. rewrite length_app. lia. Qed.

End RefCipherProperties.

Lemma decrypt_encrypt_roundtrip_witness :
  Crypto.settled
    (Crypto.bind (RefCipher.encrypt Examples.salt0 Examples.iv0 "correct horse" Examples.hello)
                 (RefCipher.decrypt "correct horse"))
  = Crypto.Resolved Examples.hello.
Proof.
  apply (@decrypt_encrypt_roundtrip
           RefCipher.key RefCipher.pbkdf2
           RefCipher.aes_gcm_encrypt RefCipher.aes_gcm_decrypt
           ref_correct ref_length Examples.salt0 Examples.iv0 "correct horse"%string Examples.hello);
    reflexivity.
Defined.

Lemma decrypt_truncated_witness :
  Crypto.decrypt RefCipher.pbkdf2 RefCipher.aes_gcm_decrypt
                 "correct horse" (Examples.salt0 ++ [x00; x01])
  = ([], Crypto.Rejected Crypto.CorruptData).
Proof.
  refine (proj2 (proj2 (proj2
            (@decrypt_truncated
               RefCipher.key RefCipher.pbkdf2 RefCipher.aes_gcm_decrypt
               "correct horse"%string (Examples.salt0 ++ [x00; x01]) _))) _ _).
  - cbv. lia.
  - cbv. lia.
Defined.

(* ================================================================== *)
(** * Properties of the prediction engine *)
(* ================================================================== *)

(** ** The stable sort *)

Section SortFacts.

Import Prediction Spec.

Variable A : Type.
Variable cmp : A -> A -> comparison.

Hypothesis cmp_gt_le : forall x y, cmp x y = Gt -> cmp_le cmp y x.
Hypothesis cmp_le_trans : forall x y z, cmp_le cmp x y -> cmp_le cmp y z -> cmp_le cmp x z.

Lemma insert_perm (x : A) (l : list A) : Permutation (x :: l) (insert cmp x l).
Proof.
  induction l as [|y l IH]; cbn.
  - reflexivity.
  - destruct (cmp x y); try reflexivity.
    rewrite perm_swap. constructor. exact IH.
Qed.

Lemma sort_perm (l : list A) : Permutation l (sort cmp l).
Proof.
  induction l as [|x l IH]; cbn.
  - constructor.
  - rewrite <- insert_perm. constructor. exact IH.
Qed.

Lemma sort_length (l : list A) : length (sort cmp l) = length l.
Proof. symmetry. apply Permutation_length, sort_perm. Qed.

Lemma sort_In (l : list A) (x : A) : In x (sort cmp l) <-> In x l.
Proof.
  split; intros H.
  - eapply Permutation_in; [apply Permutation_sym, sort_perm | exact H].
  - eapply Permutation_in; [apply sort_perm | exact H].
Qed.

Lemma insert_sorted (x : A) (l : list A) :
  StronglySorted (cmp_le cmp) l -> StronglySorted (cmp_le cmp) (insert cmp x l).
Proof.
  induction 1 as [|y l Hs IH Hall]; cbn.
  - repeat constructor.
  - destruct (cmp x y) eqn:E.
    + constructor; [constructor; assumption|].
      assert (Hxy : cmp_le cmp x y) by (unfold cmp_le; congruence).
      constructor; [exact Hxy|].
      eapply Forall_impl; [|exact Hall]. intros z Hz. eauto.
    + constructor; [constructor; assumption|].
      assert (Hxy : cmp_le cmp x y) by (unfold cmp_le; congruence).
      constructor; [exact Hxy|].
      eapply Forall_impl; [|exact Hall]. intros z Hz. eauto.
    + constructor; [exact IH|].
      eapply Permutation_Forall; [apply insert_perm|].
      constructor; [apply cmp_gt_le; exact E | exact Hall].
Qed.

Lemma sort_sorted (l : list A) : StronglySorted (cmp_le cmp) (sort cmp l).
Proof.
  induction l as [|x l IH]; cbn.
  - constructor.
  - apply insert_sorted, IH.
Qed.

End SortFacts.

(** ** The order on date strings *)

Section DateOrder.

Import Prediction Spec.
Local Open Scope Z_scope.

Lemma date_compare_eq (a b : date) : date_compare a b = Eq <-> a = b.
Proof.
  destruct a as [y m d], b as [y' m' d']. unfold date_compare. cbn.
  split.
  - destruct (y ?= y') eqn:Ey; try discriminate.
    destruct (m ?= m') eqn:Em; try discriminate.
    intros Ed.
    apply Z.compare_eq in Ey, Em, Ed. congruence.
  - intros H. injection H as -> -> ->. now rewrite !Z.compare_refl.
Qed.

Lemma date_eqb_eq (a b : date) : date_eqb a b = true <-> a = b.
Proof.
  unfold date_eqb. rewrite <- date_compare_eq.
  destruct (date_compare a b); split; congruence.
Qed.

Lemma date_compare_lt (a b : date) :
  date_compare a b = Lt <->
  year a < year b \/
  (year a = year b /\ (month a < month b \/ (month a = month b /\ day a < day b))).
Proof.
  destruct a as [y m d], b as [y' m' d']. unfold date_compare. cbn.
  destruct (Z.compare_spec y y'), (Z.compare_spec m m'), (Z.compare_spec d d');
    split; intros HH; try discriminate; try reflexivity; lia.
Qed.

Lemma date_compare_gt (a b : date) :
  date_compare a b = Gt <-> date_compare b a = Lt.
Proof.
  rewrite date_compare_lt.
  destruct a as [y m d], b as [y' m' d']. unfold date_compare. cbn.
  destruct (Z.compare_spec y y'), (Z.compare_spec m m'), (Z.compare_spec d d');
    split; intros HH; try discriminate; try reflexivity; lia.
Qed.

Lemma date_le_cases (a b : date) :
  cmp_le date_compare a b <-> date_compare a b = Lt \/ a = b.
Proof.
  unfold cmp_le. rewrite <- date_compare_eq.
  destruct (date_compare a b); split; intros H; try congruence; auto.
  destruct H; discriminate.
Qed.

Lemma date_lt_trans (a b c : date) :
  date_compare a b = Lt -> date_compare b c = Lt -> date_compare a c = Lt.
Proof. rewrite !date_compare_lt. lia. Qed.

Lemma date_gt_le (a b : date) :
  date_compare a b = Gt -> cmp_le date_compare b a.
Proof.
  intros H. apply date_compare_gt in H. unfold cmp_le. congruence.
Qed.

Lemma date_le_trans (a b c : date) :
  cmp_le date_compare a b -> cmp_le date_compare b c ->
  cmp_le date_compare a c.
Proof.
  rewrite !date_le_cases.
  intros [H1 | ->] [H2 | ->]; auto.
  left. eapply date_lt_trans; eassumption.
Qed.

Lemma by_start_gt_le (a b : Cycle) :
  by_start a b = Gt -> cmp_le by_start b a.
Proof. apply date_gt_le. Qed.

Lemma by_start_le_trans (a b c : Cycle) :
  cmp_le by_start a b -> cmp_le by_start b c -> cmp_le by_start a c.
Proof. apply date_le_trans. Qed.

(** Removing duplicates from a sorted list leaves it strictly
    increasing, with the same elements. *)
Lemma dedupe_In (l : list date) (x : date) : In x (dedupe l) <-> In x l.
Proof.
  induction l as [|y l IH]; cbn; [tauto|].
  rewrite filter_In, IH.
  destruct (date_eqb y x) eqn:E.
  - apply date_eqb_eq in E. subst. cbn. intuition congruence.
  - cbn. intuition.
Qed.

Lemma filter_sorted {A} (R : A -> A -> Prop) (f : A -> bool) (l : list A) :
  StronglySorted R l -> StronglySorted R (filter f l).
Proof.
  induction 1 as [|x l Hs IH Hall]; cbn; [constructor|].
  destruct (f x); [|exact IH].
  constructor; [exact IH|].
  apply Forall_forall. intros y Hy. apply filter_In in Hy.
  rewrite Forall_forall in Hall. apply Hall. tauto.
Qed.

Lemma dedupe_sorted (l : list date) :
  StronglySorted (cmp_le date_compare) l ->
  StronglySorted (fun a b => date_compare a b = Lt) (dedupe l).
Proof.
  induction 1 as [|x l Hs IH Hall]; cbn; [constructor|].
  constructor.
  - apply filter_sorted, IH.
  - apply Forall_forall. intros y Hy.
    apply filter_In in Hy. destruct Hy as [Hy Hne].
    apply (proj1 (dedupe_In _ _)) in Hy.
    rewrite Forall_forall in Hall. specialize (Hall y Hy).
    apply date_le_cases in Hall. destruct Hall as [Hlt | ->]; [exact Hlt|].
    rewrite (proj2 (date_eqb_eq y y) eq_refl) in Hne. discriminate.
Qed.

Lemma flow_dates_sorted (dayLogs : list DayLog) :
  StronglySorted (fun a b => date_compare a b = Lt) (flow_dates dayLogs).
Proof.
  apply dedupe_sorted, sort_sorted.
  - apply date_gt_le.
  - apply date_le_trans.
Qed.

Lemma flow_dates_In (dayLogs : list DayLog) (d : date) :
  In d (flow_dates dayLogs) <->
  exists l, In l dayLogs /\ flow_level l <> FlowNone /\ log_date l = d.
Proof.
  unfold flow_dates. rewrite dedupe_In, sort_In, in_map_iff.
  split.
  - intros (l & Hd & Hl). apply filter_In in Hl. destruct Hl as [Hl Hf].
    exists l. repeat split; auto.
    intros E. rewrite E in Hf. discriminate.
  - intros (l & Hl & Hf & Hd). exists l. split; [exact Hd|].
    apply filter_In. split; [exact Hl|].
    destruct (flow_level l); [congruence | reflexivity..].
Qed.

End DateOrder.

(** ** The calendar *)

Section Calendar.

Import Prediction Spec.
Local Open Scope Z_scope.

Lemma div_step (k y : Z) :
  0 < k -> y / k = (y - 1) / k + (if y mod k =? 0 then 1 else 0).
Proof.
  intros Hk.
  pose proof (Z.div_mod y k ltac:(lia)) as E1.
  pose proof (Z.mod_pos_bound y k Hk) as B1.
  destruct (Z.eqb_spec (y mod k) 0) as [E|E].
  - assert (H : (y - 1) / k = y / k - 1)
      by (symmetry; apply Z.div_unique with (r := k - 1); nia).
    lia.
  - assert (H : (y - 1) / k = y / k)
      by (symmetry; apply Z.div_unique with (r := y mod k - 1); nia).
    lia.
Qed.

Lemma mod_factor (a b c : Z) :
  0 < b -> 0 < c -> a mod (b * c) = 0 -> a mod b = 0.
Proof.
  intros Hb Hc H. rewrite Z.rem_mul_r in H by lia.
  pose proof (Z.mod_pos_bound a b Hb).
  pose proof (Z.mod_pos_bound (a / b) c Hc).
  nia.
Qed.

Lemma leap_day_range (y : Z) : 0 <= leap_day y <= 1.
Proof. unfold leap_day. destruct (leap_year y); lia. Qed.

(** A year has 365 days, or 366 when it is a leap year. *)
Lemma days_before_year_succ (y : Z) :
  days_before_year (y + 1) = days_before_year y + 365 + leap_day y.
Proof.
  unfold days_before_year, leaps_before, leap_day, leap_year.
  replace (y + 1 - 1) with y by lia.
  rewrite (div_step 4 y), (div_step 100 y), (div_step 400 y) by lia.
  pose proof (mod_factor y 4 25 ltac:(lia) ltac:(lia)) as H4.
  pose proof (mod_factor y 100 4 ltac:(lia) ltac:(lia)) as H100.
  change (4 * 25) with 100 in H4. change (100 * 4) with 400 in H100.
  destruct (Z.eqb_spec (y mod 4) 0), (Z.eqb_spec (y mod 100) 0),
    (Z.eqb_spec (y mod 400) 0); cbn [andb orb negb]; lia.
Qed.

Lemma days_before_year_mono (y n : Z) :
  0 <= n -> days_before_year y + 365 * n <= days_before_year (y + n).
Proof.
  intros Hn. pattern n. apply natlike_ind; [| |exact Hn]; cbv beta.
  - replace (y + 0) with y by lia. lia.
  - intros k Hk IH.
    replace (y + Z.succ k) with (y + k + 1) by lia.
    rewrite days_before_year_succ.
    pose proof (leap_day_range (y + k)). lia.
Qed.

Lemma month_cases (m : Z) :
  1 <= m <= 12 ->
  m = 1 \/ m = 2 \/ m = 3 \/ m = 4 \/ m = 5 \/ m = 6 \/
  m = 7 \/ m = 8 \/ m = 9 \/ m = 10 \/ m = 11 \/ m = 12.
Proof. lia. Qed.

Ltac each_month H :=
  destruct (month_cases _ H) as
    [->|[->|[->|[->|[->|[->|[->|[->|[->|[->|[->| ->]]]]]]]]]]].

(** The months of a year follow one another without gap or overlap. *)
Lemma days_before_month_succ (y m : Z) :
  1 <= m <= 11 ->
  days_before_month y (m + 1) = days_before_month y m + days_in_month y m.
Proof.
  intros Hm. assert (Hm' : 1 <= m <= 12) by lia.
  unfold days_before_month, days_in_month.
  each_month Hm'; try lia; destruct (leap_year y); reflexivity.
Qed.

Lemma days_in_month_pos (y m : Z) : 28 <= days_in_month y m <= 31.
Proof.
  unfold days_in_month.
  destruct (m =? 2); [destruct (leap_year y); lia|].
  destruct ((m =? 4) || (m =? 6) || (m =? 9) || (m =? 11)); lia.
Qed.

Lemma days_before_month_mono (y m n : Z) :
  1 <= m -> 0 <= n -> m + n <= 12 ->
  days_before_month y m + 28 * n <= days_before_month y (m + n).
Proof.
  intros Hm Hn. pattern n. apply natlike_ind; [| |exact Hn]; cbv beta.
  - replace (m + 0) with m by lia. lia.
  - intros k Hk IH Hle.
    replace (m + Z.succ k) with (m + k + 1) by lia.
    rewrite days_before_month_succ by lia.
    pose proof (days_in_month_pos y (m + k)). lia.
Qed.

Lemma days_before_month_range (y m : Z) :
  1 <= m <= 12 ->
  0 <= days_before_month y m /\
  days_before_month y m + days_in_month y m <= 365 + leap_day y.
Proof.
  intros Hm. unfold days_before_month, days_in_month, leap_day.
  each_month Hm; destruct (leap_year y); cbv -[Z.le]; lia.
Qed.

(** On a date that exists, [parseDate] needs no normalisation. *)
Lemma parseDate_valid (d : date) :
  1 <= month d <= 12 ->
  parseDate d
  = days_before_year (year d) + days_before_month (year d) (month d)
    + (day d - 1).
Proof.
  intros Hm. unfold parseDate, days_from_civil.
  assert (H0 : (month d - 1) / 12 = 0) by (apply Z.div_small; lia).
  assert (H1 : (month d - 1) mod 12 = month d - 1) by (apply Z.mod_small; lia).
  rewrite H0, H1.
  replace (year d + 0) with (year d) by lia.
  replace (month d - 1 + 1) with (month d) by lia.
  lia.
Qed.

(** On dates that exist, the order on date strings is the order of time. *)
Lemma parseDate_mono (a b : date) :
  valid_date a -> valid_date b ->
  date_compare a b = Lt -> parseDate a < parseDate b.
Proof.
  intros [Hma Hda] [Hmb Hdb] Hlt.
  rewrite !parseDate_valid by assumption.
  apply date_compare_lt in Hlt.
  destruct Hlt as [Hy | [Hy [Hm | [Hm Hd]]]].
  - pose proof (days_before_year_mono (year a + 1) (year b - (year a + 1))
                  ltac:(lia)) as Hyear.
    replace (year a + 1 + (year b - (year a + 1))) with (year b) in Hyear by lia.
    rewrite days_before_year_succ in Hyear.
    pose proof (days_before_month_range (year a) _ Hma).
    pose proof (days_before_month_range (year b) _ Hmb).
    lia.
  - rewrite <- Hy in *.
    pose proof (days_before_month_mono (year a) (month a + 1)
                  (month b - (month a + 1)) ltac:(lia) ltac:(lia) ltac:(lia))
      as Hmonth.
    replace (month a + 1 + (month b - (month a + 1))) with (month b)
      in Hmonth by lia.
    rewrite days_before_month_succ in Hmonth by lia.
    lia.
  - rewrite <- Hy, <- Hm in *. lia.
Qed.

(** Formatting and parsing agree on every day from 2000-01-01 to
    2049-12-31. *)
Lemma parse_fmt_range : roundtrips 18263 10957 = true.
Proof. vm_compute. reflexivity. Qed.

End Calendar.

(** ** Runs of flow dates *)

Section Runs.

Import Prediction Spec.
Local Open Scope Z_scope.

Lemma run_end_snoc (r : run) (d : date) : run_end (r ++ [d]) = d.
Proof. unfold run_end. apply last_last. Qed.

Lemma run_start_app (r tl : run) : r <> [] -> run_start (r ++ tl) = run_start r.
Proof. destruct r; [congruence | reflexivity]. Qed.

Lemma snoc_not_nil (r : run) (d : date) : r ++ [d] <> [].
Proof. destruct r; discriminate. Qed.

Lemma runs_from_head (ds : list date) (r : run) (e : date) :
  exists tl rest, runs_from r e ds = (r ++ tl) :: rest.
Proof.
  revert r e. induction ds as [|d ds IH]; intros r e; cbn.
  - exists [], []. now rewrite app_nil_r.
  - destruct (within_daysb 2 e d).
    + destruct (IH (r ++ [d]) d) as (tl & rest & E).
      exists (d :: tl), rest. rewrite E, <- app_assoc. reflexivity.
    + exists [], (runs_from [d] d ds). now rewrite app_nil_r.
Qed.

Lemma runs_from_not_nil (ds : list date) (r : run) (e : date) :
  runs_from r e ds <> [].
Proof. destruct (runs_from_head ds r e) as (tl & rest & ->). discriminate. Qed.

Lemma runs_from_concat (ds : list date) (r : run) (e : date) :
  concat (runs_from r e ds) = r ++ ds.
Proof.
  revert r e. induction ds as [|d ds IH]; intros r e; cbn.
  - reflexivity.
  - destruct (within_daysb 2 e d); cbn.
    + rewrite IH, <- app_assoc. reflexivity.
    + rewrite IH. reflexivity.
Qed.

Lemma runs_from_runs_not_nil (ds : list date) (r : run) (e : date) :
  r <> [] -> Forall (fun r' => r' <> []) (runs_from r e ds).
Proof.
  revert r e. induction ds as [|d ds IH]; intros r e Hr; cbn.
  - repeat constructor. exact Hr.
  - destruct (within_daysb 2 e d).
    + apply IH, snoc_not_nil.
    + constructor; [exact Hr|]. apply IH. discriminate.
Qed.

Lemma consecutive_diffs_snoc (r : run) (d : date) :
  r <> [] ->
  consecutive_diffs (r ++ [d])
  = consecutive_diffs r ++ [daysBetween (run_end r) d].
Proof.
  induction r as [|a r IH]; intros Hr; [congruence|].
  destruct r as [|b r].
  - reflexivity.
  - change (consecutive_diffs ((a :: b :: r) ++ [d]))
      with (daysBetween a b :: consecutive_diffs ((b :: r) ++ [d])).
    rewrite IH by discriminate. reflexivity.
Qed.

Lemma within_daysb_spec (n : Z) (a b : date) :
  within_daysb n a b = true <-> within_days n a b.
Proof. unfold within_daysb, within_days. apply Z.leb_le. Qed.

Lemma runs_from_connected (ds : list date) (r : run) (e : date) :
  r <> [] -> run_end r = e -> run_connected r ->
  Forall run_connected (runs_from r e ds).
Proof.
  revert r e. induction ds as [|d ds IH]; intros r e Hr He Hc; cbn.
  - repeat constructor. exact Hc.
  - destruct (within_daysb 2 e d) eqn:E.
    + apply IH; [apply snoc_not_nil | apply run_end_snoc |].
      unfold run_connected. rewrite consecutive_diffs_snoc by exact Hr.
      apply Forall_app. split; [exact Hc|].
      constructor; [|constructor].
      rewrite He. apply within_daysb_spec in E. exact E.
    + constructor; [exact Hc|].
      apply IH; [discriminate | reflexivity | constructor].
Qed.

Lemma runs_from_separated (ds : list date) (r : run) (e : date) :
  r <> [] -> run_end r = e -> runs_separated (runs_from r e ds).
Proof.
  revert r e. induction ds as [|d ds IH]; intros r e Hr He; cbn.
  - exact I.
  - destruct (within_daysb 2 e d) eqn:E.
    + apply IH; [apply snoc_not_nil | apply run_end_snoc].
    + pose proof (IH [d] d ltac:(discriminate) eq_refl) as Hsep.
      destruct (runs_from_head ds [d] d) as (tl & rest & Eq).
      rewrite Eq in *. split; [|exact Hsep].
      rewrite He. change (run_start ([d] ++ tl)) with d.
      intros Hw. apply within_daysb_spec in Hw. congruence.
Qed.

End Runs.

(** ** [rebuildCycles] and the runs *)

Section Rebuild.

Import Prediction Spec.
Local Open Scope Z_scope.

(** Between dates that exist and are in ascending order, the loop's test
    [gap <= 2] is the test "within 2 days". *)
Lemma gap_test (e d : date) :
  valid_date e -> valid_date d -> date_lt e d ->
  (daysBetween e d <=? 2) = within_daysb 2 e d.
Proof.
  intros He Hd Hlt. unfold within_daysb.
  pose proof (parseDate_mono e d He Hd Hlt) as Hmono.
  unfold daysBetween. rewrite Z.abs_eq by lia. reflexivity.
Qed.

Lemma rebuild_loop (ds : list date) :
  forall (cycles : list Cycle) (r : run) (e : date),
    r <> [] -> run_end r = e ->
    StronglySorted date_lt (e :: ds) -> Forall valid_date (e :: ds) ->
    fold_left rebuild_step ds (cycles, run_start r, e)
    = (cycles ++ map closed_cycle (removelast (runs_from r e ds)),
       run_start (last (runs_from r e ds) []),
       run_end (last (runs_from r e ds) [])).
Proof.
  induction ds as [|d ds IH]; intros cycles r e Hr He Hsort Hvalid.
  - cbn [fold_left runs_from removelast last map].
    rewrite app_nil_r, He. reflexivity.
  - apply StronglySorted_inv in Hsort. destruct Hsort as [Hsort Hall].
    apply Forall_inv in Hall.
    pose proof (Forall_inv Hvalid) as Hve.
    pose proof (Forall_inv_tail Hvalid) as Hvds.
    pose proof (Forall_inv Hvds) as Hvd.
    cbn [fold_left runs_from]. unfold rebuild_step at 2.
    rewrite (gap_test e d Hve Hvd Hall).
    destruct (within_daysb 2 e d).
    + rewrite <- (run_start_app r [d] Hr).
      apply IH; auto using snoc_not_nil, run_end_snoc.
    + change d with (run_start [d]) at 1.
      rewrite IH by (auto; discriminate).
      pose proof (runs_from_not_nil ds [d] d) as Hne.
      destruct (runs_from [d] d ds) as [|r' rs'] eqn:E; [congruence|].
      change (removelast (r :: r' :: rs')) with (r :: removelast (r' :: rs')).
      change (last (r :: r' :: rs') []) with (last (r' :: rs') []).
      cbn [map]. rewrite <- app_assoc. cbn [app].
      unfold closed_cycle at 2. rewrite He. reflexivity.
Qed.

Lemma flow_dates_valid (dayLogs : list DayLog) :
  (forall l, In l dayLogs -> flow_level l <> FlowNone -> valid_date (log_date l)) ->
  Forall valid_date (flow_dates dayLogs).
Proof.
  intros H. apply Forall_forall. intros d Hd.
  apply flow_dates_In in Hd. destruct Hd as (l & Hl & Hf & <-). auto.
Qed.

(** The loop of [rebuildCycles] computes the greedy runs of the distinct
    flow dates; every run but the last is pushed as a closed cycle, the
    last one as the final cycle. *)
Lemma rebuildCycles_runs (today : date) (dayLogs : list DayLog) :
  (forall l, In l dayLogs -> flow_level l <> FlowNone -> valid_date (log_date l)) ->
  rebuildCycles today dayLogs
  = cycles_of_runs today (group_runs (flow_dates dayLogs)).
Proof.
  intros Hvalid.
  pose proof (flow_dates_sorted dayLogs) as Hsort.
  pose proof (flow_dates_valid dayLogs Hvalid) as Hv.
  unfold rebuildCycles. fold (flow_dates dayLogs).
  destruct (flow_dates dayLogs) as [|u0 rest]; [reflexivity|].
  cbn [group_runs].
  change u0 with (run_start [u0]) at 1.
  rewrite (rebuild_loop rest [] [u0] u0) by (auto; discriminate).
  pose proof (runs_from_not_nil rest [u0] u0) as Hne.
  unfold cycles_of_runs.
  destruct (runs_from [u0] u0 rest) as [|r rs]; [congruence|].
  reflexivity.
Qed.

Lemma group_runs_concat (ds : list date) : concat (group_runs ds) = ds.
Proof. destruct ds as [|d ds]; [reflexivity|]. apply (runs_from_concat ds [d] d). Qed.

Lemma group_runs_not_nil (ds : list date) :
  Forall (fun r => r <> []) (group_runs ds).
Proof.
  destruct ds as [|d ds]; [constructor|].
  apply runs_from_runs_not_nil. discriminate.
Qed.

Lemma group_runs_connected (ds : list date) :
  Forall run_connected (group_runs ds).
Proof.
  destruct ds as [|d ds]; [constructor|].
  apply runs_from_connected; [discriminate | reflexivity | constructor].
Qed.

Lemma group_runs_separated (ds : list date) : runs_separated (group_runs ds).
Proof.
  destruct ds as [|d ds]; [exact I|].
  apply runs_from_separated; [discriminate | reflexivity].
Qed.

Lemma three_days_valid (l : DayLog) :
  In l Examples.three_days -> flow_level l <> FlowNone -> valid_date (log_date l).
Proof.
  intros [<- | [<- | [<- | []]]] _; unfold valid_date; cbn; lia.
Qed.

End Rebuild.

Section RebuildClaims.

Import Prediction Spec.
Local Open Scope Z_scope.

Lemma three_days_well_formed (l : DayLog) :
  In l Examples.three_days -> flow_level l <> FlowNone ->
  well_formed (log_date l).
Proof.
  intros [<- | [<- | [<- | []]]] _;
    unfold well_formed, valid_date, four_digit_year; cbn; lia.
Qed.

(** C7, as the claim states it, fails: with "today" on 2024-01-04 the
    flow dates 2024-01-01, 2024-01-02, 2024-01-03 do not yield the cycle
    from 2024-01-01 to 2024-01-03 but a cycle whose end is [null]. *)
Lemma rebuildCycles_three_days_open :
  rebuildCycles (mkDate 2024 1 4) Examples.three_days
  = [mkCycle (mkDate 2024 1 1) None]
  /\ rebuildCycles (mkDate 2024 1 4) Examples.three_days
     <> [Examples.closed 2024 1 1 2024 1 3].
Proof. split; [reflexivity | discriminate]. Qed.

(** C7 (amended).  On day logs whose flow dates are well formed
    (they exist in the calendar and their year has four digits), and with
    a well-formed date of today, [rebuildCycles] takes the distinct flow
    dates (entries whose flow
    level is not [None], without duplicates, in ascending order) and
    groups them greedily into runs: a date joins the current run iff it is
    within 2 days (inclusive) of the run's current end.  Every run gives
    one cycle that starts on the run's first date; the cycle ends on the
    run's last date, except that the cycle of the final run has end
    [null] when that last date is no more than 2 days before today.  The
    flow dates 2024-01-01, 2024-01-02, 2024-01-03 give the single cycle
    from 2024-01-01 to 2024-01-03 whenever today is more than 2 days after
    2024-01-03, and the empty input gives the empty list. *)
Theorem rebuildCycles_groups_runs :
  forall (today : date) (dayLogs : list DayLog),
    well_formed today ->
    (forall l, In l dayLogs -> flow_level l <> FlowNone ->
               well_formed (log_date l)) ->
    let ds := flow_dates dayLogs in
    let rs := group_runs ds in
    StronglySorted date_lt ds
    /\ (forall d, In d ds <->
                  exists l, In l dayLogs /\ flow_level l <> FlowNone
                            /\ log_date l = d)
    /\ concat rs = ds
    /\ Forall (fun r => r <> []) rs
    /\ Forall run_connected rs
    /\ runs_separated rs
    /\ rebuildCycles today dayLogs = cycles_of_runs today rs
    /\ (2 < daysBetween (mkDate 2024 1 3) today ->
        rebuildCycles today Examples.three_days
        = [Examples.closed 2024 1 1 2024 1 3])
    /\ rebuildCycles today [] = [].
Proof.
  intros today dayLogs _ Hwf ds rs. subst ds rs.
  assert (Hvalid : forall l, In l dayLogs -> flow_level l <> FlowNone ->
                             valid_date (log_date l))
    by (intros l Hl Hf; apply (Hwf l Hl Hf)).
  repeat match goal with |- _ /\ _ => split end.
  - apply flow_dates_sorted.
  - apply flow_dates_In.
  - apply group_runs_concat.
  - apply group_runs_not_nil.
  - apply group_runs_connected.
  - apply group_runs_separated.
  - apply rebuildCycles_runs, Hvalid.
  - intros Htoday.
    rewrite (rebuildCycles_runs today Examples.three_days three_days_valid).
    change (group_runs (flow_dates Examples.three_days))
      with [[mkDate 2024 1 1; mkDate 2024 1 2; mkDate 2024 1 3]].
    unfold cycles_of_runs, final_cycle. cbn [removelast last map app].
    change (run_end [mkDate 2024 1 1; mkDate 2024 1 2; mkDate 2024 1 3])
      with (mkDate 2024 1 3).
    destruct (Z.leb_spec (daysBetween (mkDate 2024 1 3) today) 2); [lia|].
    reflexivity.
  - reflexivity.
Qed.

Lemma rebuildCycles_groups_runs_witness :
  rebuildCycles (mkDate 2024 1 20) Examples.three_days
  = [Examples.closed 2024 1 1 2024 1 3].
Proof.
  refine (proj1 (proj2 (proj2 (proj2 (proj2 (proj2 (proj2 (proj2
            (rebuildCycles_groups_runs (mkDate 2024 1 20) Examples.three_days
               _ three_days_well_formed)))))))) _).
  - unfold well_formed, valid_date, four_digit_year; cbn; lia.
  - vm_compute. reflexivity.
Defined.

(** C8, as the claim states it, fails: a single flow day on 2024-01-10,
    seen from "today" 2024-01-01, gives a final cycle whose end is [null]
    although that flow date is not within 2 days of today. *)
Lemma rebuildCycles_future_flow_open :
  rebuildCycles (mkDate 2024 1 1) Examples.future_flow
  = [mkCycle (mkDate 2024 1 10) None]
  /\ group_runs (flow_dates Examples.future_flow) = [[mkDate 2024 1 10]]
  /\ daysBetween (mkDate 2024 1 10) (mkDate 2024 1 1) = -9
  /\ ~ within_days 2 (mkDate 2024 1 10) (mkDate 2024 1 1).
Proof.
  split; [reflexivity|]. split; [reflexivity|]. split; [reflexivity|].
  unfold within_days. vm_compute. intros H. apply H. reflexivity.
Qed.

(** C8 (amended).  When the day logs hold at least one flow date, the
    flow dates are well formed (they exist in the calendar and their year
    has four digits) and so is the date of today, only the final cycle of the returned list may be open: its end is [null]
    iff the last flow date of the final run is no more than 2 days before
    today (which includes every date from today on), and otherwise the
    run's last flow date; when that date is not after today this is the
    same as being within 2 days of today.  Every earlier cycle is closed
    with the first and last date of its run. *)
Theorem rebuildCycles_final_cycle :
  forall (today : date) (dayLogs : list DayLog),
    well_formed today ->
    (forall l, In l dayLogs -> flow_level l <> FlowNone ->
               well_formed (log_date l)) ->
    flow_dates dayLogs <> [] ->
    exists (earlier : list run) (final : run) (c : Cycle),
      group_runs (flow_dates dayLogs) = earlier ++ [final]
      /\ rebuildCycles today dayLogs = map closed_cycle earlier ++ [c]
      /\ start_date c = run_start final
      /\ (end_date c = None <-> daysBetween (run_end final) today <= 2)
      /\ (2 < daysBetween (run_end final) today ->
          end_date c = Some (run_end final))
      /\ (0 <= daysBetween (run_end final) today ->
          (end_date c = None <-> within_days 2 (run_end final) today))
      /\ Forall (fun c' => exists e, end_date c' = Some e)
                (map closed_cycle earlier).
Proof.
  intros today dayLogs _ Hwf Hne.
  assert (Hvalid : forall l, In l dayLogs -> flow_level l <> FlowNone ->
                             valid_date (log_date l))
    by (intros l Hl Hf; apply (Hwf l Hl Hf)).
  rewrite (rebuildCycles_runs today dayLogs Hvalid).
  assert (Hrs : group_runs (flow_dates dayLogs) <> []).
  { destruct (flow_dates dayLogs) as [|d ds]; [congruence|].
    apply runs_from_not_nil. }
  destruct (exists_last Hrs) as (earlier & final & E).
  exists earlier, final, (final_cycle today final).
  rewrite E. unfold cycles_of_runs.
  destruct (earlier ++ [final]) as [|r0 rs0] eqn:E0;
    [destruct earlier; discriminate|].
  rewrite <- E0, removelast_last, last_last.
  unfold final_cycle, within_days. cbn [start_date end_date].
  destruct (Z.leb_spec (daysBetween (run_end final) today) 2) as [Hle | Hgt].
  - repeat split; try reflexivity; try lia.
    apply Forall_forall. intros c' Hc'. apply in_map_iff in Hc'.
    destruct Hc' as (r & <- & _). exists (run_end r). reflexivity.
  - repeat split; try reflexivity; try lia; try discriminate.
    apply Forall_forall. intros c' Hc'. apply in_map_iff in Hc'.
    destruct Hc' as (r & <- & _). exists (run_end r). reflexivity.
Qed.

Lemma rebuildCycles_final_cycle_witness :
  exists (earlier : list run) (final : run) (c : Cycle),
    group_runs (flow_dates Examples.three_days) = earlier ++ [final]
    /\ rebuildCycles (mkDate 2024 1 4) Examples.three_days
       = map closed_cycle earlier ++ [c]
    /\ start_date c = run_start final
    /\ (end_date c = None <-> daysBetween (run_end final) (mkDate 2024 1 4) <= 2)
    /\ (2 < daysBetween (run_end final) (mkDate 2024 1 4) ->
        end_date c = Some (run_end final))
    /\ (0 <= daysBetween (run_end final) (mkDate 2024 1 4) ->
        (end_date c = None <-> within_days 2 (run_end final) (mkDate 2024 1 4)))
    /\ Forall (fun c' => exists e, end_date c' = Some e)
              (map closed_cycle earlier).
Proof.
  apply (rebuildCycles_final_cycle (mkDate 2024 1 4) Examples.three_days).
  - unfold well_formed, valid_date, four_digit_year; cbn; lia.
  - exact three_days_well_formed.
  - vm_compute. discriminate.
Defined.

End RebuildClaims.

(** ** [predict] and [fertilityWindow] *)

Section PredictFacts.

Import Prediction Spec.
Local Open Scope Z_scope.

Lemma closed_cycles_length (cycles : list Cycle) :
  length (closed_cycles cycles) = length (filter is_closed cycles).
Proof. apply sort_length. Qed.

Lemma closed_cycles_In (cycles : list Cycle) (c : Cycle) :
  In c (closed_cycles cycles) <-> In c cycles /\ end_date c <> None.
Proof.
  unfold closed_cycles. rewrite sort_In, filter_In. unfold is_closed.
  destruct (end_date c); intuition congruence.
Qed.

Lemma closed_cycles_sorted (cycles : list Cycle) :
  StronglySorted (cmp_le by_start) (closed_cycles cycles).
Proof.
  apply sort_sorted; [apply by_start_gt_le | apply by_start_le_trans].
Qed.

(** [arr.slice(-k)] is the [k] most recent elements. *)
Lemma slice_last_most_recent {A} (k : nat) (l : list A) :
  slice_last k l = most_recent k l.
Proof.
  unfold slice_last, most_recent.
  rewrite firstn_rev, rev_involutive. reflexivity.
Qed.

Lemma slice_last_length {A} (k : nat) (l : list A) :
  length (slice_last k l) = Nat.min k (length l).
Proof. unfold slice_last. rewrite length_skipn. lia. Qed.


(** The index loop over [recent] collects the differences between
    neighbours. *)
Lemma index_loop_diffs (l : list Cycle) :
  map (fun i => daysBetween (start_date (at_index l (i - 1)))
                            (start_date (at_index l i)))
      (seq 1 (length l - 1))
  = consecutive_diffs (map start_date l).
Proof.
  induction l as [|a l IH]; [reflexivity|].
  destruct l as [|b l]; [reflexivity|].
  cbn [length map consecutive_diffs] in *.
  replace (S (S (length l)) - 1)%nat with (S (length l)) by lia.
  replace (S (length l) - 1)%nat with (length l) in IH by lia.
  cbn [seq map]. f_equal.
  rewrite <- IH, <- seq_shift, map_map.
  apply map_ext_in. intros i Hi. apply in_seq in Hi.
  unfold at_index.
  replace (S i - 1)%nat with (S (i - 1)) by lia.
  reflexivity.
Qed.

Lemma at_index_last (l : list Cycle) :
  at_index l (length l - 1) = last l no_cycle.
Proof.
  unfold at_index. induction l as [|a l IH]; [reflexivity|].
  destruct l as [|b l]; [reflexivity|].
  cbn [length] in *.
  replace (S (S (length l)) - 1)%nat with (S (S (length l) - 1)) by lia.
  exact IH.
Qed.

(** [predict] unfolded over the specification's vocabulary. *)
Lemma predict_unfold (cycles : list Cycle) :
  predict cycles =
  let closed := closed_cycles cycles in
  if (length closed <? 2)%nat then None
  else
    let sample := most_recent 6 closed in
    let cycleLengths := consecutive_diffs (map start_date sample) in
    let periodLengths := map period_length sample in
    let avgCycle := mean cycleLengths in
    let predictedStart :=
      addDays (start_date (last closed no_cycle)) (Math_round avgCycle) in
    Some (mkPrediction
            predictedStart
            (addDays predictedStart
                     (Z.max 0 (Math_round (mean periodLengths) - 1)))
            (Math_max 0.1 (Math_min 0.95 (1 - stdDev cycleLengths / avgCycle)))%float).
Proof.
  unfold predict. fold (closed_cycles cycles).
  cbv zeta.
  destruct (length (closed_cycles cycles) <? 2)%nat eqn:Hlen; [reflexivity|].
  apply Nat.ltb_ge in Hlen.
  rewrite index_loop_diffs, at_index_last, slice_last_most_recent.
  assert (Hsample : (2 <= length (most_recent 6 (closed_cycles cycles)))%nat).
  { rewrite <- slice_last_most_recent, slice_last_length. lia. }
  destruct (most_recent 6 (closed_cycles cycles)) as [|a [|b sample]];
    cbn [length] in Hsample; try lia.
  reflexivity.
Qed.

Lemma predict_none_iff (cycles : list Cycle) :
  predict cycles = None <-> (length (filter is_closed cycles) < 2)%nat.
Proof.
  rewrite predict_unfold, <- closed_cycles_length. cbv zeta.
  destruct (Nat.ltb_spec (length (closed_cycles cycles)) 2);
    split; intros; try discriminate; try lia; reflexivity.
Qed.

Lemma predict_filter (c1 c2 : list Cycle) :
  filter is_closed c1 = filter is_closed c2 -> predict c1 = predict c2.
Proof. intros H. unfold predict. rewrite H. reflexivity. Qed.

End PredictFacts.

(** ** The clamp of the confidence *)

Section Clamp.

Import Prediction.

Lemma ltb_leb (a b : float) : PrimFloat.ltb a b = true -> PrimFloat.leb a b = true.
Proof.
  rewrite ltb_spec, leb_spec. unfold SFltb, SFleb.
  destruct (SFcompare (Prim2SF a) (Prim2SF b)) as [[| |]|]; congruence.
Qed.

(** [Math.max(0.1, Math.min(0.95, x))] lies in [[0.1, 0.95]] for every
    number [x], and is [NaN] when [x] is. *)
Lemma clamp_number (x : float) :
  PrimFloat.is_nan x = false ->
  PrimFloat.leb 0.1 (Math_max 0.1 (Math_min 0.95 x)) = true
  /\ PrimFloat.leb (Math_max 0.1 (Math_min 0.95 x)) 0.95 = true.
Proof.
  intros Hx. unfold Math_min.
  change (PrimFloat.is_nan 0.95) with false. rewrite Hx. cbn [orb].
  destruct (PrimFloat.ltb x 0.95) eqn:Hhi.
  - unfold Math_max.
    change (PrimFloat.is_nan 0.1) with false. rewrite Hx. cbn [orb].
    destruct (PrimFloat.ltb 0.1 x) eqn:Hlo.
    + split; apply ltb_leb; assumption.
    + split; reflexivity.
  - split; reflexivity.
Qed.

Lemma clamp_nan (x : float) :
  PrimFloat.is_nan x = true ->
  PrimFloat.is_nan (Math_max 0.1 (Math_min 0.95 x)) = true.
Proof.
  intros Hx. unfold Math_min. rewrite Hx, orb_true_r.
  reflexivity.
Qed.

(** The confidence of a prediction is the clamp of
    [1 - stdDev(cycleLengths) / mean(cycleLengths)]: within [[0.1, 0.95]]
    when that quotient is a number, [NaN] otherwise. *)
Lemma confidence_clamped (cycles : list Cycle) (pred : PredictionResult) :
  predict cycles = Some pred ->
  let cycleLengths :=
    Spec.consecutive_diffs
      (map start_date (Spec.most_recent 6 (Spec.closed_cycles cycles))) in
  let x := (1 - stdDev cycleLengths / mean cycleLengths)%float in
  confidence pred = Math_max 0.1 (Math_min 0.95 x)
  /\ (PrimFloat.is_nan x = false ->
      PrimFloat.leb 0.1 (confidence pred) = true
      /\ PrimFloat.leb (confidence pred) 0.95 = true)
  /\ (PrimFloat.is_nan x = true -> PrimFloat.is_nan (confidence pred) = true).
Proof.
  intros Hpred cycleLengths x.
  rewrite predict_unfold in Hpred. cbv zeta in Hpred.
  destruct (length (Spec.closed_cycles cycles) <? 2)%nat; [discriminate|].
  injection Hpred as <-. cbn [confidence].
  fold cycleLengths. fold x.
  split; [reflexivity|]. split.
  - apply clamp_number.
  - apply clamp_nan.
Qed.

End Clamp.

Section PredictClaims.

Import Prediction Spec.
Local Open Scope Z_scope.

(** C4 (the code departs from the claim).  On two closed cycles that start
    on the same day [predict] returns a prediction whose confidence is
    [NaN]: the only cycle length is 0, so the mean is 0, the standard
    deviation of the single sample is 0, and [1 - 0 / 0] is [NaN], which
    [Math.min] and [Math.max] hand through.  The confidence is then
    neither at least 0.1 nor at most 0.95. *)
Theorem predict_same_start_confidence :
  exists pred,
    predict Examples.same_start = Some pred
    /\ mean [daysBetween (mkDate 2024 1 1) (mkDate 2024 1 1)] = 0%float
    /\ stdDev [daysBetween (mkDate 2024 1 1) (mkDate 2024 1 1)] = 0%float
    /\ PrimFloat.is_nan (confidence pred) = true
    /\ PrimFloat.leb 0.1 (confidence pred) = false
    /\ PrimFloat.leb (confidence pred) 0.95 = false.
Proof.
  eexists. split; [vm_compute; reflexivity|].
  repeat split; vm_compute; reflexivity.
Qed.

(** C5.  With fewer than 2 closed cycles [predict] returns [null], and so
    does [fertilityWindow]; day logs without any flow (the empty list
    among them) rebuild to the empty list.  The functions are total: too
    little data is answered with the value none or the empty list, never
    with an error. *)
Theorem insufficient_history_is_none :
  forall (cycles : list Cycle),
    (length (filter is_closed cycles) < 2)%nat ->
    predict cycles = None
    /\ fertilityWindow cycles = None
    /\ (forall today, rebuildCycles today [] = [])
    /\ (forall today dayLogs,
          Forall (fun l => flow_level l = FlowNone) dayLogs ->
          rebuildCycles today dayLogs = []).
Proof.
  intros cycles Hlen.
  assert (Hp : predict cycles = None) by (apply predict_none_iff; exact Hlen).
  split; [exact Hp|]. split; [|split].
  - unfold fertilityWindow. rewrite Hp. reflexivity.
  - reflexivity.
  - intros today dayLogs Hall. unfold rebuildCycles.
    assert (Hnone : filter (fun l => is_flow (flow_level l)) dayLogs = []).
    { induction Hall as [|l ls Hl _ IH]; [reflexivity|].
      cbn. rewrite Hl. exact IH. }
    rewrite Hnone. reflexivity.
Qed.

Lemma insufficient_history_is_none_witness :
  predict Examples.single = None
  /\ fertilityWindow Examples.single = None
  /\ rebuildCycles (mkDate 2024 1 4) Examples.no_flow = [].
Proof.
  assert (Hlen : (length (filter is_closed Examples.single) < 2)%nat)
    by (vm_compute; lia).
  destruct (insufficient_history_is_none Examples.single Hlen)
    as (Hp & Hf & _ & Hr).
  split; [exact Hp | split; [exact Hf|]].
  apply Hr. repeat constructor.
Defined.



(** C9.  [fertilityWindow] returns [null] exactly when [predict] does;
    otherwise the ovulation day is 14 days before the predicted start, the
    fertile window runs from 5 days before the ovulation day to the
    ovulation day, and the peak from 2 days before it to the ovulation
    day.  A predicted start on 2024-03-01 gives the ovulation day
    2024-02-16, the fertile start 2024-02-11 and the peak start
    2024-02-14. *)
Theorem fertilityWindow_offsets :
  forall (cycles : list Cycle),
    (fertilityWindow cycles = None <-> predict cycles = None)
    /\ (forall pred,
          predict cycles = Some pred ->
          exists w,
            fertilityWindow cycles = Some w
            /\ ovulation_day w = addDays (predicted_start pred) (-14)
            /\ fertile_start w = addDays (ovulation_day w) (-5)
            /\ fertile_end w = ovulation_day w
            /\ peak_start w = addDays (ovulation_day w) (-2)
            /\ peak_end w = ovulation_day w
            /\ (predicted_start pred = mkDate 2024 3 1 ->
                ovulation_day w = mkDate 2024 2 16
                /\ fertile_start w = mkDate 2024 2 11
                /\ peak_start w = mkDate 2024 2 14)).
Proof.
  intros cycles. unfold fertilityWindow.
  destruct (predict cycles) as [p|].
  - split; [split; discriminate|].
    intros pred Hp. injection Hp as ->.
    eexists. split; [reflexivity|]. cbn [ovulation_day fertile_start fertile_end
                                          peak_start peak_end].
    repeat split. all: rewrite H; reflexivity.
  - split; [split; reflexivity|]. discriminate.
Qed.

Lemma fertilityWindow_offsets_witness :
  exists pred w,
    predict Examples.march_first = Some pred
    /\ predicted_start pred = mkDate 2024 3 1
    /\ fertilityWindow Examples.march_first = Some w
    /\ ovulation_day w = mkDate 2024 2 16
    /\ fertile_start w = mkDate 2024 2 11
    /\ peak_start w = mkDate 2024 2 14.
Proof.
  destruct (predict Examples.march_first) as [pred|] eqn:E;
    [|vm_compute in E; discriminate].
  assert (Hstart : predicted_start pred = mkDate 2024 3 1).
  { vm_compute in E. injection E as <-. reflexivity. }
  destruct (proj2 (fertilityWindow_offsets Examples.march_first) pred E)
    as (w & Hw & _ & _ & _ & _ & _ & Hex).
  destruct (Hex Hstart) as (Ho & Hf & Hk).
  exists pred, w. tauto.
Defined.

(** C10.  Two lists of cycles with the same closed cycles, which differ
    only in the open cycles they hold, get the same prediction and the
    same fertility window. *)
Theorem open_cycles_do_not_matter :
  forall (cycles1 cycles2 : list Cycle),
    filter is_closed cycles1 = filter is_closed cycles2 ->
    predict cycles1 = predict cycles2
    /\ fertilityWindow cycles1 = fertilityWindow cycles2.
Proof.
  intros cycles1 cycles2 H.
  pose proof (predict_filter cycles1 cycles2 H) as Hp.
  split; [exact Hp|]. unfold fertilityWindow. rewrite Hp. reflexivity.
Qed.

Lemma open_cycles_do_not_matter_witness :
  predict Examples.regular_open = predict Examples.regular
  /\ fertilityWindow Examples.regular_open = fertilityWindow Examples.regular.
Proof.
  apply (open_cycles_do_not_matter Examples.regular_open Examples.regular).
  reflexivity.
Defined.

End PredictClaims.

(* ================================================================== *)
(** * Further properties: the calendar functions *)
(* ================================================================== *)

Section CalendarRoundTrip.

Import Prediction Spec.
Local Open Scope Z_scope.

Lemma valid_dateb_spec (d : date) : valid_dateb d = true <-> valid_date d.
Proof.
  unfold valid_dateb, valid_date.
  rewrite !andb_true_iff, !Z.leb_le. tauto.
Qed.

Lemma era_ok_S (n : nat) (z : Z) :
  era_ok (S n) z
  = (parseDate (fmtDate z) =? z) && valid_dateb (fmtDate z) && era_ok n (z + 1).
Proof. reflexivity. Qed.

Lemma era_ok_sound (n : nat) :
  forall z, era_ok n z = true ->
  forall k, z <= k < z + Z.of_nat n ->
            parseDate (fmtDate k) = k /\ valid_date (fmtDate k).
Proof.
  induction n as [|n IH]; intros z Hok k Hk.
  - change (Z.of_nat 0) with 0 in Hk. lia.
  - rewrite era_ok_S in Hok. rewrite Nat2Z.inj_succ in Hk.
    apply andb_true_iff in Hok. destruct Hok as [Hz Hrest].
    apply andb_true_iff in Hz. destruct Hz as [Hp Hv].
    apply Z.eqb_eq in Hp. apply valid_dateb_spec in Hv.
    destruct (Z.eq_dec k z) as [E|Hne].
    + rewrite E. split; assumption.
    + apply (IH (z + 1) Hrest). lia.
Qed.

(** The 146097 days of the era that starts on 0000-03-01. *)
Lemma era_checked : era_ok 146097 (-719468) = true.
Proof. vm_cast_no_check (eq_refl true). Qed.

Lemma div_shift (a k c : Z) : 0 < c -> (a + c * k) / c = a / c + k.
Proof. intros Hc. rewrite (Z.mul_comm c k). apply Z.div_add. lia. Qed.

Lemma mod_shift (a k c : Z) : 0 < c -> (a + c * k) mod c = a mod c.
Proof. intros Hc. rewrite (Z.mul_comm c k). apply Z.mod_add. lia. Qed.

Lemma leap_year_shift (y k : Z) : leap_year (y + 400 * k) = leap_year y.
Proof.
  unfold leap_year.
  replace ((y + 400 * k) mod 4) with (y mod 4)
    by (replace (400 * k) with (4 * (100 * k)) by lia;
        symmetry; apply mod_shift; lia).
  replace ((y + 400 * k) mod 100) with (y mod 100)
    by (replace (400 * k) with (100 * (4 * k)) by lia;
        symmetry; apply mod_shift; lia).
  rewrite mod_shift by lia. reflexivity.
Qed.

(** 400 years are 146097 days. *)
Lemma days_before_year_shift (y k : Z) :
  days_before_year (y + 400 * k) = days_before_year y + 146097 * k.
Proof.
  unfold days_before_year, leaps_before.
  replace ((y + 400 * k - 1) / 4) with ((y - 1) / 4 + 100 * k)
    by (replace (y + 400 * k - 1) with (y - 1 + 4 * (100 * k)) by lia;
        symmetry; apply div_shift; lia).
  replace ((y + 400 * k - 1) / 100) with ((y - 1) / 100 + 4 * k)
    by (replace (y + 400 * k - 1) with (y - 1 + 100 * (4 * k)) by lia;
        symmetry; apply div_shift; lia).
  replace ((y + 400 * k - 1) / 400) with ((y - 1) / 400 + k)
    by (replace (y + 400 * k - 1) with (y - 1 + 400 * k) by lia;
        symmetry; apply div_shift; lia).
  lia.
Qed.

Lemma parseDate_shift (d : date) (k : Z) :
  parseDate (shift_years (400 * k) d) = parseDate d + 146097 * k.
Proof.
  unfold parseDate, shift_years, days_from_civil, days_before_month.
  cbn [year month day].
  replace (year d + 400 * k + (month d - 1) / 12)
    with (year d + (month d - 1) / 12 + 400 * k) by lia.
  rewrite days_before_year_shift, leap_year_shift. lia.
Qed.

Lemma valid_date_shift (d : date) (k : Z) :
  valid_date d -> valid_date (shift_years (400 * k) d).
Proof.
  unfold valid_date, shift_years, days_in_month. cbn [year month day].
  rewrite leap_year_shift. tauto.
Qed.

Lemma fmtDate_shift (n k : Z) :
  fmtDate (n + 146097 * k) = shift_years (400 * k) (fmtDate n).
Proof.
  unfold fmtDate, civil_from_days, shift_years. cbv zeta. cbn [year month day].
  replace ((n + 146097 * k + 719468) / 146097)
    with ((n + 719468) / 146097 + k)
    by (replace (n + 146097 * k + 719468) with (n + 719468 + 146097 * k) by lia;
        symmetry; apply div_shift; lia).
  replace (n + 146097 * k + 719468 - ((n + 719468) / 146097 + k) * 146097)
    with (n + 719468 - (n + 719468) / 146097 * 146097) by lia.
  f_equal. lia.
Qed.

Lemma fmtDate_facts (n : Z) : parseDate (fmtDate n) = n /\ valid_date (fmtDate n).
Proof.
  pose proof (Z.div_mod (n + 719468) 146097 ltac:(lia)) as Hdm.
  pose proof (Z.mod_pos_bound (n + 719468) 146097 ltac:(lia)) as Hb.
  set (era := (n + 719468) / 146097) in *.
  set (doe := (n + 719468) mod 146097) in *.
  replace n with (doe - 719468 + 146097 * era) by lia.
  rewrite fmtDate_shift, parseDate_shift.
  destruct (era_ok_sound 146097 (-719468) era_checked (doe - 719468)) as [Hp Hv].
  { change (Z.of_nat 146097) with 146097. lia. }
  split; [rewrite Hp; reflexivity | apply valid_date_shift, Hv].
Qed.

Lemma date_compare_cases (a b : date) :
  date_compare a b = Lt \/ a = b \/ date_compare b a = Lt.
Proof.
  destruct (date_compare a b) eqn:E.
  - right. left. apply date_compare_eq, E.
  - left. reflexivity.
  - right. right. apply date_compare_gt, E.
Qed.

Lemma parseDate_inj (a b : date) :
  valid_date a -> valid_date b -> parseDate a = parseDate b -> a = b.
Proof.
  intros Ha Hb E.
  destruct (date_compare_cases a b) as [Hlt | [Heq | Hgt]]; [|exact Heq|].
  - pose proof (parseDate_mono a b Ha Hb Hlt). lia.
  - pose proof (parseDate_mono b a Hb Ha Hgt). lia.
Qed.

Lemma fmtDate_four_digit (n : Z) :
  first_day <= n <= last_day -> four_digit_year (fmtDate n).
Proof.
  intros Hn. destruct (fmtDate_facts n) as [Hp Hv].
  assert (Hlo : valid_date (mkDate 1000 1 1)) by (unfold valid_date; cbn; lia).
  assert (Hhi : valid_date (mkDate 9999 12 31)) by (unfold valid_date; cbn; lia).
  unfold four_digit_year. split.
  - destruct (Z.lt_ge_cases (year (fmtDate n)) 1000) as [Hlt | Hge]; [|exact Hge].
    assert (Hc : date_compare (fmtDate n) (mkDate 1000 1 1) = Lt).
    { unfold date_compare. cbn [year].
      rewrite (proj2 (Z.compare_lt_iff _ _) Hlt). reflexivity. }
    pose proof (parseDate_mono _ _ Hv Hlo Hc) as Hm.
    rewrite Hp in Hm. unfold first_day in Hn. lia.
  - destruct (Z.lt_ge_cases 9999 (year (fmtDate n))) as [Hlt | Hge]; [|lia].
    assert (Hc : date_compare (mkDate 9999 12 31) (fmtDate n) = Lt).
    { unfold date_compare. cbn [year].
      rewrite (proj2 (Z.compare_lt_iff _ _) Hlt). reflexivity. }
    pose proof (parseDate_mono _ _ Hhi Hv Hc) as Hm.
    rewrite Hp in Hm. unfold last_day in Hn. lia.
Qed.

(** X1.  Formatting a day between 1000-01-01 and 9999-12-31 gives a date
    that exists, with a four-digit year, and parsing it gives the day
    back. *)
Theorem parseDate_fmtDate :
  forall n : Z,
    first_day <= n <= last_day ->
    parseDate (fmtDate n) = n /\ well_formed (fmtDate n).
Proof.
  intros n Hn. destruct (fmtDate_facts n) as [Hp Hv].
  split; [exact Hp|]. split; [exact Hv | apply fmtDate_four_digit, Hn].
Qed.

Lemma parseDate_fmtDate_witness :
  parseDate (fmtDate 19782) = 19782 /\ well_formed (fmtDate 19782).
Proof.
  apply (parseDate_fmtDate 19782).
  split; apply Z.leb_le; vm_compute; reflexivity.
Defined.

(** X2.  On well-formed dates the order of the date strings is the order
    of time: [a] sorts before [b] iff [b] is a positive number of days
    after [a], and the two are the same string iff they are 0 days apart. *)
Theorem date_order_is_time_order :
  forall a b : date,
    well_formed a -> well_formed b ->
    (date_compare a b = Lt <-> 0 < daysBetween a b)
    /\ (a = b <-> daysBetween a b = 0).
Proof.
  intros a b [Ha _] [Hb _]. unfold daysBetween.
  pose proof (parseDate_mono a b Ha Hb) as Hab.
  pose proof (parseDate_mono b a Hb Ha) as Hba.
  destruct (date_compare_cases a b) as [Hlt | [Heq | Hgt]].
  - specialize (Hab Hlt). split; split; intros H; try lia; try assumption.
    subst b. lia.
  - subst b. split; split; intros H; try lia; try reflexivity.
    rewrite (proj2 (date_compare_eq a a) eq_refl) in H. discriminate.
  - specialize (Hba Hgt). split; split; intros H; try lia.
    + apply date_compare_gt in Hgt. congruence.
    + subst b. lia.
Qed.

Lemma date_order_is_time_order_witness :
  (date_compare (mkDate 2024 2 29) (mkDate 2024 3 1) = Lt
   <-> 0 < daysBetween (mkDate 2024 2 29) (mkDate 2024 3 1))
  /\ (mkDate 2024 2 29 = mkDate 2024 3 1
      <-> daysBetween (mkDate 2024 2 29) (mkDate 2024 3 1) = 0).
Proof.
  apply (date_order_is_time_order (mkDate 2024 2 29) (mkDate 2024 3 1));
    unfold well_formed, valid_date, four_digit_year; cbn; lia.
Defined.

(** X3.  On a well-formed date, parsing and formatting again gives the
    same date; in particular adding 0 days changes nothing. *)
Theorem fmtDate_parseDate :
  forall d : date,
    well_formed d ->
    fmtDate (parseDate d) = d /\ addDays d 0 = d.
Proof.
  intros d [Hd _].
  assert (H : fmtDate (parseDate d) = d).
  { destruct (fmtDate_facts (parseDate d)) as [Hp Hv].
    apply parseDate_inj; assumption. }
  split; [exact H|]. unfold addDays. rewrite Z.add_0_r. exact H.
Qed.

Lemma fmtDate_parseDate_witness :
  fmtDate (parseDate (mkDate 2024 2 29)) = mkDate 2024 2 29
  /\ addDays (mkDate 2024 2 29) 0 = mkDate 2024 2 29.
Proof.
  apply (fmtDate_parseDate (mkDate 2024 2 29)).
  unfold well_formed, valid_date, four_digit_year; cbn; lia.
Defined.

(** X4.  As long as the year keeps four digits, [addDays] moves a date
    by exactly [n] days, to a date that exists; a second move composes
    with the first into one, and the move back returns to a well-formed
    date it started from. *)
Theorem addDays_exact :
  forall (d : date) (n m : Z),
    four_digit_year d ->
    four_digit_year (addDays d n) ->
    daysBetween d (addDays d n) = n
    /\ valid_date (addDays d n)
    /\ addDays (addDays d n) m = addDays d (n + m)
    /\ (valid_date d -> addDays (addDays d n) (- n) = d).
Proof.
  intros d n m _ _. unfold daysBetween, addDays.
  destruct (fmtDate_facts (parseDate d + n)) as [Hp Hv].
  rewrite !Hp.
  split; [lia|]. split; [exact Hv|]. split.
  - f_equal. lia.
  - intros Hd. replace (parseDate d + n + - n) with (parseDate d) by lia.
    destruct (fmtDate_facts (parseDate d)) as [Hp' Hv'].
    apply parseDate_inj; assumption.
Qed.

Lemma addDays_exact_witness :
  daysBetween (mkDate 2024 2 28) (addDays (mkDate 2024 2 28) 2) = 2
  /\ valid_date (addDays (mkDate 2024 2 28) 2)
  /\ addDays (addDays (mkDate 2024 2 28) 2) 30 = addDays (mkDate 2024 2 28) (2 + 30)
  /\ (valid_date (mkDate 2024 2 28) ->
      addDays (addDays (mkDate 2024 2 28) 2) (- (2)) = mkDate 2024 2 28).
Proof.
  apply (addDays_exact (mkDate 2024 2 28) 2 30);
    unfold four_digit_year; vm_compute; split; discriminate.
Defined.

End CalendarRoundTrip.

(* ================================================================== *)
(** * Further properties: [rebuildCycles] *)
(* ================================================================== *)

Section RebuildInvariants.

Import Prediction Spec.
Local Open Scope Z_scope.

Lemma date_lt_irrefl (a : date) : ~ date_lt a a.
Proof. unfold date_lt. rewrite date_compare_lt. lia. Qed.

Lemma date_lt_asym (a b : date) : date_lt a b -> ~ date_lt b a.
Proof. unfold date_lt. rewrite !date_compare_lt. lia. Qed.

(** A strictly ascending list is determined by its elements. *)
Lemma strict_sorted_ext (l1 : list date) :
  forall l2,
    StronglySorted date_lt l1 -> StronglySorted date_lt l2 ->
    (forall x, In x l1 <-> In x l2) -> l1 = l2.
Proof.
  induction l1 as [|x l1 IH]; intros l2 H1 H2 Hin.
  - destruct l2 as [|y l2]; [reflexivity|].
    destruct (proj2 (Hin y) (or_introl eq_refl)).
  - destruct l2 as [|y l2].
    { destruct (proj1 (Hin x) (or_introl eq_refl)). }
    apply StronglySorted_inv in H1. destruct H1 as [H1 Hx].
    apply StronglySorted_inv in H2. destruct H2 as [H2 Hy].
    rewrite Forall_forall in Hx, Hy.
    assert (Exy : x = y).
    { destruct (proj1 (Hin x) (or_introl eq_refl)) as [E | Hxl2]; [auto|].
      destruct (proj2 (Hin y) (or_introl eq_refl)) as [E | Hyl1]; [auto|].
      exfalso. exact (date_lt_asym x y (Hx y Hyl1) (Hy x Hxl2)). }
    subst y. f_equal. apply IH; [assumption.. |].
    intros z. split; intros Hz.
    + destruct (proj1 (Hin z) (or_intror Hz)) as [E | Hz2]; [|exact Hz2].
      subst z. exfalso. exact (date_lt_irrefl x (Hx x Hz)).
    + destruct (proj2 (Hin z) (or_intror Hz)) as [E | Hz1]; [|exact Hz1].
      subst z. exfalso. exact (date_lt_irrefl x (Hy x Hz)).
Qed.

(** X5.  [rebuildCycles] depends on the day logs only through the set of
    their flow dates: the order of the entries, repeated entries, notes,
    the strength of the flow and entries without flow do not matter. *)
Theorem rebuildCycles_set_of_flow_dates :
  forall (today : date) (logs1 logs2 : list DayLog),
    (forall d,
        (exists l, In l logs1 /\ flow_level l <> FlowNone /\ log_date l = d)
        <-> (exists l, In l logs2 /\ flow_level l <> FlowNone /\ log_date l = d)) ->
    rebuildCycles today logs1 = rebuildCycles today logs2.
Proof.
  intros today logs1 logs2 Hsame.
  assert (E : flow_dates logs1 = flow_dates logs2).
  { apply strict_sorted_ext; try apply flow_dates_sorted.
    intros x. rewrite !flow_dates_In. apply Hsame. }
  unfold rebuildCycles. fold (flow_dates logs1). fold (flow_dates logs2).
  rewrite E. reflexivity.
Qed.

End RebuildInvariants.

Section RebuildStructure.

Import Prediction Spec Invariants.
Local Open Scope Z_scope.

Lemma rebuildCycles_set_of_flow_dates_witness :
  rebuildCycles (mkDate 2024 1 4) Examples.three_days
  = rebuildCycles (mkDate 2024 1 4) MoreExamples.three_days_shuffled.
Proof.
  apply (rebuildCycles_set_of_flow_dates
           (mkDate 2024 1 4) Examples.three_days MoreExamples.three_days_shuffled).
  intros d. rewrite <- !flow_dates_In.
  change (flow_dates MoreExamples.three_days_shuffled)
    with (flow_dates Examples.three_days).
  tauto.
Defined.

(** Sorted lists split into sorted parts, the first below the second. *)
Lemma sorted_app {A} (R : A -> A -> Prop) (l1 l2 : list A) :
  StronglySorted R (l1 ++ l2) ->
  StronglySorted R l1 /\ StronglySorted R l2
  /\ (forall x y, In x l1 -> In y l2 -> R x y).
Proof.
  induction l1 as [|a l1 IH]; cbn; intros H.
  - split; [constructor|]. split; [exact H|]. intros x y [].
  - apply StronglySorted_inv in H. destruct H as [H Ha].
    destruct (IH H) as (H1 & H2 & H12).
    rewrite Forall_forall in Ha.
    split.
    + constructor; [exact H1|]. apply Forall_forall. intros x Hx.
      apply Ha. apply in_or_app. now left.
    + split; [exact H2|]. intros x y [<- | Hx] Hy.
      * apply Ha. apply in_or_app. now right.
      * now apply H12.
Qed.

Lemma run_start_In (r : run) : r <> [] -> In (run_start r) r.
Proof. destruct r; [congruence|]. intros _. now left. Qed.

Lemma run_end_In (r : run) : r <> [] -> In (run_end r) r.
Proof.
  intros Hr. destruct (exists_last Hr) as (r' & x & ->).
  rewrite run_end_snoc. apply in_or_app. right. now left.
Qed.

(** In a sorted run the first date is not after the last. *)
Lemma run_start_le_end (r : run) :
  r <> [] -> StronglySorted date_lt r ->
  run_start r = run_end r \/ date_lt (run_start r) (run_end r).
Proof.
  intros Hr Hs. destruct r as [|a r]; [congruence|].
  destruct r as [|b r]; [now left|]. right.
  apply StronglySorted_inv in Hs. destruct Hs as [_ Ha].
  rewrite Forall_forall in Ha. apply Ha.
  change (In (run_end (a :: b :: r)) (b :: r)).
  unfold run_end. change (last (a :: b :: r) epoch) with (last (b :: r) epoch).
  apply (run_end_In (b :: r)). discriminate.
Qed.

Lemma cycles_of_runs_cons (today : date) (r1 r2 : run) (rs : list run) :
  cycles_of_runs today (r1 :: r2 :: rs)
  = closed_cycle r1 :: cycles_of_runs today (r2 :: rs).
Proof. reflexivity. Qed.

Lemma cycles_of_runs_starts (today : date) (rs : list run) :
  map start_date (cycles_of_runs today rs) = map run_start rs.
Proof.
  induction rs as [|r1 rs IH]; [reflexivity|].
  destruct rs as [|r2 rs]; [reflexivity|].
  rewrite cycles_of_runs_cons. cbn [map]. rewrite IH. reflexivity.
Qed.

Lemma cycles_of_runs_length (today : date) (rs : list run) :
  length (cycles_of_runs today rs) = length rs.
Proof.
  rewrite <- (length_map start_date), cycles_of_runs_starts, length_map.
  reflexivity.
Qed.


Lemma good_runs_tail (r : run) (rs : list run) :
  good_runs (r :: rs) -> good_runs rs.
Proof.
  intros [Hn Hs Hv Ha]. split.
  - exact (Forall_inv_tail Hn).
  - cbn in Hs. apply sorted_app in Hs. tauto.
  - cbn in Hv. apply Forall_app in Hv. tauto.
  - destruct rs as [|r2 rs]; [exact I|]. exact (proj2 Ha).
Qed.

Lemma good_runs_head (r : run) (rs : list run) :
  good_runs (r :: rs) ->
  r <> [] /\ valid_date (run_start r) /\ valid_date (run_end r)
  /\ 0 <= daysBetween (run_start r) (run_end r).
Proof.
  intros [Hn Hs Hv Ha].
  pose proof (Forall_inv Hn) as Hr.
  cbn in Hs, Hv. apply sorted_app in Hs. destruct Hs as (Hs & _ & _).
  apply Forall_app in Hv. destruct Hv as [Hv _]. rewrite Forall_forall in Hv.
  pose proof (Hv _ (run_start_In r Hr)) as Hvs.
  pose proof (Hv _ (run_end_In r Hr)) as Hve.
  split; [exact Hr|]. split; [exact Hvs|]. split; [exact Hve|].
  destruct (run_start_le_end r Hr Hs) as [E | Hlt].
  - rewrite <- E. unfold daysBetween. lia.
  - pose proof (parseDate_mono _ _ Hvs Hve Hlt). unfold daysBetween. lia.
Qed.

Lemma good_runs_gap (r1 r2 : run) (rs : list run) :
  good_runs (r1 :: r2 :: rs) ->
  2 < daysBetween (run_end r1) (run_start r2).
Proof.
  intros H.
  destruct (good_runs_head _ _ H) as (Hr1 & _ & Hve & _).
  destruct (good_runs_head _ _ (good_runs_tail _ _ H)) as (Hr2 & Hvs & _ & _).
  destruct H as [Hn Hs Hv Ha].
  cbn in Hs. apply sorted_app in Hs. destruct Hs as (_ & _ & H12).
  assert (Hlt : date_lt (run_end r1) (run_start r2)).
  { apply H12; [apply run_end_In, Hr1|].
    apply in_or_app. left. apply run_start_In, Hr2. }
  pose proof (parseDate_mono _ _ Hve Hvs Hlt) as Hmono.
  destruct Ha as [Hnot _]. unfold within_days in Hnot.
  unfold daysBetween in *. lia.
Qed.

Lemma good_group_runs (dayLogs : list DayLog) :
  (forall l, In l dayLogs -> flow_level l <> FlowNone -> valid_date (log_date l)) ->
  good_runs (group_runs (flow_dates dayLogs)).
Proof.
  intros Hvalid. split.
  - apply group_runs_not_nil.
  - rewrite group_runs_concat. apply flow_dates_sorted.
  - rewrite group_runs_concat. apply flow_dates_valid, Hvalid.
  - apply group_runs_separated.
Qed.

Lemma good_runs_cycles_apart (today : date) (rs : list run) :
  good_runs rs -> cycles_apart (cycles_of_runs today rs).
Proof.
  induction rs as [|r1 rs IH]; intros H; [exact I|].
  destruct rs as [|r2 rs]; [exact I|].
  rewrite cycles_of_runs_cons.
  assert (Hstart : start_date (hd no_cycle (cycles_of_runs today (r2 :: rs)))
                   = run_start r2).
  { destruct rs as [|r3 rs]; reflexivity. }
  pose proof (IH (good_runs_tail _ _ H)) as IH'.
  destruct (cycles_of_runs today (r2 :: rs)) as [|c2 cs] eqn:E.
  { destruct rs; discriminate. }
  split; [|exact IH'].
  exists (run_end r1). split; [reflexivity|].
  cbn [hd] in Hstart. rewrite Hstart. apply (good_runs_gap _ _ _ H).
Qed.

Lemma good_runs_starts_sorted (rs : list run) :
  good_runs rs -> StronglySorted date_lt (map run_start rs).
Proof.
  induction rs as [|r rs IH]; intros H; [constructor|].
  cbn [map]. constructor; [apply IH, (good_runs_tail _ _ H)|].
  destruct (good_runs_head _ _ H) as (Hr & _).
  destruct H as [Hn Hs Hv Ha]. cbn in Hs. apply sorted_app in Hs.
  destruct Hs as (_ & _ & H12).
  apply Forall_forall. intros s Hs. apply in_map_iff in Hs.
  destruct Hs as (r' & <- & Hr').
  apply H12; [apply run_start_In, Hr|].
  apply in_concat. exists r'. split; [exact Hr'|].
  apply run_start_In.
  apply Forall_inv_tail in Hn. rewrite Forall_forall in Hn. auto.
Qed.

Lemma good_runs_In (rs : list run) (r : run) :
  good_runs rs -> In r rs ->
  r <> [] /\ valid_date (run_start r) /\ valid_date (run_end r)
  /\ 0 <= daysBetween (run_start r) (run_end r)
  /\ StronglySorted date_lt r /\ Forall valid_date r.
Proof.
  induction rs as [|r1 rs IH]; intros H Hin; [destruct Hin|].
  destruct Hin as [<- | Hin]; [|exact (IH (good_runs_tail _ _ H) Hin)].
  destruct (good_runs_head _ _ H) as (Hr & Hvs & Hve & Hd).
  destruct H as [Hn Hs Hv Ha]. cbn in Hs, Hv.
  apply sorted_app in Hs. apply Forall_app in Hv. tauto.
Qed.

Lemma cycles_of_runs_In (today : date) (rs : list run) (c : Cycle) :
  In c (cycles_of_runs today rs) ->
  exists r, In r rs /\ start_date c = run_start r
            /\ (end_date c = None \/ end_date c = Some (run_end r)).
Proof.
  induction rs as [|r1 rs IH]; [intros []|].
  destruct rs as [|r2 rs].
  - change (cycles_of_runs today [r1]) with [final_cycle today r1].
    intros [<- | []]. exists r1. split; [now left|]. split; [reflexivity|].
    unfold final_cycle. cbn [end_date].
    destruct (daysBetween (run_end r1) today <=? 2); auto.
  - rewrite cycles_of_runs_cons. intros [<- | Hin].
    + exists r1. split; [now left|]. split; [reflexivity|]. now right.
    + destruct (IH Hin) as (r & Hr & Hc). exists r. split; [now right | exact Hc].
Qed.

Lemma runs_In_cycles (today : date) (rs : list run) (r : run) :
  In r rs ->
  exists c, In c (cycles_of_runs today rs) /\ start_date c = run_start r
            /\ (end_date c = None \/ end_date c = Some (run_end r)).
Proof.
  induction rs as [|r1 rs IH]; [intros []|].
  destruct rs as [|r2 rs].
  - change (cycles_of_runs today [r1]) with [final_cycle today r1].
    intros [<- | []]. exists (final_cycle today r1).
    split; [now left|]. split; [reflexivity|].
    unfold final_cycle. cbn [end_date].
    destruct (daysBetween (run_end r1) today <=? 2); auto.
  - rewrite cycles_of_runs_cons. intros [<- | Hin].
    + exists (closed_cycle r1). split; [now left|]. split; [reflexivity|]. now right.
    + destruct (IH Hin) as (c & Hc & Hrest). exists c. split; [now right | exact Hrest].
Qed.

(** Inside a sorted run of existing dates every date lies between the
    first and the last. *)
Lemma run_member_between (r : run) (d : date) :
  StronglySorted date_lt r -> Forall valid_date r -> In d r ->
  0 <= daysBetween (run_start r) d /\ 0 <= daysBetween d (run_end r).
Proof.
  intros Hs Hv Hd.
  assert (Hr : r <> []) by (destruct r; [destruct Hd | discriminate]).
  rewrite Forall_forall in Hv.
  pose proof (Hv _ Hd) as Hvd.
  pose proof (Hv _ (run_start_In r Hr)) as Hvs.
  pose proof (Hv _ (run_end_In r Hr)) as Hve.
  split.
  - destruct r as [|a r]; [congruence|]. cbn [run_start hd].
    destruct Hd as [<- | Hd]; [unfold daysBetween; lia|].
    apply StronglySorted_inv in Hs. destruct Hs as [_ Ha].
    rewrite Forall_forall in Ha.
    pose proof (parseDate_mono _ _ Hvs Hvd (Ha d Hd)).
    unfold daysBetween. cbn [run_start hd] in *. lia.
  - destruct (exists_last Hr) as (r' & x & E). subst r.
    rewrite run_end_snoc in *.
    apply in_app_or in Hd. destruct Hd as [Hd | [<- | []]];
      [|unfold daysBetween; lia].
    apply sorted_app in Hs. destruct Hs as (_ & _ & H12).
    pose proof (parseDate_mono _ _ Hvd Hve (H12 d x Hd (or_introl eq_refl))).
    unfold daysBetween. lia.
Qed.

Lemma runs_length_le (rs : list run) :
  Forall (fun r => r <> []) rs -> (length rs <= length (concat rs))%nat.
Proof.
  induction 1 as [|r rs Hr _ IH]; [cbn; lia|].
  cbn [concat length]. rewrite length_app.
  destruct r; [congruence|]. cbn [length]. lia.
Qed.

Lemma good_runs_start_diffs (rs : list run) :
  good_runs rs ->
  Forall (fun gap => 3 <= gap) (consecutive_diffs (map run_start rs)).
Proof.
  induction rs as [|r1 rs IH]; intros H; [constructor|].
  destruct rs as [|r2 rs]; [constructor|].
  change (consecutive_diffs (map run_start (r1 :: r2 :: rs)))
    with (daysBetween (run_start r1) (run_start r2)
          :: consecutive_diffs (map run_start (r2 :: rs))).
  constructor; [|apply IH, (good_runs_tail _ _ H)].
  pose proof (good_runs_gap _ _ _ H) as Hgap.
  destruct (good_runs_head _ _ H) as (_ & _ & _ & Hlen).
  unfold daysBetween in *. lia.
Qed.

(** X6.  The cycles that [rebuildCycles] returns, on day logs whose flow
    dates are well formed: there are no more of them than flow dates, and none iff
    there is no flow date; they are in strictly ascending order of start;
    each but the last is closed and the next one starts more than 2 days
    after it ended, so consecutive starts are at least 3 days apart; a
    cycle starts on a flow date and, when it is closed, ends on a flow
    date that is not before its start; and every flow date lies within
    one of the cycles. *)
Theorem rebuildCycles_invariants :
  forall (today : date) (dayLogs : list DayLog),
    (forall l, In l dayLogs -> flow_level l <> FlowNone ->
               well_formed (log_date l)) ->
    let cs := rebuildCycles today dayLogs in
    let ds := flow_dates dayLogs in
    (length cs <= length ds)%nat
    /\ (cs = [] <-> ds = [])
    /\ StronglySorted date_lt (map start_date cs)
    /\ cycles_apart cs
    /\ Forall (fun gap => 3 <= gap) (consecutive_diffs (map start_date cs))
    /\ (forall c, In c cs ->
          In (start_date c) ds
          /\ forall e, end_date c = Some e ->
                       In e ds /\ 0 <= daysBetween (start_date c) e)
    /\ (forall d, In d ds ->
          exists c, In c cs
                    /\ 0 <= daysBetween (start_date c) d
                    /\ forall e, end_date c = Some e -> 0 <= daysBetween d e).
Proof.
  intros today dayLogs Hwf cs ds. subst cs ds.
  assert (Hvalid : forall l, In l dayLogs -> flow_level l <> FlowNone ->
                             valid_date (log_date l))
    by (intros l Hl Hf; apply (Hwf l Hl Hf)).
  rewrite (rebuildCycles_runs today dayLogs Hvalid).
  pose proof (good_group_runs dayLogs Hvalid) as Hgood.
  pose proof (group_runs_concat (flow_dates dayLogs)) as Hcat.
  set (rs := group_runs (flow_dates dayLogs)) in *.
  split; [|split; [|split; [|split; [|split; [|split]]]]].
  - rewrite cycles_of_runs_length, <- Hcat.
    apply runs_length_le, (runs_not_nil _ Hgood).
  - split; intros E.
    + apply (f_equal (@length _)) in E. rewrite cycles_of_runs_length in E.
      destruct rs; [|discriminate]. rewrite <- Hcat. reflexivity.
    + subst rs. rewrite E. reflexivity.
  - rewrite cycles_of_runs_starts. apply good_runs_starts_sorted, Hgood.
  - apply good_runs_cycles_apart, Hgood.
  - rewrite cycles_of_runs_starts. apply good_runs_start_diffs, Hgood.
  - intros c Hc. apply cycles_of_runs_In in Hc.
    destruct Hc as (r & Hr & Hstart & Hend).
    destruct (good_runs_In rs r Hgood Hr) as (Hne & _ & _ & Hlen & _).
    split.
    + rewrite Hstart, <- Hcat. apply in_concat. exists r.
      split; [exact Hr | apply run_start_In, Hne].
    + intros e He. destruct Hend as [Hend | Hend]; [congruence|].
      rewrite Hend in He. injection He as <-. split.
      * rewrite <- Hcat. apply in_concat. exists r.
        split; [exact Hr | apply run_end_In, Hne].
      * rewrite Hstart. exact Hlen.
  - intros d Hd. rewrite <- Hcat in Hd. apply in_concat in Hd.
    destruct Hd as (r & Hr & Hdr).
    destruct (good_runs_In rs r Hgood Hr) as (_ & _ & _ & _ & Hs & Hv).
    destruct (run_member_between r d Hs Hv Hdr) as [Hlo Hhi].
    destruct (runs_In_cycles today rs r Hr) as (c & Hc & Hstart & Hend).
    exists c. split; [exact Hc|]. split; [rewrite Hstart; exact Hlo|].
    intros e He. destruct Hend as [Hend | Hend]; [congruence|].
    rewrite Hend in He. injection He as <-. exact Hhi.
Qed.

Lemma five_days_well_formed (l : DayLog) :
  In l MoreExamples.five_days -> flow_level l <> FlowNone ->
  well_formed (log_date l).
Proof.
  intros [<- | [<- | [<- | [<- | [<- | []]]]]] _;
    unfold well_formed, valid_date, four_digit_year; cbn; lia.
Qed.

Lemma rebuildCycles_invariants_witness :
  (length (rebuildCycles (mkDate 2024 3 1) MoreExamples.five_days) <= 5)%nat
  /\ cycles_apart (rebuildCycles (mkDate 2024 3 1) MoreExamples.five_days).
Proof.
  destruct (rebuildCycles_invariants (mkDate 2024 3 1) MoreExamples.five_days
              five_days_well_formed) as (Hlen & _ & _ & Hapart & _).
  split; [exact Hlen | exact Hapart].
Defined.

End RebuildStructure.

(* ================================================================== *)
(** * Further properties: [predict], [fertilityWindow], [cycleStats] *)
(* ================================================================== *)

Section PredictMore.

Import Prediction Spec.
Local Open Scope Z_scope.


Lemma four_digit_closed (y m d y' m' d' : Z) :
  1000 <= y <= 9999 -> 1000 <= y' <= 9999 ->
  four_digit_cycle (Examples.closed y m d y' m' d').
Proof.
  intros Hy Hy'. split; [exact Hy|].
  intros e He. injection He as <-. exact Hy'.
Qed.


Lemma march_first_four_digit : Forall four_digit_cycle Examples.march_first.
Proof.
  repeat (apply Forall_cons; [apply four_digit_closed; lia|]).
  apply Forall_nil.
Qed.


(** X8.  On cycles with four-digit years, the dates of a fertility window
    exist and lie in this order of time: the fertile window starts 3 days
    before the peak, the peak starts 2 days before the ovulation day, on
    which both end, and the ovulation day is 14 days before the predicted
    start. *)
Theorem fertilityWindow_order :
  forall (cycles : list Cycle) (pred : PredictionResult) (w : FertilityWindow),
    Forall four_digit_cycle cycles ->
    predict cycles = Some pred ->
    fertilityWindow cycles = Some w ->
    daysBetween (fertile_start w) (peak_start w) = 3
    /\ daysBetween (peak_start w) (ovulation_day w) = 2
    /\ daysBetween (ovulation_day w) (predicted_start pred) = 14
    /\ fertile_end w = ovulation_day w
    /\ peak_end w = ovulation_day w
    /\ valid_date (fertile_start w)
    /\ valid_date (peak_start w)
    /\ valid_date (ovulation_day w).
Proof.
  intros cycles pred w _ Hpred Hw.
  unfold fertilityWindow in Hw. rewrite Hpred in Hw. injection Hw as <-.
  cbn [fertile_start fertile_end ovulation_day peak_start peak_end].
  set (p := predicted_start pred) in *.
  assert (Ho : parseDate (addDays p (-14)) = parseDate p - 14)
    by (unfold addDays; rewrite (proj1 (fmtDate_facts _)); lia).
  assert (Hf : parseDate (addDays (addDays p (-14)) (-5)) = parseDate p - 19)
    by (unfold addDays at 1; rewrite (proj1 (fmtDate_facts _)); lia).
  assert (Hk : parseDate (addDays (addDays p (-14)) (-2)) = parseDate p - 16)
    by (unfold addDays at 1; rewrite (proj1 (fmtDate_facts _)); lia).
  unfold daysBetween.
  split; [lia|]. split; [lia|]. split; [lia|].
  split; [reflexivity|]. split; [reflexivity|].
  split; [|split]; unfold addDays; apply fmtDate_facts.
Qed.

Lemma fertilityWindow_order_witness :
  exists pred w,
    predict Examples.march_first = Some pred
    /\ fertilityWindow Examples.march_first = Some w
    /\ daysBetween (ovulation_day w) (predicted_start pred) = 14.
Proof.
  destruct (predict Examples.march_first) as [pred|] eqn:E;
    [|vm_compute in E; discriminate].
  destruct (fertilityWindow Examples.march_first) as [w|] eqn:Ew;
    [|vm_compute in Ew; discriminate].
  exists pred, w. split; [reflexivity|]. split; [reflexivity|].
  exact (proj1 (proj2 (proj2
           (fertilityWindow_order _ pred w march_first_four_digit E Ew)))).
Defined.

End PredictMore.

Section StatsFacts.

Import Prediction Spec Stats.
Local Open Scope Z_scope.

Lemma last_In {A} (l : list A) (d : A) : l <> [] -> In (last l d) l.
Proof.
  intros Hl. destruct (exists_last Hl) as (l' & x & ->).
  rewrite last_last. apply in_or_app. right. now left.
Qed.

Lemma sorted_last_max {A} (R : A -> A -> Prop) (l : list A) (d x : A) :
  (forall a, R a a) -> StronglySorted R l -> In x l -> R x (last l d).
Proof.
  intros Hrefl Hs Hx.
  assert (Hl : l <> []) by (destruct l; [destruct Hx | discriminate]).
  destruct (exists_last Hl) as (l' & y & ->).
  rewrite last_last. apply in_app_or in Hx.
  destruct Hx as [Hx | [<- | []]]; [|apply Hrefl].
  apply sorted_app in Hs. destruct Hs as (_ & _ & H12).
  apply H12; [exact Hx | now left].
Qed.

Lemma consecutive_diffs_length (ds : list date) :
  length (consecutive_diffs ds) = (length ds - 1)%nat.
Proof.
  induction ds as [|a ds IH]; [reflexivity|].
  destruct ds as [|b ds]; [reflexivity|].
  change (consecutive_diffs (a :: b :: ds))
    with (daysBetween a b :: consecutive_diffs (b :: ds)).
  cbn [length] in *. rewrite IH. lia.
Qed.

(** [cycleStats] over the specification's vocabulary, when there is a
    closed cycle. *)
Lemma cycleStats_unfold (cycles : list Cycle) :
  closed_cycles cycles <> [] ->
  cycleStats cycles =
  let closed := closed_cycles cycles in
  let cycleLengths := consecutive_diffs (map start_date closed) in
  let two := (2 <=? length closed)%nat in
  mkStats (length closed)
          (if two then Some (mean cycleLengths) else None)
          (Some (mean (map period_length closed)))
          (if two then Some (Math_min_all cycleLengths) else None)
          (if two then Some (Math_max_all cycleLengths) else None)
          (Some (start_date (last closed no_cycle)))
          (end_date (last closed no_cycle)).
Proof.
  intros Hne. unfold cycleStats. fold (closed_cycles cycles). cbv zeta.
  rewrite index_loop_diffs, at_index_last, length_map.
  rewrite consecutive_diffs_length, length_map.
  destruct (closed_cycles cycles) as [|a [|b l]]; [congruence | reflexivity..].
Qed.

Lemma cycleStats_empty (cycles : list Cycle) :
  closed_cycles cycles = [] ->
  cycleStats cycles = mkStats 0 None None None None None None.
Proof.
  intros E. unfold cycleStats. fold (closed_cycles cycles). rewrite E.
  reflexivity.
Qed.

Lemma fold_min_le (l : list Z) (x : Z) :
  fold_left Z.min l x <= x /\ Forall (fun y => fold_left Z.min l x <= y) l
  /\ In (fold_left Z.min l x) (x :: l).
Proof.
  revert x. induction l as [|y l IH]; intros x; cbn [fold_left].
  - split; [lia|]. split; [constructor | now left].
  - destruct (IH (Z.min x y)) as (H1 & H2 & H3).
    split; [lia|]. split.
    + constructor; [lia | exact H2].
    + destruct H3 as [H3 | H3]; [|right; now right].
      rewrite <- H3. destruct (Z.min_spec x y) as [[_ E] | [_ E]]; rewrite E.
      * now left.
      * right. now left.
Qed.

Lemma fold_max_ge (l : list Z) (x : Z) :
  x <= fold_left Z.max l x /\ Forall (fun y => y <= fold_left Z.max l x) l
  /\ In (fold_left Z.max l x) (x :: l).
Proof.
  revert x. induction l as [|y l IH]; intros x; cbn [fold_left].
  - split; [lia|]. split; [constructor | now left].
  - destruct (IH (Z.max x y)) as (H1 & H2 & H3).
    split; [lia|]. split.
    + constructor; [lia | exact H2].
    + destruct H3 as [H3 | H3]; [|right; now right].
      rewrite <- H3. destruct (Z.max_spec x y) as [[_ E] | [_ E]]; rewrite E.
      * right. now left.
      * now left.
Qed.

Lemma by_start_refl (c : Cycle) : cmp_le by_start c c.
Proof.
  unfold cmp_le, by_start.
  rewrite (proj2 (date_compare_eq _ _) eq_refl). discriminate.
Qed.

Lemma list_eq_dec_nil {A} (l : list A) : {l = []} + {l <> []}.
Proof. destruct l; [now left | right; discriminate]. Qed.

Lemma filter_closed_idem (cycles : list Cycle) :
  filter is_closed (filter is_closed cycles) = filter is_closed cycles.
Proof.
  induction cycles as [|c cs IH]; [reflexivity|].
  cbn. destruct (is_closed c) eqn:Ec; [|exact IH].
  cbn. rewrite Ec, IH. reflexivity.
Qed.

(** X9.  [cycleStats] counts the closed cycles and reads nothing else:
    the cycle-length fields are present iff there are at least 2 closed
    cycles, the period-length and last-period fields iff there is at
    least 1; the last period is a closed cycle of the input whose start
    no other closed cycle's start exceeds, and its end is never [null]. *)
Theorem cycleStats_fields :
  forall (cycles : list Cycle),
    let stats := cycleStats cycles in
    let n := length (filter is_closed cycles) in
    total_cycles stats = n
    /\ (avg_cycle_length stats <> None <-> (2 <= n)%nat)
    /\ (shortest_cycle stats <> None <-> (2 <= n)%nat)
    /\ (longest_cycle stats <> None <-> (2 <= n)%nat)
    /\ (avg_period_length stats <> None <-> (1 <= n)%nat)
    /\ (last_period_start stats <> None <-> (1 <= n)%nat)
    /\ (last_period_end stats <> None <-> (1 <= n)%nat)
    /\ (forall s, last_period_start stats = Some s ->
          exists c e, In c cycles /\ start_date c = s
                      /\ end_date c = Some e
                      /\ last_period_end stats = Some e
                      /\ forall c', In c' cycles -> end_date c' <> None ->
                                    date_compare (start_date c') s <> Gt)
    /\ cycleStats (filter is_closed cycles) = cycleStats cycles.
Proof.
  intros cycles stats n. subst stats n.
  rewrite <- closed_cycles_length.
  assert (Hidem : cycleStats (filter is_closed cycles) = cycleStats cycles).
  { unfold cycleStats. rewrite filter_closed_idem. reflexivity. }
  rewrite Hidem. clear Hidem.
  destruct (list_eq_dec_nil (closed_cycles cycles)) as [E | Hne].
  - rewrite (cycleStats_empty cycles E), E. cbn.
    repeat match goal with |- _ /\ _ => split end;
      try reflexivity; try (split; [congruence | lia]); try discriminate.
  - assert (Hn1 : (1 <= length (closed_cycles cycles))%nat).
    { destruct (closed_cycles cycles); [congruence | cbn; lia]. }
    pose proof (last_In _ no_cycle Hne) as Hin.
    apply closed_cycles_In in Hin. destruct Hin as [Hin Hclosed].
    destruct (end_date (last (closed_cycles cycles) no_cycle)) as [e|] eqn:He;
      [|congruence].
    rewrite (cycleStats_unfold cycles Hne). cbv zeta.
    cbn [total_cycles avg_cycle_length avg_period_length shortest_cycle
         longest_cycle last_period_start last_period_end].
    rewrite He.
    assert (Htwo : forall (A : Type) (x : A),
               (if (2 <=? length (closed_cycles cycles))%nat then Some x else None)
               <> None <-> (2 <= length (closed_cycles cycles))%nat).
    { intros A x. destruct (Nat.leb_spec 2 (length (closed_cycles cycles)));
        split; intros; try congruence; try lia; discriminate. }
    split; [reflexivity|]. split; [apply Htwo|]. split; [apply Htwo|].
    split; [apply Htwo|].
    split; [split; intros; [lia | discriminate]|].
    split; [split; intros; [lia | discriminate]|].
    split; [split; intros; [lia | discriminate]|].
    split; [|reflexivity].
    intros s Hs. injection Hs as <-.
    exists (last (closed_cycles cycles) no_cycle), e.
    split; [exact Hin|]. split; [reflexivity|]. split; [exact He|].
    split; [reflexivity|].
    intros c' Hc' Hc'closed.
    apply (sorted_last_max (cmp_le by_start) (closed_cycles cycles) no_cycle c'
             by_start_refl (closed_cycles_sorted cycles)).
    apply closed_cycles_In. split; assumption.
Qed.

Lemma cycleStats_shortest (cycles : list Cycle) (lo : Z) :
  shortest_cycle (cycleStats cycles) = Some lo ->
  let diffs := consecutive_diffs (map start_date (closed_cycles cycles)) in
  In lo diffs /\ Forall (fun gap => lo <= gap) diffs.
Proof.
  intros Hlo diffs. subst diffs.
  destruct (list_eq_dec_nil (closed_cycles cycles)) as [E | Hne].
  { rewrite (cycleStats_empty cycles E) in Hlo. discriminate. }
  rewrite (cycleStats_unfold cycles Hne) in Hlo. cbv zeta in Hlo.
  cbn [shortest_cycle] in Hlo.
  destruct (closed_cycles cycles) as [|a [|b l]];
    [congruence | discriminate Hlo |].
  change (2 <=? length (a :: b :: l))%nat with true in Hlo.
  change (consecutive_diffs (map start_date (a :: b :: l)))
    with (daysBetween (start_date a) (start_date b)
          :: consecutive_diffs (map start_date (b :: l))) in *.
  cbn [Math_min_all] in Hlo. injection Hlo as <-.
  destruct (fold_min_le (consecutive_diffs (map start_date (b :: l)))
                        (daysBetween (start_date a) (start_date b)))
    as (Hm1 & Hm2 & Hm3).
  split; [exact Hm3|]. constructor; [exact Hm1 | exact Hm2].
Qed.

Lemma cycleStats_longest (cycles : list Cycle) (hi : Z) :
  longest_cycle (cycleStats cycles) = Some hi ->
  let diffs := consecutive_diffs (map start_date (closed_cycles cycles)) in
  In hi diffs /\ Forall (fun gap => gap <= hi) diffs.
Proof.
  intros Hhi diffs. subst diffs.
  destruct (list_eq_dec_nil (closed_cycles cycles)) as [E | Hne].
  { rewrite (cycleStats_empty cycles E) in Hhi. discriminate. }
  rewrite (cycleStats_unfold cycles Hne) in Hhi. cbv zeta in Hhi.
  cbn [longest_cycle] in Hhi.
  destruct (closed_cycles cycles) as [|a [|b l]];
    [congruence | discriminate Hhi |].
  change (2 <=? length (a :: b :: l))%nat with true in Hhi.
  change (consecutive_diffs (map start_date (a :: b :: l)))
    with (daysBetween (start_date a) (start_date b)
          :: consecutive_diffs (map start_date (b :: l))) in *.
  cbn [Math_max_all] in Hhi. injection Hhi as <-.
  destruct (fold_max_ge (consecutive_diffs (map start_date (b :: l)))
                        (daysBetween (start_date a) (start_date b)))
    as (Hm1 & Hm2 & Hm3).
  split; [exact Hm3|]. constructor; [exact Hm1 | exact Hm2].
Qed.

(** X10.  The shortest and the longest cycle of the statistics are both
    among the day differences between consecutive closed cycle starts, and
    every such difference lies between them. *)
Theorem cycleStats_bounds :
  forall (cycles : list Cycle) (lo hi : Z),
    shortest_cycle (cycleStats cycles) = Some lo ->
    longest_cycle (cycleStats cycles) = Some hi ->
    let diffs := consecutive_diffs (map start_date (closed_cycles cycles)) in
    lo <= hi /\ In lo diffs /\ In hi diffs
    /\ Forall (fun gap => lo <= gap <= hi) diffs.
Proof.
  intros cycles lo hi Hlo Hhi diffs. subst diffs.
  destruct (cycleStats_shortest cycles lo Hlo) as [Hinlo Hall_lo].
  destruct (cycleStats_longest cycles hi Hhi) as [Hinhi Hall_hi].
  rewrite Forall_forall in Hall_lo, Hall_hi.
  split; [exact (Hall_lo hi Hinhi)|].
  split; [exact Hinlo|]. split; [exact Hinhi|].
  apply Forall_forall. intros x Hx.
  split; [exact (Hall_lo x Hx) | exact (Hall_hi x Hx)].
Qed.

Lemma cycleStats_bounds_witness :
  In 28 (consecutive_diffs (map start_date (closed_cycles Examples.regular)))
  /\ Forall (fun gap => 28 <= gap <= 28)
            (consecutive_diffs (map start_date (closed_cycles Examples.regular))).
Proof.
  destruct (cycleStats_bounds Examples.regular 28 28 eq_refl eq_refl)
    as (_ & Hin & _ & Hall).
  split; [exact Hin | exact Hall].
Defined.

End StatsFacts.

Section StatsAndPredict.

Import Prediction Spec Stats Invariants.
Local Open Scope Z_scope.

Lemma most_recent_all {A} (k : nat) (l : list A) :
  (length l <= k)%nat -> most_recent k l = l.
Proof.
  intros H. unfold most_recent.
  rewrite firstn_all2 by (rewrite length_rev; exact H).
  apply rev_involutive.
Qed.

(** X11.  The statistics screen shows statistics exactly when there is a
    prediction; and with at most 6 closed cycles the two agree: the
    predicted start is the last period start of the statistics plus the
    rounded average cycle length, and the predicted period is as long as
    the rounded average period length. *)
Theorem cycleStats_agrees_with_predict :
  forall (cycles : list Cycle),
    (hasStats (cycleStats cycles) = true <-> predict cycles <> None)
    /\ (forall pred,
          predict cycles = Some pred ->
          (length (filter is_closed cycles) <= 6)%nat ->
          exists avgCycle avgPeriod lastStart,
            avg_cycle_length (cycleStats cycles) = Some avgCycle
            /\ avg_period_length (cycleStats cycles) = Some avgPeriod
            /\ last_period_start (cycleStats cycles) = Some lastStart
            /\ predicted_start pred = addDays lastStart (Math_round avgCycle)
            /\ predicted_end pred
               = addDays (predicted_start pred)
                         (Z.max 0 (Math_round avgPeriod - 1))).
Proof.
  intros cycles.
  pose proof (predict_none_iff cycles) as Hnone.
  rewrite <- closed_cycles_length in Hnone.
  split.
  - destruct (list_eq_dec_nil (closed_cycles cycles)) as [E | Hne].
    + rewrite (cycleStats_empty cycles E). rewrite E in Hnone. cbn in *.
      split; [discriminate|]. intros H. exfalso. apply H, Hnone. lia.
    + rewrite (cycleStats_unfold cycles Hne). cbv zeta.
      unfold hasStats. cbn [total_cycles avg_cycle_length].
      destruct (Nat.leb_spec 2 (length (closed_cycles cycles))) as [H2 | H2].
      * split; [|reflexivity]. intros _ Hp. apply Hnone in Hp. lia.
      * split; [discriminate|]. intros H. exfalso. apply H, Hnone, H2.
  - intros pred Hpred Hlen. rewrite <- closed_cycles_length in Hlen.
    assert (H2 : (2 <= length (closed_cycles cycles))%nat).
    { destruct (Nat.le_gt_cases 2 (length (closed_cycles cycles))) as [H|H];
        [exact H|].
      apply Hnone in H. congruence. }
    assert (Hne : closed_cycles cycles <> []).
    { destruct (closed_cycles cycles); [cbn in H2; lia | discriminate]. }
    rewrite (cycleStats_unfold cycles Hne). cbv zeta.
    cbn [avg_cycle_length avg_period_length last_period_start].
    apply Nat.leb_le in H2. rewrite H2.
    rewrite predict_unfold in Hpred. cbv zeta in Hpred.
    apply Nat.leb_le in H2.
    destruct (Nat.ltb_spec (length (closed_cycles cycles)) 2); [lia|].
    rewrite (most_recent_all 6 _ Hlen) in Hpred.
    injection Hpred as <-. cbn [predicted_start predicted_end].
    eexists _, _, _.
    split; [reflexivity|]. split; [reflexivity|]. split; [reflexivity|].
    split; reflexivity.
Qed.

Lemma cycleStats_agrees_with_predict_witness :
  hasStats (cycleStats Examples.regular) = true
  /\ hasStats (cycleStats Examples.single) = false.
Proof.
  split.
  - apply (proj1 (cycleStats_agrees_with_predict Examples.regular)).
    vm_compute. discriminate.
  - destruct (hasStats (cycleStats Examples.single)) eqn:E; [|reflexivity].
    apply (proj1 (cycleStats_agrees_with_predict Examples.single)) in E.
    exfalso. apply E. vm_compute. reflexivity.
Defined.

Lemma sort_sorted_id {A} (cmp : A -> A -> comparison) (l : list A) :
  StronglySorted (fun a b => cmp a b = Lt) l -> sort cmp l = l.
Proof.
  induction 1 as [|x l Hs IH Hall]; [reflexivity|].
  cbn [sort fold_right]. fold (sort cmp l). rewrite IH.
  destruct l as [|y l]; [reflexivity|].
  cbn [insert]. rewrite (Forall_inv Hall). reflexivity.
Qed.

Lemma sorted_impl {A} (R R' : A -> A -> Prop) (l : list A) :
  (forall a b, R a b -> R' a b) -> StronglySorted R l -> StronglySorted R' l.
Proof.
  intros Himp. induction 1 as [|x l Hs IH Hall]; constructor; [exact IH|].
  eapply Forall_impl; [|exact Hall]. intros y. apply Himp.
Qed.

Lemma skipn_sorted {A} (R : A -> A -> Prop) (k : nat) (l : list A) :
  StronglySorted R l -> StronglySorted R (skipn k l).
Proof.
  intros H. rewrite <- (firstn_skipn k l) in H.
  apply sorted_app in H. tauto.
Qed.

Lemma well_apart_diffs (l : list Cycle) :
  StronglySorted well_apart l ->
  Forall (fun gap => 3 <= gap) (consecutive_diffs (map start_date l)).
Proof.
  induction 1 as [|a l Hs IH Hall]; [constructor|].
  destruct l as [|b l]; [constructor|].
  change (consecutive_diffs (map start_date (a :: b :: l)))
    with (daysBetween (start_date a) (start_date b)
          :: consecutive_diffs (map start_date (b :: l))).
  constructor; [exact (proj2 (Forall_inv Hall)) | exact IH].
Qed.

Lemma starts_well_apart (l : list Cycle) :
  StronglySorted date_lt (map start_date l) ->
  Forall (fun gap => 3 <= gap) (consecutive_diffs (map start_date l)) ->
  StronglySorted well_apart l.
Proof.
  induction l as [|a l IH]; intros Hs Hd; [constructor|].
  cbn [map] in Hs. apply StronglySorted_inv in Hs. destruct Hs as [Hs Ha].
  assert (Hd' : Forall (fun gap => 3 <= gap) (consecutive_diffs (map start_date l))).
  { destruct l as [|b l]; [constructor|]. exact (Forall_inv_tail Hd). }
  specialize (IH Hs Hd').
  constructor; [exact IH|].
  destruct l as [|b l]; [constructor|].
  assert (Hab : well_apart a b).
  { split; [exact (Forall_inv Ha) | exact (Forall_inv Hd)]. }
  constructor; [exact Hab|].
  apply StronglySorted_inv in IH. destruct IH as [_ Hb].
  rewrite Forall_forall in *. intros c Hc.
  destruct (Hb c Hc) as [Hbc Hgap]. destruct Hab as [Hab Hgab].
  split.
  - apply Ha. right. apply in_map. exact Hc.
  - unfold daysBetween in *. lia.
Qed.

(** X12.  Cycles rebuilt from day logs feed [predict] and [cycleStats]
    with cycle lengths of at least 3 days: the closed ones are already in
    ascending order of start, and the starts of any two of them are at
    least 3 days apart.  A zero mean cycle length cannot arise from
    them. *)
Theorem rebuilt_cycle_lengths :
  forall (today : date) (dayLogs : list DayLog),
    (forall l, In l dayLogs -> flow_level l <> FlowNone ->
               well_formed (log_date l)) ->
    let cs := rebuildCycles today dayLogs in
    closed_cycles cs = filter is_closed cs
    /\ Forall (fun gap => 3 <= gap)
              (consecutive_diffs (map start_date (most_recent 6 (closed_cycles cs))))
    /\ Forall (fun gap => 3 <= gap)
              (consecutive_diffs (map start_date (closed_cycles cs)))
    /\ (forall lo, shortest_cycle (cycleStats cs) = Some lo -> 3 <= lo).
Proof.
  intros today dayLogs Hwf cs.
  assert (Hvalid : forall l, In l dayLogs -> flow_level l <> FlowNone ->
                             valid_date (log_date l))
    by (intros l Hl Hf; apply (Hwf l Hl Hf)).
  assert (Hapart : StronglySorted well_apart cs).
  { subst cs. rewrite (rebuildCycles_runs today dayLogs Hvalid).
    pose proof (good_group_runs dayLogs Hvalid) as Hgood.
    apply starts_well_apart; rewrite cycles_of_runs_starts.
    - apply good_runs_starts_sorted, Hgood.
    - apply good_runs_start_diffs, Hgood. }
  assert (Hclosed : StronglySorted well_apart (filter is_closed cs))
    by (apply filter_sorted, Hapart).
  assert (Hid : closed_cycles cs = filter is_closed cs).
  { unfold closed_cycles. apply sort_sorted_id.
    apply (sorted_impl well_apart); [|exact Hclosed].
    intros a b [H _]. exact H. }
  split; [exact Hid|]. rewrite Hid.
  assert (Hall : Forall (fun gap => 3 <= gap)
                        (consecutive_diffs (map start_date (filter is_closed cs))))
    by (apply well_apart_diffs, Hclosed).
  split; [|split; [exact Hall|]].
  - rewrite <- slice_last_most_recent. unfold slice_last.
    apply well_apart_diffs, skipn_sorted, Hclosed.
  - intros lo Hlo.
    destruct (cycleStats_shortest cs lo Hlo) as [Hin _].
    rewrite Hid in Hin. rewrite Forall_forall in Hall. apply Hall, Hin.
Qed.

Lemma rebuilt_cycle_lengths_witness :
  Forall (fun gap => 3 <= gap)
         (consecutive_diffs
            (map start_date
                 (closed_cycles (rebuildCycles (mkDate 2024 3 10)
                                               MoreExamples.five_days)))).
Proof.
  exact (proj1 (proj2 (proj2
           (rebuilt_cycle_lengths (mkDate 2024 3 10) MoreExamples.five_days
              five_days_well_formed)))).
Defined.

End StatsAndPredict.

(* ================================================================== *)
(** * Further properties: the vault codec *)
(* ================================================================== *)

Section CodecMore.

Import Crypto.
Local Open Scope async_scope.

Variable key : Type.
Variable pbkdf2 : string -> bytes -> key.
Variable aes_gcm_encrypt : key -> bytes -> bytes -> bytes.
Variable aes_gcm_decrypt : key -> bytes -> bytes -> option bytes.

Local Abbreviation encrypt := (Crypto.encrypt pbkdf2 aes_gcm_encrypt).
Local Abbreviation decrypt := (Crypto.decrypt pbkdf2 aes_gcm_decrypt).

Lemma MAGIC_bytes : MAGIC = [x43; x59; x4b; x45; x4c; x5f; x56; x31].
Proof. reflexivity. Qed.

Lemma byte_eqb_eq (a b : byte) : Byte.eqb a b = true -> a = b.
Proof. apply Byte.byte_dec_bl. Qed.

(** The marker check passes only on bytes that start with the marker. *)
Lemma magic_matches_inv (d : bytes) :
  magic_matches d = true -> d = MAGIC ++ slice_from (length MAGIC) d.
Proof.
  unfold magic_matches. rewrite MAGIC_bytes.
  cbn [length seq forallb nth_error].
  destruct d as [|b0 [|b1 [|b2 [|b3 [|b4 [|b5 [|b6 [|b7 rest]]]]]]]];
    cbn [nth_error andb]; try discriminate;
    try (rewrite ?andb_false_r; discriminate).
  rewrite !andb_true_iff.
  intros (H0 & H1 & H2 & H3 & H4 & H5 & H6 & H7 & _).
  apply byte_eqb_eq in H0, H1, H2, H3, H4, H5, H6, H7. subst.
  reflexivity.
Qed.

(** [decrypt] in one piece: the guard, then what AES-GCM returned. *)
Lemma decrypt_cases (passphrase : string) (envelope : bytes) :
  decrypt passphrase envelope =
  if length envelope <? SALT_LEN + IV_LEN + length MAGIC then
    ([], Rejected CorruptData)
  else
    ([CallDeriveKey; CallDecrypt],
     match aes_gcm_decrypt
             (pbkdf2 passphrase (slice 0 SALT_LEN envelope))
             (slice SALT_LEN (SALT_LEN + IV_LEN) envelope)
             (slice_from (SALT_LEN + IV_LEN) envelope) with
     | None => Rejected WrongPassphrase
     | Some d =>
         if magic_matches d then Resolved (slice_from (length MAGIC) d)
         else Rejected WrongPassphrase
     end).
Proof.
  unfold Crypto.decrypt.
  destruct (length envelope <? SALT_LEN + IV_LEN + length MAGIC);
    [reflexivity|].
  unfold deriveKey, subtle_decrypt, catch_throw, bind, issue, ret, throw.
  destruct (aes_gcm_decrypt _ _ _) as [d|];
    [destruct (magic_matches d)|]; reflexivity.
Qed.

(** X13.  [decrypt] resolves only on an envelope of at least 52 bytes
    whose ciphertext AES-GCM accepts, under the key derived from the
    passphrase and the salt of the envelope and with the nonce of the
    envelope, as the marker followed by exactly the bytes returned. *)
Theorem decrypt_resolves_only_marked :
  forall (passphrase : string) (envelope plaintext : bytes),
    settled (decrypt passphrase envelope) = Resolved plaintext ->
    52 <= length envelope
    /\ aes_gcm_decrypt
         (pbkdf2 passphrase (slice 0 SALT_LEN envelope))
         (slice SALT_LEN (SALT_LEN + IV_LEN) envelope)
         (slice_from (SALT_LEN + IV_LEN) envelope)
       = Some (MAGIC ++ plaintext).
Proof.
  intros passphrase envelope plaintext H.
  rewrite decrypt_cases in H.
  destruct (Nat.ltb_spec (length envelope) (SALT_LEN + IV_LEN + length MAGIC))
    as [Hlt | Hge]; [discriminate H|].
  split; [exact Hge|].
  cbn [settled snd] in H.
  destruct (aes_gcm_decrypt _ _ _) as [d|]; [|discriminate H].
  destruct (magic_matches d) eqn:Hm; [|discriminate H].
  injection H as <-. f_equal. apply magic_matches_inv, Hm.
Qed.

(** X14.  Whatever the passphrase and the envelope, [decrypt] ends in one
    of three ways: the plaintext, [CorruptData] or [WrongPassphrase]; the
    rejection of AES-GCM itself never gets out.  [CorruptData] is the
    answer exactly for envelopes shorter than 52 bytes, which cost no call
    into the Web Crypto API; every other envelope costs one key derivation
    followed by one decryption. *)
Theorem decrypt_outcomes :
  forall (passphrase : string) (envelope : bytes),
    settled (decrypt passphrase envelope) <> Rejected OperationError
    /\ (settled (decrypt passphrase envelope) = Rejected CorruptData
        <-> length envelope < 52)
    /\ (calls (decrypt passphrase envelope) = [] <-> length envelope < 52)
    /\ (52 <= length envelope ->
        calls (decrypt passphrase envelope) = [CallDeriveKey; CallDecrypt]).
Proof.
  intros passphrase envelope. rewrite decrypt_cases.
  change (SALT_LEN + IV_LEN + length MAGIC) with 52.
  destruct (Nat.ltb_spec (length envelope) 52) as [Hlt | Hge];
    cbn [settled calls fst snd].
  - split; [discriminate|]. split; [tauto|]. split; [tauto|]. lia.
  - split; [|split; [|split]].
    + destruct (aes_gcm_decrypt _ _ _) as [d|];
        [destruct (magic_matches d)|]; discriminate.
    + split; [|lia].
      destruct (aes_gcm_decrypt _ _ _) as [d|];
        [destruct (magic_matches d)|]; discriminate.
    + split; [discriminate | lia].
    + reflexivity.
Qed.

(** X15.  [encrypt] always resolves, after one key derivation and one
    encryption, to an envelope that is 44 bytes longer than the
    ciphertext and from which the three slices of [decrypt] read back the
    salt, the nonce and the ciphertext. *)
Theorem encrypt_layout :
  forall (salt iv : bytes) (passphrase : string) (plaintext : bytes),
    length salt = SALT_LEN -> length iv = IV_LEN ->
    exists envelope,
      encrypt salt iv passphrase plaintext
      = ([CallDeriveKey; CallEncrypt], Resolved envelope)
      /\ slice 0 SALT_LEN envelope = salt
      /\ slice SALT_LEN (SALT_LEN + IV_LEN) envelope = iv
      /\ slice_from (SALT_LEN + IV_LEN) envelope
         = aes_gcm_encrypt (pbkdf2 passphrase salt) iv (MAGIC ++ plaintext)
      /\ length envelope = 44 + length (slice_from (SALT_LEN + IV_LEN) envelope).
Proof.
  intros salt iv passphrase plaintext Hs Hi.
  eexists. split; [apply encrypt_envelope|].
  rewrite slice_salt, slice_iv, slice_ciphertext by assumption.
  repeat split. rewrite !length_app, Hs, Hi. reflexivity.
Qed.

End CodecMore.

Lemma decrypt_resolves_only_marked_witness :
  RefCipher.aes_gcm_decrypt
    (RefCipher.pbkdf2 "correct horse"%string Examples.salt0) Examples.iv0
    (RefCipher.aes_gcm_encrypt "correct horse"%string Examples.iv0
       (Crypto.MAGIC ++ Examples.hello))
  = Some (Crypto.MAGIC ++ Examples.hello).
Proof.
  refine (proj2 (decrypt_resolves_only_marked
                   RefCipher.key RefCipher.pbkdf2 RefCipher.aes_gcm_decrypt
                   "correct horse"%string
                   (Examples.salt0 ++ Examples.iv0 ++
                    RefCipher.aes_gcm_encrypt "correct horse"%string Examples.iv0
                      (Crypto.MAGIC ++ Examples.hello))
                   Examples.hello _)).
  vm_compute. reflexivity.
Defined.

Lemma encrypt_layout_witness :
  exists envelope,
    RefCipher.encrypt Examples.salt0 Examples.iv0 "correct horse"%string Examples.hello
    = ([Crypto.CallDeriveKey; Crypto.CallEncrypt], Crypto.Resolved envelope)
    /\ Crypto.slice 0 Crypto.SALT_LEN envelope = Examples.salt0.
Proof.
  destruct (encrypt_layout RefCipher.key RefCipher.pbkdf2
              RefCipher.aes_gcm_encrypt Examples.salt0 Examples.iv0
              "correct horse"%string Examples.hello eq_refl eq_refl)
    as (envelope & He & Hs & _).
  exists envelope. split; assumption.
Defined.

(** ** Decrypting with another passphrase *)

Section KeyDerivation.

Import Crypto Pbkdf2.
Local Open Scope async_scope.

Variable sha256 : bytes -> bytes.
Variable key : Type.
Variable prf : bytes -> bytes -> key.
Variable aes_gcm_encrypt : key -> bytes -> bytes -> bytes.
Variable aes_gcm_decrypt : key -> bytes -> bytes -> option bytes.

Hypothesis aes_gcm_correct :
  forall k iv p, aes_gcm_decrypt k iv (aes_gcm_encrypt k iv p) = Some p.
Hypothesis aes_gcm_length :
  forall k iv p, length p <= length (aes_gcm_encrypt k iv p).

Local Abbreviation pbkdf2 := (Pbkdf2.pbkdf2 sha256 prf).
Local Abbreviation encrypt := (Crypto.encrypt pbkdf2 aes_gcm_encrypt).
Local Abbreviation decrypt := (Crypto.decrypt pbkdf2 aes_gcm_decrypt).

Lemma list_byte_of_string_app (s1 s2 : string) :
  list_byte_of_string (s1 ++ s2)
  = list_byte_of_string s1 ++ list_byte_of_string s2.
Proof.
  unfold list_byte_of_string.
  induction s1 as [|c s1 IH]; [reflexivity|].
  cbn [String.append list_ascii_of_string map app]. rewrite IH. reflexivity.
Qed.

Lemma string_length_bytes (s : string) :
  length (list_byte_of_string s) = String.length s.
Proof.
  unfold list_byte_of_string.
  induction s as [|c s IH]; [reflexivity|].
  cbn [list_ascii_of_string map length String.length]. rewrite IH. reflexivity.
Qed.

Lemma with_nul_differs (p : string) : p <> with_nul p.
Proof.
  intros E. apply (f_equal (fun s => length (list_byte_of_string s))) in E.
  unfold with_nul in E.
  rewrite list_byte_of_string_app, length_app in E.
  cbn [list_byte_of_string list_ascii_of_string map length] in E. lia.
Qed.

(** A zero byte after a key that does not fill the block is the first
    byte of the padding. *)
Lemma key_block_nul (k : bytes) :
  length k < HMAC_BLOCK ->
  hmac_key_block sha256 (k ++ [x00]) = hmac_key_block sha256 k.
Proof.
  intros Hk. unfold hmac_key_block.
  assert (H1 : (HMAC_BLOCK <? length (k ++ [x00])) = false)
    by (apply Nat.ltb_ge; rewrite length_app; cbn [length]; lia).
  assert (H2 : (HMAC_BLOCK <? length k) = false) by (apply Nat.ltb_ge; lia).
  rewrite H1, H2. cbv zeta. rewrite length_app, <- app_assoc. cbn [length app].
  replace (HMAC_BLOCK - length k) with (S (HMAC_BLOCK - (length k + 1))) by lia.
  reflexivity.
Qed.

Lemma pbkdf2_with_nul (p : string) (salt : bytes) :
  String.length p < HMAC_BLOCK ->
  pbkdf2 (with_nul p) salt = pbkdf2 p salt.
Proof.
  intros Hp. unfold Pbkdf2.pbkdf2, with_nul.
  rewrite list_byte_of_string_app.
  change (list_byte_of_string (String Ascii.zero EmptyString)) with [x00].
  rewrite key_block_nul by (rewrite string_length_bytes; exact Hp).
  reflexivity.
Qed.

(** With a key derivation built on HMAC, a passphrase of fewer than 64
    bytes and the same passphrase followed by U+0000 are two passphrases
    with one key: the second decrypts what the first encrypted. *)
Lemma with_nul_decrypts (salt iv : bytes) (p : string) (plaintext : bytes) :
  length salt = SALT_LEN -> length iv = IV_LEN ->
  String.length p < HMAC_BLOCK ->
  p <> with_nul p
  /\ settled (envelope <- encrypt salt iv p plaintext ;;
              decrypt (with_nul p) envelope)
     = Resolved plaintext.
Proof.
  intros Hs Hi Hp. split; [apply with_nul_differs|].
  rewrite (encrypt_envelope key pbkdf2 aes_gcm_encrypt). unfold bind.
  rewrite (decrypt_envelope key pbkdf2 aes_gcm_decrypt)
    by (assumption || apply ciphertext_length, aes_gcm_length).
  cbn [settled snd].
  rewrite (pbkdf2_with_nul p salt Hp), aes_gcm_correct.
  rewrite magic_matches_prefix, strip_magic. reflexivity.
Qed.

End KeyDerivation.

Section NoOracle.

Import Crypto.
Local Open Scope async_scope.

Variable key : Type.
Variable pbkdf2 : string -> bytes -> key.
Variable aes_gcm_encrypt : key -> bytes -> bytes -> bytes.
Variable aes_gcm_decrypt : key -> bytes -> bytes -> option bytes.

Hypothesis aes_gcm_correct :
  forall k iv p, aes_gcm_decrypt k iv (aes_gcm_encrypt k iv p) = Some p.
Hypothesis aes_gcm_length :
  forall k iv p, length p <= length (aes_gcm_encrypt k iv p).

Local Abbreviation encrypt := (Crypto.encrypt pbkdf2 aes_gcm_encrypt).
Local Abbreviation decrypt := (Crypto.decrypt pbkdf2 aes_gcm_decrypt).

(** The marker check fails exactly on bytes that do not begin with the
    marker. *)
Lemma magic_matches_false (d : bytes) :
  (forall rest, d <> MAGIC ++ rest) -> magic_matches d = false.
Proof.
  intros H. destruct (magic_matches d) eqn:E; [|reflexivity].
  exfalso. exact (H _ (magic_matches_inv d E)).
Qed.

(** What decrypting with [p2] an envelope made with [p1] comes to. *)
Lemma decrypt_after_encrypt (salt iv : bytes) (p1 p2 : string) (plaintext : bytes) :
  length salt = SALT_LEN -> length iv = IV_LEN ->
  (envelope <- encrypt salt iv p1 plaintext ;; decrypt p2 envelope)
  = ([CallDeriveKey; CallEncrypt; CallDeriveKey; CallDecrypt],
     match aes_gcm_decrypt (pbkdf2 p2 salt) iv
             (aes_gcm_encrypt (pbkdf2 p1 salt) iv (MAGIC ++ plaintext)) with
     | None => Rejected WrongPassphrase
     | Some d =>
         if magic_matches d then Resolved (slice_from (length MAGIC) d)
         else Rejected WrongPassphrase
     end).
Proof.
  intros Hs Hi.
  rewrite (encrypt_envelope key pbkdf2 aes_gcm_encrypt). unfold bind.
  rewrite (decrypt_envelope key pbkdf2 aes_gcm_decrypt)
    by (assumption || apply ciphertext_length, aes_gcm_length).
  reflexivity.
Qed.

(** C2, as the claim states it, fails: the passphrases ["p"] and ["p"]
    followed by U+0000 are distinct, yet the second decrypts what the
    first encrypted.  HMAC pads both to the same key block, so that PBKDF2
    derives one key from the two; [with_nul_decrypts] shows it for every
    key derivation of that shape and every AES-GCM, and this is its
    instance on the reference primitives. *)
Lemma decrypt_with_nul_resolves :
  "p"%string <> Pbkdf2.with_nul "p"
  /\ settled (envelope <- RefPbkdf2.encrypt Examples.salt0 Examples.iv0 "p"
                                            Examples.hello ;;
              RefPbkdf2.decrypt (Pbkdf2.with_nul "p") envelope)
     = Resolved Examples.hello
  /\ settled (envelope <- RefPbkdf2.encrypt Examples.salt0 Examples.iv0 "p"
                                            Examples.hello ;;
              RefPbkdf2.decrypt (Pbkdf2.with_nul "p") envelope)
     <> Rejected WrongPassphrase.
Proof.
  destruct (with_nul_decrypts RefPbkdf2.hash32 RefCipher.key RefPbkdf2.prf
              RefCipher.aes_gcm_encrypt RefCipher.aes_gcm_decrypt
              ref_correct ref_length
              Examples.salt0 Examples.iv0 "p"%string Examples.hello
              eq_refl eq_refl) as [Hne Hres].
  - unfold Pbkdf2.HMAC_BLOCK. cbn [String.length]. lia.
  - split; [exact Hne|]. split; [exact Hres|].
    unfold RefPbkdf2.encrypt, RefPbkdf2.decrypt, RefPbkdf2.pbkdf2.
    rewrite Hres. discriminate.
Qed.

(** C2 (amended).  Decrypting with a passphrase [p2] what was encrypted
    with [p1] issues the same Web Crypto calls whatever comes of it, and
    fails whenever AES-GCM under the key derived from [p2] rejects the
    ciphertext or returns bytes that do not begin with the 8-byte marker:
    in both cases with the single error kind [WrongPassphrase], and never
    with another error kind.  It resolves, to the bytes after the marker,
    only when AES-GCM returns bytes that begin with the marker; that is
    so, with the plaintext as the result, when [p2] derives the key of
    [p1]. *)
Theorem decrypt_other_passphrase :
  forall (salt iv : bytes) (p1 p2 : string) (plaintext : bytes),
    length salt = SALT_LEN -> length iv = IV_LEN ->
    let ct := aes_gcm_encrypt (pbkdf2 p1 salt) iv (MAGIC ++ plaintext) in
    let k2 := pbkdf2 p2 salt in
    let attempt :=
      (envelope <- encrypt salt iv p1 plaintext ;; decrypt p2 envelope) in
    calls attempt = [CallDeriveKey; CallEncrypt; CallDeriveKey; CallDecrypt]
    /\ (aes_gcm_decrypt k2 iv ct = None ->
        settled attempt = Rejected WrongPassphrase)
    /\ (forall d, aes_gcm_decrypt k2 iv ct = Some d ->
                  (forall rest, d <> MAGIC ++ rest) ->
                  settled attempt = Rejected WrongPassphrase)
    /\ (forall rest, aes_gcm_decrypt k2 iv ct = Some (MAGIC ++ rest) ->
                     settled attempt = Resolved rest)
    /\ (forall e, settled attempt = Rejected e -> e = WrongPassphrase)
    /\ (forall b, settled attempt = Resolved b ->
                  aes_gcm_decrypt k2 iv ct = Some (MAGIC ++ b))
    /\ (k2 = pbkdf2 p1 salt -> settled attempt = Resolved plaintext).
Proof.
  intros salt iv p1 p2 plaintext Hs Hi ct k2 attempt.
  assert (E : attempt
              = ([CallDeriveKey; CallEncrypt; CallDeriveKey; CallDecrypt],
                 match aes_gcm_decrypt k2 iv ct with
                 | None => Rejected WrongPassphrase
                 | Some d =>
                     if magic_matches d
                     then Resolved (slice_from (length MAGIC) d)
                     else Rejected WrongPassphrase
                 end))
    by (apply decrypt_after_encrypt; assumption).
  rewrite E. cbn [calls settled fst snd].
  split; [reflexivity|].
  split; [intros Hnone; rewrite Hnone; reflexivity|].
  split; [intros d Hd Hm; rewrite Hd, (magic_matches_false d Hm); reflexivity|].
  split; [intros rest Hd;
          rewrite Hd, magic_matches_prefix, strip_magic; reflexivity|].
  split; [|split].
  - intros e. destruct (aes_gcm_decrypt k2 iv ct) as [d|];
      [destruct (magic_matches d)|]; congruence.
  - intros b. destruct (aes_gcm_decrypt k2 iv ct) as [d|]; [|discriminate].
    destruct (magic_matches d) eqn:Hm; [|discriminate].
    intros Hb. injection Hb as <-. f_equal. apply magic_matches_inv, Hm.
  - intros Hk. subst ct. rewrite Hk, aes_gcm_correct.
    rewrite magic_matches_prefix, strip_magic. reflexivity.
Qed.

End NoOracle.

Lemma decrypt_other_passphrase_witness :
  Crypto.settled
    (Crypto.bind (RefCipher.encrypt Examples.salt0 Examples.iv0 "correct horse" Examples.hello)
                 (RefCipher.decrypt "battery staple"))
  = Crypto.Rejected Crypto.WrongPassphrase.
Proof.
  refine (proj1 (proj2
            (decrypt_other_passphrase
               RefCipher.key RefCipher.pbkdf2
               RefCipher.aes_gcm_encrypt RefCipher.aes_gcm_decrypt
               ref_correct ref_length
               Examples.salt0 Examples.iv0
               "correct horse"%string "battery staple"%string
               Examples.hello _ _)) _); reflexivity.
Defined.

(* ================================================================== *)
(** * Further properties: encrypted storage *)
(* ================================================================== *)

Section StorageProperties.

Import Crypto Storage.

Variable key : Type.
Variable pbkdf2 : string -> bytes -> key.
Variable aes_gcm_encrypt : key -> bytes -> bytes -> bytes.
Variable aes_gcm_decrypt : key -> bytes -> bytes -> option bytes.
Variable AppData : Type.
Variable stringify : AppData -> bytes.
Variable parse : bytes -> option AppData.

Hypothesis aes_gcm_correct :
  forall k iv p, aes_gcm_decrypt k iv (aes_gcm_encrypt k iv p) = Some p.
Hypothesis aes_gcm_length :
  forall k iv p, length p <= length (aes_gcm_encrypt k iv p).

(** [JSON.parse] reads back what [JSON.stringify] wrote. *)
Hypothesis parse_stringify : forall a, parse (stringify a) = Some a.

Local Abbreviation save := (Storage.save pbkdf2 aes_gcm_encrypt stringify).
Local Abbreviation load := (Storage.load pbkdf2 aes_gcm_decrypt parse).

Lemma save_unfold (salt iv : bytes) (passphrase : string) (a : AppData) (d : db) :
  save salt iv passphrase a d
  = (dbPut d DATA_KEY
           (salt ++ iv ++
            aes_gcm_encrypt (pbkdf2 passphrase salt) iv (MAGIC ++ stringify a)),
     Ok tt).
Proof. reflexivity. Qed.

Lemma dbGet_dbPut (d : db) (k : string) (v : bytes) : dbGet (dbPut d k v) k = Some v.
Proof. unfold dbGet, dbPut. rewrite String.eqb_refl. reflexivity. Qed.

Lemma dbGet_dbDelete (d : db) (k : string) : dbGet (dbDelete d k) k = None.
Proof. unfold dbGet, dbDelete. rewrite String.eqb_refl. reflexivity. Qed.

Lemma load_saved (salt iv : bytes) (passphrase : string) (a : AppData) (d : db) :
  length salt = SALT_LEN -> length iv = IV_LEN ->
  load passphrase (fst (save salt iv passphrase a d)) = Ok a.
Proof.
  intros Hs Hi. rewrite save_unfold. cbn [fst].
  unfold Storage.load. rewrite dbGet_dbPut.
  rewrite (decrypt_envelope key pbkdf2 aes_gcm_decrypt)
    by (assumption || apply ciphertext_length, aes_gcm_length).
  cbn [settled snd].
  rewrite aes_gcm_correct, magic_matches_prefix, strip_magic, parse_stringify.
  reflexivity.
Qed.

(** X16.  After [save], the store holds data, [load] with the same
    passphrase returns exactly the application data that was saved,
    whatever the store held before, and no other key of the store has
    changed. *)
Theorem load_after_save :
  forall (salt iv : bytes) (passphrase : string) (appData : AppData) (d : db),
    length salt = SALT_LEN -> length iv = IV_LEN ->
    let d' := fst (save salt iv passphrase appData d) in
    snd (save salt iv passphrase appData d) = Ok tt
    /\ dataExists d' = true
    /\ load passphrase d' = Ok appData
    /\ (forall k, k <> DATA_KEY -> d' k = d k).
Proof.
  intros salt iv passphrase appData d Hs Hi d'. subst d'.
  split; [reflexivity|]. split; [|split].
  - rewrite save_unfold. cbn [fst].
    unfold dataExists. rewrite dbGet_dbPut. reflexivity.
  - apply load_saved; assumption.
  - rewrite save_unfold. cbn [fst]. intros k Hk. unfold dbPut.
    destruct (String.eqb_spec k DATA_KEY); [contradiction | reflexivity].
Qed.

(** X17.  [load] with a passphrase [p2], on what [save] wrote under
    [p1], hands AES-GCM the key derived from [p2] and the salt of the
    save, with the nonce and the ciphertext of the save.  When AES-GCM
    rejects, or returns bytes that do not begin with the marker, [load]
    throws the wrong-passphrase error; besides that it can only throw the
    syntax error of [JSON.parse], never [No data found] or the
    invalid-format error; and when [p2] derives the key of [p1] it returns
    the saved data. *)
Theorem load_after_save_other_passphrase :
  forall (salt iv : bytes) (p1 p2 : string) (appData : AppData) (d : db),
    length salt = SALT_LEN -> length iv = IV_LEN ->
    let ct := aes_gcm_encrypt (pbkdf2 p1 salt) iv (MAGIC ++ stringify appData) in
    let k2 := pbkdf2 p2 salt in
    let d' := fst (save salt iv p1 appData d) in
    (aes_gcm_decrypt k2 iv ct = None ->
     load p2 d' = Thrown (DecryptFailed WrongPassphrase))
    /\ (forall t, aes_gcm_decrypt k2 iv ct = Some t ->
                  (forall rest, t <> MAGIC ++ rest) ->
                  load p2 d' = Thrown (DecryptFailed WrongPassphrase))
    /\ (forall e, load p2 d' = Thrown e ->
                  e = DecryptFailed WrongPassphrase \/ e = JsonSyntaxError)
    /\ (k2 = pbkdf2 p1 salt -> load p2 d' = Ok appData).
Proof.
  intros salt iv p1 p2 appData d Hs Hi ct k2 d'.
  assert (E : load p2 d'
              = match aes_gcm_decrypt k2 iv ct with
                | None => Thrown (DecryptFailed WrongPassphrase)
                | Some t =>
                    if magic_matches t
                    then match parse (slice_from (length MAGIC) t) with
                         | Some a => Ok a
                         | None => Thrown JsonSyntaxError
                         end
                    else Thrown (DecryptFailed WrongPassphrase)
                end).
  { subst d'. rewrite save_unfold. cbn [fst].
    unfold Storage.load. rewrite dbGet_dbPut.
    rewrite (decrypt_envelope key pbkdf2 aes_gcm_decrypt)
      by (assumption || apply ciphertext_length, aes_gcm_length).
    cbn [settled snd]. fold ct. fold k2.
    destruct (aes_gcm_decrypt k2 iv ct) as [t|];
      [destruct (magic_matches t)|]; reflexivity. }
  rewrite E. split; [|split; [|split]].
  - intros Hnone. rewrite Hnone. reflexivity.
  - intros t Ht Hm. rewrite Ht, (magic_matches_false t Hm). reflexivity.
  - intros e. destruct (aes_gcm_decrypt k2 iv ct) as [t|].
    + destruct (magic_matches t).
      * destruct (parse _); [discriminate|].
        intros H. injection H as <-. right. reflexivity.
      * intros H. injection H as <-. left. reflexivity.
    + intros H. injection H as <-. left. reflexivity.
  - intros Hk. subst ct. rewrite Hk, aes_gcm_correct.
    rewrite magic_matches_prefix, strip_magic, parse_stringify. reflexivity.
Qed.

(** X18.  [load] throws [No data found] exactly when the store holds
    nothing under the data key, whatever the passphrase; that is the case
    on a fresh store and after [wipe], which removes the data whatever was
    saved, leaves the other keys alone and can be repeated. *)
Theorem wipe_removes_data :
  forall (passphrase : string) (d : db),
    (load passphrase d = Thrown NoDataFound <-> dataExists d = false)
    /\ dataExists (wipe d) = false
    /\ load passphrase (wipe d) = Thrown NoDataFound
    /\ load passphrase empty_db = Thrown NoDataFound
    /\ (forall k, wipe (wipe d) k = wipe d k)
    /\ (forall k, k <> DATA_KEY -> wipe d k = d k)
    /\ (forall salt iv a,
          dataExists (wipe (fst (save salt iv passphrase a d))) = false).
Proof.
  intros passphrase d.
  assert (Hw : forall d0, dataExists (wipe d0) = false).
  { intros d0. unfold dataExists, wipe. rewrite dbGet_dbDelete. reflexivity. }
  split; [|split; [|split; [|split; [|split; [|split]]]]].
  - unfold Storage.load, dataExists.
    destruct (dbGet d DATA_KEY) as [blob|]; [|tauto].
    split; [|discriminate].
    destruct (settled _) as [x|e]; [destruct (parse x)|]; discriminate.
  - apply Hw.
  - unfold Storage.load, wipe. rewrite dbGet_dbDelete. reflexivity.
  - reflexivity.
  - intros k. unfold wipe, dbDelete. destruct (String.eqb k DATA_KEY); reflexivity.
  - intros k Hk. unfold wipe, dbDelete.
    destruct (String.eqb_spec k DATA_KEY); [contradiction | reflexivity].
  - intros salt iv a. apply Hw.
Qed.

(** X19.  What [load] throws is one of: no data found, corrupt data (the
    stored blob is shorter than 52 bytes), wrong passphrase, or a JSON
    syntax error; and it returns application data only when the stored
    blob decrypts to the marker followed by the JSON text of that data. *)
Theorem load_outcomes :
  forall (passphrase : string) (d : db),
    load passphrase d <> Thrown (DecryptFailed OperationError)
    /\ (load passphrase d = Thrown (DecryptFailed CorruptData)
        <-> exists blob, dbGet d DATA_KEY = Some blob /\ length blob < 52)
    /\ (forall appData,
          load passphrase d = Ok appData ->
          exists blob json,
            dbGet d DATA_KEY = Some blob
            /\ 52 <= length blob
            /\ aes_gcm_decrypt
                 (pbkdf2 passphrase (slice 0 SALT_LEN blob))
                 (slice SALT_LEN (SALT_LEN + IV_LEN) blob)
                 (slice_from (SALT_LEN + IV_LEN) blob)
               = Some (MAGIC ++ json)
            /\ parse json = Some appData).
Proof.
  intros passphrase d. unfold Storage.load.
  destruct (dbGet d DATA_KEY) as [blob|].
  2: { split; [discriminate|]. split.
       - split; [discriminate|]. intros (b & Hb & _). discriminate.
       - discriminate. }
  rewrite (decrypt_cases key pbkdf2 aes_gcm_decrypt).
  change (SALT_LEN + IV_LEN + length MAGIC) with 52.
  destruct (Nat.ltb_spec (length blob) 52) as [Hlt | Hge]; cbn [settled snd].
  - split; [discriminate|]. split.
    + split; [|reflexivity]. intros _. exists blob. split; [reflexivity | exact Hlt].
    + discriminate.
  - destruct (aes_gcm_decrypt _ _ _) as [x|] eqn:Hdec.
    2: { split; [discriminate|]. split; [|discriminate].
         split; [discriminate|]. intros (b & Hb & Hl). injection Hb as <-. lia. }
    destruct (magic_matches x) eqn:Hm.
    2: { split; [discriminate|]. split; [|discriminate].
         split; [discriminate|]. intros (b & Hb & Hl). injection Hb as <-. lia. }
    split; [destruct (parse _); discriminate|]. split.
    + split; [destruct (parse _); discriminate|].
      intros (b & Hb & Hl). injection Hb as <-. lia.
    + intros appData Hok.
      destruct (parse (slice_from (length MAGIC) x)) as [a|] eqn:Hp;
        [|discriminate].
      injection Hok as <-.
      exists blob, (slice_from (length MAGIC) x).
      split; [reflexivity|]. split; [exact Hge|]. split; [|exact Hp].
      rewrite Hdec. f_equal. apply magic_matches_inv, Hm.
Qed.

End StorageProperties.

Lemma ref_parse_stringify (a : Crypto.bytes) : Some a = Some a.
Proof. reflexivity. Qed.

Lemma load_after_save_witness :
  Storage.load RefCipher.pbkdf2 RefCipher.aes_gcm_decrypt (@Some Crypto.bytes)
    "correct horse"
    (fst (Storage.save RefCipher.pbkdf2 RefCipher.aes_gcm_encrypt
            (fun a : Crypto.bytes => a)
            Examples.salt0 Examples.iv0 "correct horse" Examples.hello
            Storage.empty_db))
  = Storage.Ok Examples.hello.
Proof.
  refine (proj1 (proj2 (proj2
            (load_after_save RefCipher.key RefCipher.pbkdf2
               RefCipher.aes_gcm_encrypt RefCipher.aes_gcm_decrypt
               Crypto.bytes (fun a => a) (@Some Crypto.bytes)
               ref_correct ref_length ref_parse_stringify
               Examples.salt0 Examples.iv0 "correct horse"%string
               Examples.hello Storage.empty_db _ _)))); reflexivity.
Defined.

Lemma load_after_save_other_passphrase_witness :
  Storage.load RefCipher.pbkdf2 RefCipher.aes_gcm_decrypt (@Some Crypto.bytes)
    "battery staple"
    (fst (Storage.save RefCipher.pbkdf2 RefCipher.aes_gcm_encrypt
            (fun a : Crypto.bytes => a)
            Examples.salt0 Examples.iv0 "correct horse" Examples.hello
            Storage.empty_db))
  = Storage.Thrown (Storage.DecryptFailed Crypto.WrongPassphrase).
Proof.
  refine (proj1
            (load_after_save_other_passphrase RefCipher.key RefCipher.pbkdf2
               RefCipher.aes_gcm_encrypt RefCipher.aes_gcm_decrypt
               Crypto.bytes (fun a => a) (@Some Crypto.bytes)
               ref_correct ref_length ref_parse_stringify
               Examples.salt0 Examples.iv0
               "correct horse"%string "battery staple"%string
               Examples.hello Storage.empty_db _ _) _); reflexivity.
Defined.

Lemma load_outcomes_witness :
  exists blob json,
    Storage.dbGet
      (fst (Storage.save RefCipher.pbkdf2 RefCipher.aes_gcm_encrypt
              (fun a : Crypto.bytes => a)
              Examples.salt0 Examples.iv0 "correct horse" Examples.hello
              Storage.empty_db)) Storage.DATA_KEY = Some blob
    /\ 52 <= length blob
    /\ @Some Crypto.bytes json = Some Examples.hello.
Proof.
  destruct (proj2 (proj2
              (load_outcomes RefCipher.key RefCipher.pbkdf2
                 RefCipher.aes_gcm_decrypt Crypto.bytes (@Some Crypto.bytes)
                 "correct horse"%string
                 (fst (Storage.save RefCipher.pbkdf2 RefCipher.aes_gcm_encrypt
                         (fun a : Crypto.bytes => a)
                         Examples.salt0 Examples.iv0 "correct horse"
                         Examples.hello Storage.empty_db))))
              Examples.hello eq_refl)
    as (blob & json & Hb & Hl & _ & Hp).
  exists blob, json. split; [exact Hb|]. split; [exact Hl | exact Hp].
Defined.

(* ================================================================== *)
(** * Further properties: the day log and the session *)
(* ================================================================== *)

Section DayLogProperties.

Import Prediction Spec App.
Local Open Scope Z_scope.

Lemma date_eqb_refl (d : date) : date_eqb d d = true.
Proof. apply date_eqb_eq. reflexivity. Qed.

Lemma date_eqb_neq (a b : date) : date_eqb a b = false <-> a <> b.
Proof.
  rewrite <- date_eqb_eq. destruct (date_eqb a b); split; congruence.
Qed.

Lemma upsert_dates (logs : list DayLog) (d : date) (f : FlowLevel) (n : string) :
  map log_date (upsertDayLog logs d f n)
  = if existsb (fun l => date_eqb (log_date l) d) logs
    then map log_date logs
    else map log_date logs ++ [d].
Proof.
  induction logs as [|x rest IH]; [reflexivity|].
  cbn [upsertDayLog existsb].
  destruct (date_eqb (log_date x) d) eqn:E; [reflexivity|].
  cbn [orb map]. rewrite IH.
  destruct (existsb _ rest); reflexivity.
Qed.

Lemma upsert_In (logs : list DayLog) (d : date) (f : FlowLevel) (n : string)
      (l : DayLog) :
  NoDup (map log_date logs) ->
  In l (upsertDayLog logs d f n)
  <-> l = mkDayLog d f n \/ (In l logs /\ log_date l <> d).
Proof.
  induction logs as [|x rest IH]; intros Hnd.
  - cbn. intuition.
  - cbn [map] in Hnd. apply NoDup_cons_iff in Hnd. destruct Hnd as [Hx Hnd].
    cbn [upsertDayLog].
    destruct (date_eqb (log_date x) d) eqn:E.
    + apply date_eqb_eq in E. rewrite E. cbn [In]. split.
      * intros [<- | Hl]; [now left|]. right. split; [now right|].
        intros Hd. apply Hx. rewrite E, <- Hd. apply in_map, Hl.
      * intros [-> | [[<- | Hl] Hd]]; [now left | congruence | now right].
    + apply date_eqb_neq in E. cbn [In]. rewrite (IH Hnd). split.
      * intros [<- | [-> | [Hl Hd]]]; [right; split; [now left | exact E] | now left |].
        right. split; [now right | exact Hd].
      * intros [-> | [[<- | Hl] Hd]]; [right; now left | now left |].
        right. right. split; assumption.
Qed.

(** X20.  Saving a day keeps one entry per date: the dates stay distinct,
    the list grows by at most one entry (by one exactly when the date is
    new), the entry found for the date holds the flow and notes just
    entered, and the entry found for any other date is the one found
    before. *)
Theorem upsertDayLog_keeps_dates_unique :
  forall (logs : list DayLog) (d : date) (f : FlowLevel) (n : string),
    NoDup (map log_date logs) ->
    NoDup (map log_date (upsertDayLog logs d f n))
    /\ findDayLog (upsertDayLog logs d f n) d = Some (mkDayLog d f n)
    /\ (forall d', d' <> d ->
          findDayLog (upsertDayLog logs d f n) d' = findDayLog logs d')
    /\ (findDayLog logs d <> None ->
        length (upsertDayLog logs d f n) = length logs)
    /\ (findDayLog logs d = None ->
        length (upsertDayLog logs d f n) = S (length logs)).
Proof.
  intros logs d f n Hnd.
  split; [|split; [|split; [|split]]].
  - rewrite upsert_dates.
    destruct (existsb (fun l => date_eqb (log_date l) d) logs) eqn:E;
      [exact Hnd|].
    apply NoDup_app; [exact Hnd | repeat constructor; intros [] |].
    intros x Hx [Ex | []]. subst x.
    apply in_map_iff in Hx. destruct Hx as (l & Hl & Hin).
    assert (Ht : existsb (fun l => date_eqb (log_date l) d) logs = true).
    { apply existsb_exists. exists l. split; [exact Hin|]. apply date_eqb_eq, Hl. }
    congruence.
  - clear Hnd. unfold findDayLog.
    induction logs as [|x rest IH]; cbn [upsertDayLog find].
    + cbn. rewrite date_eqb_refl. reflexivity.
    + destruct (date_eqb (log_date x) d) eqn:E.
      * cbn [find log_date]. rewrite E. apply date_eqb_eq in E. rewrite E.
        reflexivity.
      * cbn [find]. rewrite E. exact IH.
  - clear Hnd. intros d' Hd'. unfold findDayLog.
    induction logs as [|x rest IH]; cbn [upsertDayLog find].
    + cbn. apply not_eq_sym, date_eqb_neq in Hd'. rewrite Hd'. reflexivity.
    + destruct (date_eqb (log_date x) d) eqn:E.
      * cbn [find log_date]. apply date_eqb_eq in E.
        assert (E' : date_eqb (log_date x) d' = false)
          by (apply date_eqb_neq; congruence).
        rewrite E'. reflexivity.
      * cbn [find]. destruct (date_eqb (log_date x) d'); [reflexivity | exact IH].
  - clear Hnd. unfold findDayLog. intros Hf.
    induction logs as [|x rest IH]; [cbn in Hf; congruence|].
    cbn [upsertDayLog find] in *.
    destruct (date_eqb (log_date x) d); [reflexivity|].
    cbn [length]. rewrite (IH Hf). reflexivity.
  - clear Hnd. unfold findDayLog. intros Hf.
    induction logs as [|x rest IH]; [reflexivity|].
    cbn [upsertDayLog find] in *.
    destruct (date_eqb (log_date x) d); [discriminate|].
    cbn [length]. rewrite (IH Hf). reflexivity.
Qed.

Lemma upsertDayLog_keeps_dates_unique_witness :
  NoDup (map log_date (upsertDayLog Examples.three_days (mkDate 2024 1 2)
                                    FlowNone "none today"))
  /\ findDayLog (upsertDayLog Examples.three_days (mkDate 2024 1 2)
                              FlowNone "none today") (mkDate 2024 1 2)
     = Some (mkDayLog (mkDate 2024 1 2) FlowNone "none today").
Proof.
  assert (Hnd : NoDup (map log_date Examples.three_days)).
  { repeat constructor; cbn; intuition discriminate. }
  destruct (upsertDayLog_keeps_dates_unique
              Examples.three_days (mkDate 2024 1 2) FlowNone
              "none today"%string Hnd) as (H1 & H2 & _).
  split; assumption.
Defined.

(** X21.  With one entry per date, saving a day changes the flow dates
    only at that date: the date is a flow date afterwards iff the flow
    entered is not [None], and every other date is a flow date iff it was
    one before. *)
Theorem upsertDayLog_flow_dates :
  forall (logs : list DayLog) (d : date) (f : FlowLevel) (n : string),
    NoDup (map log_date logs) ->
    forall d',
      In d' (flow_dates (upsertDayLog logs d f n))
      <-> (d' = d /\ f <> FlowNone) \/ (d' <> d /\ In d' (flow_dates logs)).
Proof.
  intros logs d f n Hnd d'.
  rewrite !flow_dates_In. split.
  - intros (l & Hl & Hf & Hd). apply (upsert_In logs d f n l Hnd) in Hl.
    destruct Hl as [-> | [Hl Hne]].
    + left. cbn in *. split; [congruence | exact Hf].
    + right. split; [congruence|]. exists l. repeat split; assumption.
  - intros [[-> Hf] | [Hne (l & Hl & Hf & Hd)]].
    + exists (mkDayLog d f n). split; [|split; [exact Hf | reflexivity]].
      apply (upsert_In logs d f n _ Hnd). now left.
    + exists l. split; [|split; assumption].
      apply (upsert_In logs d f n _ Hnd). right. split; [exact Hl | congruence].
Qed.

Lemma upsertDayLog_flow_dates_witness :
  In (mkDate 2024 1 3)
     (flow_dates (upsertDayLog Examples.three_days (mkDate 2024 1 2)
                               FlowNone "none today"))
  <-> (mkDate 2024 1 3 = mkDate 2024 1 2 /\ FlowNone <> FlowNone)
      \/ (mkDate 2024 1 3 <> mkDate 2024 1 2
          /\ In (mkDate 2024 1 3) (flow_dates Examples.three_days)).
Proof.
  apply (upsertDayLog_flow_dates Examples.three_days (mkDate 2024 1 2)
           FlowNone "none today"%string).
  repeat constructor; cbn; intuition discriminate.
Defined.

(** X22.  After a day is saved, the symptoms of that date are exactly the
    selected ones, each once with severity 2 and in the order selected;
    the symptoms of every other date are what they were, in their order. *)
Theorem replaceSymptoms_replaces :
  forall (syms : list Symptom) (d : date) (selected : list string),
    filter (fun s => date_eqb (symptom_date s) d) (replaceSymptoms syms d selected)
    = map (fun sym => mkSymptom d sym 2) selected
    /\ (forall d', d' <> d ->
          filter (fun s => date_eqb (symptom_date s) d')
                 (replaceSymptoms syms d selected)
          = filter (fun s => date_eqb (symptom_date s) d') syms).
Proof.
  intros syms d selected. unfold replaceSymptoms. split.
  - rewrite filter_app.
    replace (filter (fun s => date_eqb (symptom_date s) d)
                    (filter (fun s => negb (date_eqb (symptom_date s) d)) syms))
      with (@nil Symptom).
    + cbn [app]. induction selected as [|x xs IH]; [reflexivity|].
      cbn [map filter symptom_date]. rewrite date_eqb_refl, IH. reflexivity.
    + induction syms as [|s ss IH]; [reflexivity|].
      cbn [filter]. destruct (date_eqb (symptom_date s) d) eqn:E; cbn [negb filter].
      * exact IH.
      * rewrite E. exact IH.
  - intros d' Hd'. rewrite filter_app.
    replace (filter (fun s => date_eqb (symptom_date s) d')
                    (map (fun sym => mkSymptom d sym 2) selected))
      with (@nil Symptom).
    + rewrite app_nil_r.
      induction syms as [|s ss IH]; [reflexivity|].
      cbn [filter]. destruct (date_eqb (symptom_date s) d) eqn:E; cbn [negb filter].
      * apply date_eqb_eq in E.
        assert (E' : date_eqb (symptom_date s) d' = false)
          by (apply date_eqb_neq; congruence).
        rewrite E'. exact IH.
      * destruct (date_eqb (symptom_date s) d'); [f_equal|]; exact IH.
    + induction selected as [|x xs IH]; [reflexivity|].
      cbn [map filter symptom_date].
      apply not_eq_sym, date_eqb_neq in Hd'. rewrite Hd'. exact IH.
Qed.

(** X23.  Going to the previous or to the next month keeps the month
    between 1 and 12, and each undoes the other. *)
Theorem month_navigation :
  forall (y m : Z),
    1 <= m <= 12 ->
    1 <= snd (prevMonth (y, m)) <= 12
    /\ 1 <= snd (nextMonth (y, m)) <= 12
    /\ nextMonth (prevMonth (y, m)) = (y, m)
    /\ prevMonth (nextMonth (y, m)) = (y, m)
    /\ 12 * fst (nextMonth (y, m)) + snd (nextMonth (y, m)) = 12 * y + m + 1
    /\ 12 * fst (prevMonth (y, m)) + snd (prevMonth (y, m)) = 12 * y + m - 1.
Proof.
  intros y m Hm. unfold prevMonth, nextMonth.
  destruct (Z.ltb_spec (m - 1) 1), (Z.ltb_spec 12 (m + 1)); cbn [fst snd];
    repeat match goal with
           | |- context [?a <? ?b] => destruct (Z.ltb_spec a b)
           end;
    repeat split; try lia; try (f_equal; lia).
Qed.

Lemma month_navigation_witness :
  nextMonth (prevMonth (2024, 1)) = (2024, 1)
  /\ prevMonth (2024, 1) = (2023, 12).
Proof.
  destruct (month_navigation 2024 1 ltac:(lia)) as (_ & _ & H & _).
  split; [exact H | reflexivity].
Defined.

(** X24.  The auto-lock stepper never leaves the range of 1 to 60
    minutes, moves by at most one minute, and stops at the two ends. *)
Theorem autolock_range :
  forall (minutes : Z),
    1 <= minutes <= 60 ->
    1 <= autolockDown minutes <= 60
    /\ 1 <= autolockUp minutes <= 60
    /\ autolockDown 1 = 1 /\ autolockUp 60 = 60
    /\ (1 < minutes -> autolockDown minutes = minutes - 1)
    /\ (minutes < 60 -> autolockUp minutes = minutes + 1).
Proof.
  intros minutes H. unfold autolockDown, autolockUp.
  destruct (Z.ltb_spec 1 minutes), (Z.ltb_spec minutes 60);
    repeat split; try lia; reflexivity.
Qed.

Lemma autolock_range_witness :
  1 <= autolockDown 1 <= 60 /\ 1 <= autolockUp 60 <= 60.
Proof.
  destruct (autolock_range 1 ltac:(lia)) as (Hd & _).
  destruct (autolock_range 60 ltac:(lia)) as (_ & Hu & _).
  split; assumption.
Defined.

End DayLogProperties.

(** ** The reference serialiser meets the assumption on JSON *)

Section RefJsonProperties.

Import Crypto Prediction App RefJson.

Lemma inverse_nat : inverse enc_nat dec_nat.
Proof.
  intros n rest. unfold enc_nat. induction n as [|n IH]; [reflexivity|].
  cbn [repeat app dec_nat]. cbn [Byte.eqb]. 
  change (Byte.eqb x01 x00) with false. cbv iota.
  cbn [app] in IH. rewrite IH. reflexivity.
Qed.

Lemma inverse_Z : inverse enc_Z dec_Z.
Proof.
  intros z rest. unfold enc_Z, dec_Z. cbn [app].
  rewrite inverse_nat. f_equal. f_equal.
  destruct (Z.ltb_spec z 0).
  - change (Byte.eqb x01 x00) with false. cbv iota.
    rewrite Zabs2Nat.id_abs. lia.
  - change (Byte.eqb x00 x00) with true. cbv iota.
    rewrite Zabs2Nat.id_abs. lia.
Qed.

Lemma inverse_bool : inverse enc_bool dec_bool.
Proof. intros [|] rest; reflexivity. Qed.

Lemma inverse_flow : inverse enc_flow dec_flow.
Proof. intros [| | |] rest; reflexivity. Qed.

Lemma inverse_byte : inverse (fun c => [c]) dec_byte.
Proof. intros c rest. reflexivity. Qed.

Lemma inverse_pair (A B : Type) (ea : A -> bytes) (da : parser A)
      (eb : B -> bytes) (db : parser B) :
  inverse ea da -> inverse eb db ->
  inverse (enc_pair ea eb) (dec_pair da db).
Proof.
  intros Ha Hb [x y] rest. unfold enc_pair, dec_pair. cbn [fst snd].
  rewrite <- app_assoc, Ha, Hb. reflexivity.
Qed.

Lemma inverse_option (A : Type) (ea : A -> bytes) (da : parser A) :
  inverse ea da -> inverse (enc_option ea) (dec_option da).
Proof.
  intros Ha [x|] rest; unfold enc_option, dec_option; cbn [app].
  - change (Byte.eqb x01 x00) with false. cbv iota. rewrite Ha. reflexivity.
  - reflexivity.
Qed.

Lemma inverse_items (A : Type) (ea : A -> bytes) (da : parser A) :
  inverse ea da ->
  forall l rest,
    dec_items da (length l) (concat (map ea l) ++ rest) = Some (l, rest).
Proof.
  intros Ha l. induction l as [|x l IH]; intros rest; [reflexivity|].
  cbn [length map concat dec_items].
  rewrite <- app_assoc, Ha, IH. reflexivity.
Qed.

Lemma inverse_list (A : Type) (ea : A -> bytes) (da : parser A) :
  inverse ea da -> inverse (enc_list ea) (dec_list da).
Proof.
  intros Ha l rest. unfold enc_list, dec_list.
  rewrite <- app_assoc, inverse_nat. apply inverse_items, Ha.
Qed.

Lemma inverse_map (A B : Type) (ea : A -> bytes) (da : parser A)
      (f : A -> B) (g : B -> A) :
  (forall b, f (g b) = b) ->
  inverse ea da -> inverse (fun b => ea (g b)) (dec_map f da).
Proof.
  intros Hfg Ha b rest. unfold dec_map. rewrite Ha, Hfg. reflexivity.
Qed.

Lemma inverse_string : inverse enc_string dec_string.
Proof.
  unfold enc_string, dec_string.
  apply (inverse_map _ _ (enc_list (fun c => [c])) (dec_list dec_byte)
                     string_of_list_byte list_byte_of_string).
  - apply string_of_list_byte_of_string.
  - apply inverse_list, inverse_byte.
Qed.

Lemma inverse_date : inverse enc_date dec_date.
Proof.
  apply (inverse_map _ _ (enc_pair enc_Z (enc_pair enc_Z enc_Z)) _
           (fun t => mkDate (fst t) (fst (snd t)) (snd (snd t)))
           (fun d => (year d, (month d, day d)))).
  - intros [y m d]. reflexivity.
  - repeat apply inverse_pair; apply inverse_Z.
Qed.

Lemma inverse_daylog : inverse enc_daylog dec_daylog.
Proof.
  apply (inverse_map _ _ (enc_pair enc_date (enc_pair enc_flow enc_string)) _
           (fun t => mkDayLog (fst t) (fst (snd t)) (snd (snd t)))
           (fun l => (log_date l, (flow_level l, notes l)))).
  - intros [d f n]. reflexivity.
  - apply inverse_pair; [apply inverse_date|].
    apply inverse_pair; [apply inverse_flow | apply inverse_string].
Qed.

Lemma inverse_cycle : inverse enc_cycle dec_cycle.
Proof.
  apply (inverse_map _ _ (enc_pair enc_date (enc_option enc_date)) _
           (fun t => mkCycle (fst t) (snd t))
           (fun c => (start_date c, end_date c))).
  - intros [s e]. reflexivity.
  - apply inverse_pair; [apply inverse_date|].
    apply inverse_option, inverse_date.
Qed.

Lemma inverse_symptom : inverse enc_symptom dec_symptom.
Proof.
  apply (inverse_map _ _ (enc_pair enc_date (enc_pair enc_string enc_Z)) _
           (fun t => mkSymptom (fst t) (fst (snd t)) (snd (snd t)))
           (fun s => (symptom_date s, (symptom_type s, severity s)))).
  - intros [d t s]. reflexivity.
  - apply inverse_pair; [apply inverse_date|].
    apply inverse_pair; [apply inverse_string | apply inverse_Z].
Qed.

Lemma inverse_settings : inverse enc_settings dec_settings.
Proof.
  apply (inverse_map _ _ (enc_pair enc_Z enc_bool) _
           (fun t => mkSettings (fst t) (snd t))
           (fun s => (auto_lock_minutes s, show_fertility s))).
  - intros [m f]. reflexivity.
  - apply inverse_pair; [apply inverse_Z | apply inverse_bool].
Qed.

Lemma inverse_appdata : inverse enc_appdata dec_appdata.
Proof.
  apply (inverse_map _ _
           (enc_pair (enc_list enc_cycle)
              (enc_pair (enc_list enc_daylog)
                 (enc_pair (enc_list enc_symptom) (enc_option enc_settings)))) _
           (fun t => mkAppData (fst t) (fst (snd t)) (fst (snd (snd t)))
                               (snd (snd (snd t))))
           (fun a => (cycles a, (day_logs a, (symptoms a, settings a))))).
  - intros [c l s st]. reflexivity.
  - apply inverse_pair; [apply inverse_list, inverse_cycle|].
    apply inverse_pair; [apply inverse_list, inverse_daylog|].
    apply inverse_pair; [apply inverse_list, inverse_symptom|].
    apply inverse_option, inverse_settings.
Qed.

Lemma ref_json_roundtrip (a : AppData) :
  RefJson.parse (RefJson.stringify a) = Some a.
Proof.
  unfold RefJson.parse, RefJson.stringify.
  rewrite <- (app_nil_r (enc_appdata a)), inverse_appdata. reflexivity.
Qed.

End RefJsonProperties.

Section SessionProperties.

Import Prediction Crypto Storage App.

Variable key : Type.
Variable pbkdf2 : string -> bytes -> key.
Variable aes_gcm_encrypt : key -> bytes -> bytes -> bytes.
Variable aes_gcm_decrypt : key -> bytes -> bytes -> option bytes.
Variable stringify : AppData -> bytes.
Variable parse : bytes -> option AppData.

Hypothesis aes_gcm_correct :
  forall k iv p, aes_gcm_decrypt k iv (aes_gcm_encrypt k iv p) = Some p.
Hypothesis aes_gcm_length :
  forall k iv p, length p <= length (aes_gcm_encrypt k iv p).
Hypothesis parse_stringify : forall a, parse (stringify a) = Some a.

Local Abbreviation load := (Storage.load pbkdf2 aes_gcm_decrypt parse).
Local Abbreviation saveData := (App.saveData pbkdf2 aes_gcm_encrypt stringify).
Local Abbreviation unlock :=
  (App.unlock pbkdf2 aes_gcm_encrypt aes_gcm_decrypt stringify parse).
Local Abbreviation saveDayClick :=
  (App.saveDayClick pbkdf2 aes_gcm_encrypt stringify).
Local Abbreviation setupClick :=
  (App.setupClick pbkdf2 aes_gcm_encrypt stringify).

Lemma eqb_empty (p : string) : p <> ""%string -> String.eqb p "" = false.
Proof. intros H. destruct (String.eqb_spec p ""); [contradiction | reflexivity]. Qed.

(** Saving from an unlocked session: the store then loads back to the
    data of the session. *)
Lemma saveData_unlocked (salt iv : bytes) (p : string) (a : AppData) (d : db) :
  length salt = SALT_LEN -> length iv = IV_LEN -> p <> ""%string ->
  let d' := fst (saveData salt iv (mkSession (Some p) (Some a)) d) in
  snd (saveData salt iv (mkSession (Some p) (Some a)) d) = Ok tt
  /\ load p d' = Ok a.
Proof.
  intros Hs Hi Hp d'. subst d'. unfold App.saveData.
  cbn [passphrase appData]. rewrite (eqb_empty p Hp).
  split; [reflexivity|].
  apply (load_saved key pbkdf2 aes_gcm_encrypt aes_gcm_decrypt
           AppData stringify parse aes_gcm_correct aes_gcm_length
           parse_stringify salt iv p a d Hs Hi).
Qed.

(** X25.  A failed unlock tells nothing about why it failed: when there
    is no data, when the stored blob is too short, when the passphrase is
    wrong and when the decrypted text is not JSON, the handler leaves the
    session and the store as they were and shows the same text,
    [Wrong passphrase]. *)
Theorem unlock_failure_is_uniform :
  forall (today : date) (salt iv : bytes) (pass : string) (s : session) (d : db),
    pass <> ""%string ->
    (forall e, load pass d = Thrown e ->
               unlock today salt iv pass s d = (s, d, "Wrong passphrase"%string))
    /\ (dbGet d DATA_KEY = None ->
        unlock today salt iv pass s d = (s, d, "Wrong passphrase"%string))
    /\ (forall blob, dbGet d DATA_KEY = Some blob -> length blob < 52 ->
        unlock today salt iv pass s d = (s, d, "Wrong passphrase"%string))
    /\ (forall blob, dbGet d DATA_KEY = Some blob ->
        settled (Crypto.decrypt pbkdf2 aes_gcm_decrypt pass blob)
        = Rejected WrongPassphrase ->
        unlock today salt iv pass s d = (s, d, "Wrong passphrase"%string))
    /\ (forall blob text, dbGet d DATA_KEY = Some blob ->
        settled (Crypto.decrypt pbkdf2 aes_gcm_decrypt pass blob)
        = Resolved text ->
        parse text = None ->
        unlock today salt iv pass s d = (s, d, "Wrong passphrase"%string)).
Proof.
  intros today salt iv pass s d Hp.
  assert (H : forall e, load pass d = Thrown e ->
                        unlock today salt iv pass s d
                        = (s, d, "Wrong passphrase"%string)).
  { intros e He. unfold App.unlock. rewrite (eqb_empty pass Hp), He. reflexivity. }
  split; [exact H|]. split; [|split; [|split]].
  - intros Hnone. apply (H NoDataFound). unfold Storage.load.
    rewrite Hnone. reflexivity.
  - intros blob Hb Hlen. apply (H (DecryptFailed CorruptData)).
    unfold Storage.load. rewrite Hb.
    rewrite (decrypt_cases key pbkdf2 aes_gcm_decrypt).
    change (SALT_LEN + IV_LEN + length MAGIC) with 52.
    apply Nat.ltb_lt in Hlen. rewrite Hlen. reflexivity.
  - intros blob Hb Hrej. apply (H (DecryptFailed WrongPassphrase)).
    unfold Storage.load. rewrite Hb, Hrej. reflexivity.
  - intros blob text Hb Hres Hparse. apply (H JsonSyntaxError).
    unfold Storage.load. rewrite Hb, Hres, Hparse. reflexivity.
Qed.

(** X26.  A successful unlock keeps the passphrase and the loaded data in
    the session, with the day logs and symptoms as loaded, the cycles
    rebuilt from the day logs and settings present; it writes the data
    back, so that the store loads to exactly the data of the session, and
    it shows no error. *)
Theorem unlock_success :
  forall (today : date) (salt iv : bytes) (pass : string) (s : session) (d : db)
         (loaded : AppData),
    length salt = SALT_LEN -> length iv = IV_LEN ->
    pass <> ""%string ->
    load pass d = Ok loaded ->
    exists a d',
      unlock today salt iv pass s d
      = (mkSession (Some pass) (Some a), d', ""%string)
      /\ day_logs a = day_logs loaded
      /\ symptoms a = symptoms loaded
      /\ cycles a = rebuildCycles today (day_logs loaded)
      /\ settings a <> None
      /\ (settings loaded <> None -> settings a = settings loaded)
      /\ load pass d' = Ok a.
Proof.
  intros today salt iv pass s d loaded Hs Hi Hp Hload.
  unfold App.unlock. rewrite (eqb_empty pass Hp), Hload. cbv zeta.
  match goal with
  | |- context [mkSession (Some pass) (Some ?x)] => set (a := x)
  end.
  destruct (saveData_unlocked salt iv pass a d Hs Hi Hp) as [Hok Hback].
  destruct (saveData salt iv (mkSession (Some pass) (Some a)) d) as [d' r] eqn:E.
  cbn [fst snd] in Hok, Hback. subst r.
  exists a, d'. split; [reflexivity|].
  subst a. destruct (settings loaded) as [st|] eqn:Est;
    cbn [day_logs symptoms cycles settings];
    repeat split; try reflexivity; try discriminate; try exact Hback;
    try congruence.
Qed.

(** X27.  Saving a day from an unlocked session changes the data of the
    session by the upsert of the day logs, the replacement of the
    symptoms of the date by the selected ones and the rebuilt cycles,
    keeps the passphrase and the settings, and writes the store so that it
    loads to exactly the data of the session; the cycles of the session
    are those rebuilt from its day logs. *)
Theorem saveDayClick_keeps_store_in_sync :
  forall (today : date) (salt iv : bytes) (p : string) (a : AppData) (d : db)
         (date : Prediction.date) (flow : FlowLevel) (notes : string)
         (selected : list string),
    length salt = SALT_LEN -> length iv = IV_LEN ->
    p <> ""%string ->
    let '(s', d') :=
      saveDayClick today salt iv (Some date) flow notes selected
                   (mkSession (Some p) (Some a)) d in
    exists a',
      s' = mkSession (Some p) (Some a')
      /\ day_logs a' = upsertDayLog (day_logs a) date flow notes
      /\ symptoms a' = replaceSymptoms (symptoms a) date selected
      /\ cycles a' = rebuildCycles today (day_logs a')
      /\ settings a' = settings a
      /\ load p d' = Ok a'.
Proof.
  intros today salt iv p a d date flow notes selected Hs Hi Hp.
  unfold App.saveDayClick. cbn [passphrase appData].
  set (a' := saveDay today date flow notes selected a).
  exists a'. split; [reflexivity|].
  split; [reflexivity|]. split; [reflexivity|].
  split; [reflexivity|]. split; [reflexivity|].
  apply (saveData_unlocked salt iv p a' d Hs Hi Hp).
Qed.

(** X28.  A locked session writes nothing: after [doLock], and after a
    wipe, [saveData] and the day log handler leave the store and the
    session as they are; so a wiped store stays without data until the
    next setup. *)
Theorem locked_session_writes_nothing :
  forall (today : date) (salt iv : bytes) (s : session) (d : db)
         (selectedDate : option Prediction.date) (flow : FlowLevel)
         (notes : string) (selected : list string),
    saveData salt iv (doLock s) d = (d, Ok tt)
    /\ saveDayClick today salt iv selectedDate flow notes selected (doLock s) d
       = (doLock s, d)
    /\ (let '(s', d') := wipeClick s d in
        s' = doLock s
        /\ dataExists d' = false
        /\ saveData salt iv s' d' = (d', Ok tt)
        /\ dataExists
             (snd (saveDayClick today salt iv selectedDate flow notes selected
                                s' d')) = false).
Proof.
  intros today salt iv s d selectedDate flow notes selected.
  split; [reflexivity|]. split.
  - unfold App.saveDayClick. destruct selectedDate; reflexivity.
  - cbn. split; [reflexivity|].
    assert (Hw : dataExists (wipe d) = false).
    { unfold dataExists, wipe. rewrite dbGet_dbDelete. reflexivity. }
    split; [exact Hw|]. split; [reflexivity|].
    unfold App.saveDayClick. destruct selectedDate; exact Hw.
Qed.

(** X29.  Setup with a non-empty passphrase stores the default data and
    enters the app with it; the store then holds data, and a later unlock
    with the same passphrase, from a locked session, restores exactly the
    session that setup made, with nothing to report. *)
Theorem setup_then_unlock :
  forall (today : date) (salt iv salt' iv' : bytes) (pass : string)
         (s : session) (d : db),
    length salt = SALT_LEN -> length iv = IV_LEN ->
    length salt' = SALT_LEN -> length iv' = IV_LEN ->
    pass <> ""%string ->
    let '(s1, d1, msg) := setupClick salt iv pass s d in
    s1 = mkSession (Some pass) (Some defaultAppData)
    /\ msg = ""%string
    /\ dataExists d1 = true
    /\ load pass d1 = Ok defaultAppData
    /\ exists d2,
         unlock today salt' iv' pass (doLock s1) d1 = (s1, d2, ""%string)
         /\ load pass d2 = Ok defaultAppData.
Proof.
  intros today salt iv salt' iv' pass s d Hs Hi Hs' Hi' Hp.
  unfold App.setupClick.
  destruct (saveData_unlocked salt iv pass defaultAppData d Hs Hi Hp)
    as [Hok Hload].
  destruct (saveData salt iv (mkSession (Some pass) (Some defaultAppData)) d)
    as [d1 r] eqn:E.
  cbn [fst snd] in Hok, Hload. subst r.
  split; [reflexivity|]. split; [reflexivity|]. split; [|split; [exact Hload|]].
  - unfold dataExists. unfold Storage.load in Hload.
    destruct (dbGet d1 DATA_KEY); [reflexivity | discriminate Hload].
  - unfold App.unlock. rewrite (eqb_empty pass Hp), Hload. cbv zeta.
    cbn [settings defaultAppData day_logs symptoms cycles].
    change (rebuildCycles today []) with (@nil Cycle).
    fold defaultAppData.
    destruct (saveData_unlocked salt' iv' pass defaultAppData d1 Hs' Hi' Hp)
      as [Hok2 Hload2].
    destruct (saveData salt' iv' (mkSession (Some pass) (Some defaultAppData)) d1)
      as [d2 r2] eqn:E2.
    cbn [fst snd] in Hok2, Hload2. subst r2.
    exists d2. split; [reflexivity | exact Hload2].
Qed.

End SessionProperties.

Lemma unlock_failure_is_uniform_witness :
  App.unlock RefCipher.pbkdf2 RefCipher.aes_gcm_encrypt
    RefCipher.aes_gcm_decrypt RefJson.stringify RefJson.parse
    SessionExamples.today Examples.salt0 Examples.iv0 "battery staple"
    SessionExamples.locked SessionExamples.stored
  = (SessionExamples.locked, SessionExamples.stored, "Wrong passphrase"%string).
Proof.
  refine (proj1
            (unlock_failure_is_uniform RefCipher.key RefCipher.pbkdf2
               RefCipher.aes_gcm_encrypt RefCipher.aes_gcm_decrypt
               RefJson.stringify RefJson.parse
               SessionExamples.today Examples.salt0 Examples.iv0
               "battery staple"%string
               SessionExamples.locked SessionExamples.stored _)
            (Storage.DecryptFailed Crypto.WrongPassphrase) _);
    [discriminate | vm_compute; reflexivity].
Defined.

Lemma unlock_success_witness :
  exists a d',
    App.unlock RefCipher.pbkdf2 RefCipher.aes_gcm_encrypt
      RefCipher.aes_gcm_decrypt RefJson.stringify RefJson.parse
      SessionExamples.today Examples.salt0 Examples.iv0 "correct horse"
      SessionExamples.locked SessionExamples.stored
    = (App.mkSession (Some "correct horse"%string) (Some a), d', ""%string)
    /\ App.cycles a
       = Prediction.rebuildCycles SessionExamples.today Examples.three_days
    /\ App.settings a <> None
    /\ Storage.load RefCipher.pbkdf2 RefCipher.aes_gcm_decrypt RefJson.parse
         "correct horse" d' = Storage.Ok a.
Proof.
  destruct (unlock_success RefCipher.key RefCipher.pbkdf2
              RefCipher.aes_gcm_encrypt RefCipher.aes_gcm_decrypt
              RefJson.stringify RefJson.parse
              ref_correct ref_length ref_json_roundtrip
              SessionExamples.today Examples.salt0 Examples.iv0
              "correct horse"%string
              SessionExamples.locked SessionExamples.stored
              SessionExamples.old_data)
    as (a & d' & Hu & _ & _ & Hc & Hs & _ & Hl).
  - reflexivity.
  - reflexivity.
  - discriminate.
  - apply (load_saved RefCipher.key RefCipher.pbkdf2
             RefCipher.aes_gcm_encrypt RefCipher.aes_gcm_decrypt
             App.AppData RefJson.stringify RefJson.parse
             ref_correct ref_length ref_json_roundtrip);
      reflexivity.
  - exists a, d'. split; [exact Hu|]. split; [exact Hc|].
    split; [exact Hs | exact Hl].
Defined.

Lemma saveDayClick_keeps_store_in_sync_witness :
  let '(s', d') :=
    App.saveDayClick RefCipher.pbkdf2 RefCipher.aes_gcm_encrypt
      RefJson.stringify SessionExamples.today Examples.salt0 Examples.iv0
      (Some (Prediction.mkDate 2024 1 2)) Prediction.Heavy "cramps"
      ["headache"%string]
      (App.mkSession (Some "correct horse"%string)
                     (Some SessionExamples.old_data))
      SessionExamples.stored in
  exists a',
    s' = App.mkSession (Some "correct horse"%string) (Some a')
    /\ App.day_logs a'
       = App.upsertDayLog Examples.three_days (Prediction.mkDate 2024 1 2)
           Prediction.Heavy "cramps"
    /\ App.symptoms a'
       = App.replaceSymptoms [] (Prediction.mkDate 2024 1 2) ["headache"%string]
    /\ App.cycles a' = Prediction.rebuildCycles SessionExamples.today
                         (App.day_logs a')
    /\ App.settings a' = None
    /\ Storage.load RefCipher.pbkdf2 RefCipher.aes_gcm_decrypt RefJson.parse
         "correct horse" d' = Storage.Ok a'.
Proof.
  refine (saveDayClick_keeps_store_in_sync RefCipher.key RefCipher.pbkdf2
            RefCipher.aes_gcm_encrypt RefCipher.aes_gcm_decrypt
            RefJson.stringify RefJson.parse
            ref_correct ref_length ref_json_roundtrip
            SessionExamples.today Examples.salt0 Examples.iv0
            "correct horse"%string SessionExamples.old_data
            SessionExamples.stored (Prediction.mkDate 2024 1 2)
            Prediction.Heavy "cramps"%string ["headache"%string] _ _ _);
    [reflexivity | reflexivity | discriminate].
Defined.

Lemma setup_then_unlock_witness :
  let '(s1, d1, msg) :=
    App.setupClick RefCipher.pbkdf2 RefCipher.aes_gcm_encrypt RefJson.stringify
      Examples.salt0 Examples.iv0 "correct horse"
      SessionExamples.locked Storage.empty_db in
  s1 = App.mkSession (Some "correct horse"%string) (Some App.defaultAppData)
  /\ msg = ""%string
  /\ Storage.dataExists d1 = true
  /\ Storage.load RefCipher.pbkdf2 RefCipher.aes_gcm_decrypt RefJson.parse
       "correct horse" d1 = Storage.Ok App.defaultAppData
  /\ exists d2,
       App.unlock RefCipher.pbkdf2 RefCipher.aes_gcm_encrypt
         RefCipher.aes_gcm_decrypt RefJson.stringify RefJson.parse
         SessionExamples.today Examples.salt0 Examples.iv0 "correct horse"
         (App.doLock s1) d1 = (s1, d2, ""%string)
       /\ Storage.load RefCipher.pbkdf2 RefCipher.aes_gcm_decrypt RefJson.parse
            "correct horse" d2 = Storage.Ok App.defaultAppData.
Proof.
  refine (setup_then_unlock RefCipher.key RefCipher.pbkdf2
            RefCipher.aes_gcm_encrypt RefCipher.aes_gcm_decrypt
            RefJson.stringify RefJson.parse
            ref_correct ref_length ref_json_roundtrip
            SessionExamples.today Examples.salt0 Examples.iv0
            Examples.salt0 Examples.iv0 "correct horse"%string
            SessionExamples.locked Storage.empty_db _ _ _ _ _);
    [reflexivity | reflexivity | reflexivity | reflexivity | discriminate].
Defined.

(** ** Opening a day and saving it unchanged *)

Section DayScreen.

Import Prediction Spec App.
Local Open Scope Z_scope.

Lemma logMap_fold (logs : list DayLog) (m : date -> option DayLog) (d : date) :
  fold_left (fun m l => fun k => if date_eqb k (log_date l) then Some l else m k)
            logs m d
  = match find (fun l => date_eqb d (log_date l)) (rev logs) with
    | Some l => Some l
    | None => m d
    end.
Proof.
  revert m. induction logs as [|l logs IH]; intros m; [reflexivity|].
  cbn [fold_left rev]. rewrite IH.
  assert (H : forall l1 l2,
             find (fun l => date_eqb d (log_date l)) (l1 ++ l2)
             = match find (fun l => date_eqb d (log_date l)) l1 with
               | Some x => Some x
               | None => find (fun l => date_eqb d (log_date l)) l2
               end).
  { intros l1 l2. induction l1 as [|x l1 IH1]; [reflexivity|].
    cbn [app find]. destruct (date_eqb d (log_date x)); [reflexivity | exact IH1]. }
  rewrite H. destruct (find _ (rev logs)); [reflexivity|].
  cbn [find]. destruct (date_eqb d (log_date l)); reflexivity.
Qed.

Lemma date_eqb_sym (a b : date) : date_eqb a b = date_eqb b a.
Proof.
  destruct (date_eqb a b) eqn:E1, (date_eqb b a) eqn:E2; try reflexivity.
  - apply date_eqb_eq in E1. subst b. rewrite date_eqb_refl in E2. discriminate.
  - apply date_eqb_eq in E2. subst b. rewrite date_eqb_refl in E1. discriminate.
Qed.

(** With one entry per date, the entry the calendar shows for a date is
    the entry the save handler finds. *)
Lemma logMap_find (logs : list DayLog) (d : date) :
  NoDup (map log_date logs) -> logMap logs d = findDayLog logs d.
Proof.
  unfold logMap, findDayLog. intros Hnd.
  induction logs as [|l logs IH]; [reflexivity|].
  cbn [map] in Hnd. apply NoDup_cons_iff in Hnd. destruct Hnd as [Hnot Hnd].
  specialize (IH Hnd).
  cbn [fold_left find]. rewrite logMap_fold. rewrite logMap_fold in IH.
  rewrite (date_eqb_sym (log_date l) d).
  destruct (date_eqb d (log_date l)) eqn:E.
  - apply date_eqb_eq in E. subst d.
    destruct (find _ (rev logs)) as [x|] eqn:F; [|reflexivity].
    apply find_some in F. destruct F as [Hin Hx].
    apply date_eqb_eq in Hx. exfalso. apply Hnot. rewrite Hx.
    apply in_map, in_rev, Hin.
  - exact IH.
Qed.

Lemma upsert_same (logs : list DayLog) (d : date) (l : DayLog) :
  findDayLog logs d = Some l ->
  upsertDayLog logs d (flow_level l) (notes l) = logs.
Proof.
  unfold findDayLog. induction logs as [|x logs IH]; [discriminate|].
  cbn [find upsertDayLog]. destruct (date_eqb (log_date x) d) eqn:E.
  - intros H. injection H as <-. destruct x; reflexivity.
  - intros H. rewrite (IH H). reflexivity.
Qed.

Lemma upsert_new (logs : list DayLog) (d : date) (f : FlowLevel) (n : string) :
  findDayLog logs d = None ->
  upsertDayLog logs d f n = logs ++ [mkDayLog d f n].
Proof.
  unfold findDayLog. induction logs as [|x logs IH]; [reflexivity|].
  cbn [find upsertDayLog app]. destruct (date_eqb (log_date x) d) eqn:E.
  - discriminate.
  - intros H. rewrite (IH H). reflexivity.
Qed.

Lemma set_add_In (x y : string) (s : list string) :
  In y (set_add x s) <-> y = x \/ In y s.
Proof.
  unfold set_add. destruct (existsb (String.eqb x) s) eqn:E.
  - apply existsb_exists in E. destruct E as (z & Hz & Hxz).
    apply String.eqb_eq in Hxz. subst z.
    split; [intros H; right; exact H|]. intros [-> | H]; assumption.
  - rewrite in_app_iff. cbn [In]. split.
    + intros [H | [H | []]]; [right; exact H | left; symmetry; exact H].
    + intros [-> | H]; [right; left; reflexivity | left; exact H].
Qed.

Lemma set_add_NoDup (x : string) (s : list string) :
  NoDup s -> NoDup (set_add x s).
Proof.
  intros Hs. unfold set_add. destruct (existsb (String.eqb x) s) eqn:E; [exact Hs|].
  apply NoDup_app; [exact Hs | repeat constructor; intros [] |].
  intros y Hy [Hxy | []]. subst y.
  assert (H : existsb (String.eqb x) s = true).
  { apply existsb_exists. exists x. split; [exact Hy | apply String.eqb_refl]. }
  congruence.
Qed.

Lemma selected_types (ss : list Symptom) (init : list string) (t : string) :
  In t (fold_left (fun s x => set_add (symptom_type x) s) ss init)
  <-> In t init \/ In t (map symptom_type ss).
Proof.
  revert init. induction ss as [|x ss IH]; intros init; cbn [fold_left map In].
  - tauto.
  - rewrite IH, set_add_In. split.
    + intros [[-> | H] | H]; [right; left; reflexivity | left; exact H
                              | right; right; exact H].
    + intros [H | [H | H]]; [left; right; exact H | left; left; symmetry; exact H
                             | right; exact H].
Qed.

Lemma selected_NoDup (ss : list Symptom) (init : list string) :
  NoDup init ->
  NoDup (fold_left (fun s x => set_add (symptom_type x) s) ss init).
Proof.
  revert init. induction ss as [|x ss IH]; intros init Hi; [exact Hi|].
  cbn [fold_left]. apply IH, set_add_NoDup, Hi.
Qed.

Lemma symptoms_of_date_removed (syms : list Symptom) (d : date) :
  filter (fun s => date_eqb (symptom_date s) d)
         (filter (fun s => negb (date_eqb (symptom_date s) d)) syms) = [].
Proof.
  induction syms as [|s ss IH]; [reflexivity|].
  cbn [filter]. destruct (date_eqb (symptom_date s) d) eqn:E; cbn [negb].
  - exact IH.
  - cbn [filter]. rewrite E. exact IH.
Qed.

Lemma symptoms_of_date_selected (d : date) (selected : list string) :
  filter (fun s => date_eqb (symptom_date s) d)
         (map (fun sym => mkSymptom d sym 2) selected)
  = map (fun sym => mkSymptom d sym 2) selected.
Proof.
  induction selected as [|x xs IH]; [reflexivity|].
  cbn [map filter symptom_date]. rewrite date_eqb_refl, IH. reflexivity.
Qed.

(** X30.  With one entry per date in the day logs, opening a day from the
    calendar and saving it without a change keeps the data: an entry that
    exists stays as it is and the day logs are the same list; for a day
    without an entry, one entry without flow and with empty notes is added
    at the end; in both cases the rebuilt cycles are those of the day logs
    before, the day keeps exactly its symptom types, each once, and the
    day logs still hold one entry per date. *)
Theorem open_then_save_keeps_the_day :
  forall (today : date) (a : AppData) (d : date),
    NoDup (map log_date (day_logs a)) ->
    let form := cellClick a d in
    let a' := saveDay today d (selectedFlow form) (notesValue form)
                      (selectedSymptoms form) a in
    selectedDate form = Some d
    /\ (forall l, findDayLog (day_logs a) d = Some l -> day_logs a' = day_logs a)
    /\ (findDayLog (day_logs a) d = None ->
        day_logs a' = day_logs a ++ [mkDayLog d FlowNone ""])
    /\ cycles a' = rebuildCycles today (day_logs a)
    /\ NoDup (selectedSymptoms form)
    /\ (forall t,
          In t (map symptom_type
                    (filter (fun s => date_eqb (symptom_date s) d) (symptoms a')))
          <-> In t (map symptom_type
                        (filter (fun s => date_eqb (symptom_date s) d) (symptoms a))))
    /\ NoDup (map log_date (day_logs a')).
Proof.
  intros today a d Hnd form a'.
  assert (Hform : selectedFlow form
                  = match findDayLog (day_logs a) d with
                    | Some l => flow_level l | None => FlowNone end
                  /\ notesValue form
                     = match findDayLog (day_logs a) d with
                       | Some l => notes l | None => ""%string end).
  { subst form. unfold cellClick, openDayLog. cbn [selectedFlow notesValue].
    rewrite (logMap_find (day_logs a) d Hnd). split; reflexivity. }
  destruct Hform as [Hflow Hnotes].
  assert (Hlogs : day_logs a'
                  = upsertDayLog (day_logs a) d (selectedFlow form) (notesValue form))
    by reflexivity.
  assert (Hsame : forall l, findDayLog (day_logs a) d = Some l ->
                            day_logs a' = day_logs a).
  { intros l Hl. rewrite Hlogs, Hflow, Hnotes, Hl. apply upsert_same, Hl. }
  assert (Hnew : findDayLog (day_logs a) d = None ->
                 day_logs a' = day_logs a ++ [mkDayLog d FlowNone ""]).
  { intros Hn. rewrite Hlogs, Hflow, Hnotes, Hn. apply upsert_new, Hn. }
  split; [reflexivity|]. split; [exact Hsame|]. split; [exact Hnew|].
  split; [|split; [|split]].
  - change (cycles a') with (rebuildCycles today (day_logs a')).
    destruct (findDayLog (day_logs a) d) as [l|] eqn:F.
    + rewrite (Hsame l eq_refl). reflexivity.
    + rewrite (Hnew eq_refl). unfold rebuildCycles.
      rewrite filter_app. cbn [filter flow_level is_flow].
      rewrite app_nil_r. reflexivity.
  - subst form. unfold cellClick, openDayLog. cbn [selectedSymptoms].
    destruct (symptomMap (symptoms a) d); [|constructor].
    apply selected_NoDup. constructor.
  - intros t.
    change (symptoms a')
      with (replaceSymptoms (symptoms a) d (selectedSymptoms form)).
    unfold replaceSymptoms. rewrite filter_app.
    rewrite symptoms_of_date_removed. cbn [app].
    rewrite symptoms_of_date_selected, map_map. cbn [symptom_type].
    rewrite map_id.
    subst form. unfold cellClick, openDayLog, symptomMap. cbn [selectedSymptoms].
    destruct (filter (fun s => date_eqb (symptom_date s) d) (symptoms a))
      as [|s0 ss] eqn:F.
    + cbn [map In]. tauto.
    + rewrite selected_types. cbn [In]. tauto.
  - destruct (findDayLog (day_logs a) d) as [l|] eqn:F.
    + rewrite (Hsame l eq_refl). exact Hnd.
    + rewrite (Hnew eq_refl), map_app. cbn [map log_date].
      apply NoDup_app; [exact Hnd | repeat constructor; intros [] |].
      intros x Hx [Hdx | []]. subst x.
      apply in_map_iff in Hx. destruct Hx as (l & Hl & Hin).
      unfold findDayLog in F.
      apply (find_none _ _ F) in Hin. rewrite Hl, date_eqb_refl in Hin.
      discriminate.
Qed.

Lemma open_then_save_keeps_the_day_witness :
  day_logs (saveDay SessionExamples.today (mkDate 2024 1 2)
              (selectedFlow (cellClick SessionExamples.old_data (mkDate 2024 1 2)))
              (notesValue (cellClick SessionExamples.old_data (mkDate 2024 1 2)))
              (selectedSymptoms (cellClick SessionExamples.old_data (mkDate 2024 1 2)))
              SessionExamples.old_data)
  = Examples.three_days.
Proof.
  assert (Hnd : NoDup (map log_date (day_logs SessionExamples.old_data))).
  { repeat constructor; cbn; intuition discriminate. }
  destruct (open_then_save_keeps_the_day
              SessionExamples.today SessionExamples.old_data (mkDate 2024 1 2) Hnd)
    as (_ & Hsame & _).
  exact (Hsame (Examples.flow 2024 1 2) eq_refl).
Defined.

End DayScreen.
